(** * deepstream.io storage connector for neo4j: key segmentation, query
    synthesis and the value transform

    A shallow embedding of [src/transform-data.js] and [src/connector.js].

    - [JS]: the JavaScript values the code handles, property access in
      strict mode, [JSON.parse(JSON.stringify(v))], deep equality, and the
      effects (console output, engine calls, callbacks) as a trace.
    - [TransformData]: [transformValueForStorage], [transformValueFromStorage]
      on values.
    - [Str], [Enum]: [split], [toUpperCase], template literals, and the
      order in which [for .. in] visits the keys of an object.
    - [Connector]: the constructor, [_getSegments], [_getQuery], and the
      synchronous part of [set], [get], [delete].
    - [Store]: the two transforms again over an explicit object store, to
      speak about mutation and aliasing.
    - [Layout]: how a value of [JS] lies in a store of [Store]; the store
      model is shown to return what the value model returns.
    - [Shape], [CrossCheck], [Examples]: the results written out, and the
      values of the test suite and the README.
    - [Cases], [Keys]: what a caller observes of a value, and the keys
      that are cut into the same segments.
    - [Handlers]: [set], [get], [delete] with the handlers they attach
      to the promise of [session.run].
    - [Legacy]: the earlier version of the connector.

    Numbers are the integers, -0, NaN and the two infinities; strings are
    sequences of 8-bit code units; [toUpperCase] is the ASCII one; the
    driver library behind [neo4j.driver] is an argument of the
    constructor. *)

From stdpp Require Import base list.
From Stdlib Require Import String Ascii ZArith Lia Bool DecimalString.
Local Open Scope list_scope.
Local Open Scope string_scope.

(* ================================================================== *)
(** * JavaScript values *)
(* ================================================================== *)

Module JS.

(** A number. The code never computes with numbers: it copies them
    through JSON, tests them for truth and hands them on. Integers stand
    for the finite numbers other than -0; the numbers that JSON does not
    keep are listed apart. *)
Inductive number : Type :=
| Finite (z : Z)
| NegZero                      (* -0 *)
| NaN
| Infinity (negative : bool).  (* Infinity, -Infinity *)

Coercion Finite : Z >-> number.
Bind Scope Z_scope with number.

Definition number_truthy (n : number) : bool :=
  match n with
  | Finite z => negb (Z.eqb z 0)
  | NegZero | NaN => false
  | Infinity _ => true
  end.

(** Equality of numbers as deep equality has it: NaN equals NaN, and -0
    is not 0. *)
Definition number_eqb (x y : number) : bool :=
  match x, y with
  | Finite a, Finite b => Z.eqb a b
  | NegZero, NegZero => true
  | NaN, NaN => true
  | Infinity a, Infinity b => Bool.eqb a b
  | _, _ => false
  end.

(** The numbers JSON keeps as they are. *)
Definition number_kept (n : number) : bool :=
  match n with Finite _ => true | _ => false end.

(** A value in value semantics. An array carries its elements and, as
    every JavaScript object can, named properties of its own. An object
    is the list of its own properties in insertion order. *)
#[warnings="-register-all"]
Inductive jsval : Type :=
| JUndefined
| JNull
| JBool (b : bool)
| JNum (n : number)
| JStr (s : string)
| JArr (elems : list jsval) (named : list (string * jsval))
| JObj (props : list (string * jsval)).

Inductive exn : Type :=
| SyntaxError
| TypeError
| Error (msg : string).

Inductive result (A : Type) : Type :=
| Ok (a : A)
| Throw (e : exn).
Arguments Ok {A} a.
Arguments Throw {A} e.

(** What the code does to the outside world, in order. *)
Inductive event : Type :=
| ELog (line : jsval)                          (* console.log(line) *)
| EDriver (url user password : string)         (* neo4j.driver(url, basic auth) *)
| ESession                                     (* this._db.session() *)
| ERun (query : string) (params : option jsval) (* session.run(query[, params]) *)
| ECallback (args : list jsval).               (* callback(args...) *)

(** A computation: the events it performed, and its value or exception. *)
Definition M (A : Type) : Type := (list event * result A)%type.

Definition ret {A} (a : A) : M A := ([], Ok a).
Definition throw {A} (e : exn) : M A := ([], Throw e).
Definition emit (e : event) : M unit := ([e], Ok tt).
Definition lift {A} (r : result A) : M A := ([], r).

Definition bind {A B} (m : M A) (k : A -> M B) : M B :=
  match m with
  | (tr, Ok a) => let '(tr', r) := k a in ((tr ++ tr')%list, r)
  | (tr, Throw e) => (tr, Throw e)
  end.

Definition trace {A} (m : M A) : list event := fst m.
Definition outcome {A} (m : M A) : result A := snd m.

(** ** Own properties *)

Fixpoint assoc {A} (k : string) (ps : list (string * A)) : option A :=
  match ps with
  | [] => None
  | (k', x) :: r => if String.eqb k k' then Some x else assoc k r
  end.

Fixpoint remove_key {A} (k : string) (ps : list (string * A)) : list (string * A) :=
  match ps with
  | [] => []
  | (k', x) :: r => if String.eqb k k' then remove_key k r else (k', x) :: remove_key k r
  end.

(** Assignment keeps the position of an existing property and appends a
    new one. *)
Fixpoint put_key {A} (k : string) (v : A) (ps : list (string * A)) : list (string * A) :=
  match ps with
  | [] => [(k, v)]
  | (k', x) :: r => if String.eqb k k' then (k, v) :: r else (k', x) :: put_key k v r
  end.

Definition keys {A} (ps : list (string * A)) : list string := map fst ps.

(** [o.k], for the names the source reads ([_d], [_rels], [__ds],
    [__dsList], [_props]): none is an array index or a property of a
    primitive's prototype. *)
Definition get_prop (o : jsval) (k : string) : result jsval :=
  match o with
  | JUndefined | JNull => Throw TypeError
  | JObj ps => Ok (default JUndefined (assoc k ps))
  | JArr _ ps => Ok (default JUndefined (assoc k ps))
  | JBool _ | JNum _ | JStr _ => Ok JUndefined
  end.

(** [o.k = v] in strict mode: a primitive receiver throws. *)
Definition set_prop (o : jsval) (k : string) (v : jsval) : result jsval :=
  match o with
  | JObj ps => Ok (JObj (put_key k v ps))
  | JArr es ps => Ok (JArr es (put_key k v ps))
  | _ => Throw TypeError
  end.

(** [delete o.k]. *)
Definition delete_prop (o : jsval) (k : string) : result jsval :=
  match o with
  | JUndefined | JNull => Throw TypeError
  | JObj ps => Ok (JObj (remove_key k ps))
  | JArr es ps => Ok (JArr es (remove_key k ps))
  | JBool _ | JNum _ | JStr _ => Ok o
  end.

Definition truthy (v : jsval) : bool :=
  match v with
  | JUndefined | JNull => false
  | JBool b => b
  | JNum n => number_truthy n
  | JStr s => negb (String.eqb s "")
  | JArr _ _ | JObj _ => true
  end.

(** [v instanceof Array]. *)
Definition is_array (v : jsval) : bool :=
  match v with JArr _ _ => true | _ => false end.

(** ** JSON.parse(JSON.stringify(v)) *)

(** What [JSON.stringify] writes for a number, read again: -0 is written
    as 0, and NaN, Infinity and -Infinity as null. *)
Definition number_json (n : number) : jsval :=
  match n with
  | Finite _ => JNum n
  | NegZero => JNum 0
  | NaN | Infinity _ => JNull
  end.

(** [JSON.stringify] skips a property whose value is undefined, prints an
    undefined array element as null, and ignores the named properties of
    an array. *)
Fixpoint clone_val (v : jsval) : jsval :=
  match v with
  | JUndefined => JNull
  | JNum n => number_json n
  | JArr es _ => JArr (map clone_val es) []
  | JObj ps =>
      JObj ((fix props (ps : list (string * jsval)) : list (string * jsval) :=
               match ps with
               | [] => []
               | (k, JUndefined) :: r => props r
               | (k, x) :: r => (k, clone_val x) :: props r
               end) ps)
  | _ => v
  end.

Fixpoint clone_props (ps : list (string * jsval)) : list (string * jsval) :=
  match ps with
  | [] => []
  | (k, JUndefined) :: r => clone_props r
  | (k, x) :: r => (k, clone_val x) :: clone_props r
  end.

(** [JSON.stringify(undefined)] is undefined, and [JSON.parse(undefined)]
    parses the text "undefined": a SyntaxError. *)
Definition json_clone (v : jsval) : result jsval :=
  match v with
  | JUndefined => Throw SyntaxError
  | _ => Ok (clone_val v)
  end.

(** ** Deep equality *)

Section Pointwise.
Context {A B : Type} (f : A -> B -> bool).

Fixpoint forall2b (l : list A) (l' : list B) : bool :=
  match l, l' with
  | [], [] => true
  | x :: r, y :: r' => f x y && forall2b r r'
  | _, _ => false
  end.

(** Every property of [ps] has a partner of the same name in [ps']. *)
Fixpoint props_in (ps : list (string * A)) (ps' : list (string * B)) : bool :=
  match ps with
  | [] => true
  | (k, x) :: r =>
      match assoc k ps' with
      | Some y => f x y
      | None => false
      end && props_in r ps'
  end.

(** The same own property names, in any order, with related values. *)
Definition props_match (ps : list (string * A)) (ps' : list (string * B)) : bool :=
  Nat.eqb (List.length ps) (List.length ps') && props_in ps ps'.
End Pointwise.

(** Structural equality up to the order of an object's properties; a
    property that is present with the value undefined is not the same as
    an absent one. *)
Fixpoint deep_eqb (a b : jsval) : bool :=
  match a, b with
  | JUndefined, JUndefined => true
  | JNull, JNull => true
  | JBool x, JBool y => Bool.eqb x y
  | JNum x, JNum y => number_eqb x y
  | JStr x, JStr y => String.eqb x y
  | JArr es ps, JArr es' ps' => forall2b deep_eqb es es' && props_match deep_eqb ps ps'
  | JObj ps, JObj ps' => props_match deep_eqb ps ps'
  | _, _ => false
  end.

(** ** Shapes of values *)

Fixpoint distinct_keys {A} (ps : list (string * A)) : bool :=
  match ps with
  | [] => true
  | (k, _) :: r =>
      match assoc k r with Some _ => false | None => distinct_keys r end
  end.

(** A value that JSON can carry: no undefined inside, no number but
    those JSON keeps, no named property on an array, no property name
    twice in an object. *)
Fixpoint is_json (v : jsval) : bool :=
  match v with
  | JUndefined => false
  | JNum n => number_kept n
  | JArr es ps => forallb is_json es && match ps with [] => true | _ => false end
  | JObj ps => distinct_keys ps && forallb (fun p => is_json (snd p)) ps
  | _ => true
  end.

Definition is_scalar (v : jsval) : bool :=
  match v with
  | JNull | JBool _ | JNum _ | JStr _ => true
  | _ => false
  end.

(** A relation descriptor, as in [{_v, _count}]: an object of scalars. *)
Definition is_descriptor (v : jsval) : bool :=
  match v with
  | JObj ps => distinct_keys ps && forallb (fun p => is_scalar (snd p)) ps
  | _ => false
  end.

(** The [_rels] mapping: relation name to descriptor. *)
Definition is_rels (v : jsval) : bool :=
  match v with
  | JObj ps => distinct_keys ps && forallb (fun p => is_descriptor (snd p)) ps
  | _ => false
  end.

(** The payload [_d] in list form: an array of scalars. *)
Definition is_list_payload (d : jsval) : bool :=
  match d with
  | JArr es [] => forallb is_scalar es
  | _ => false
  end.

(** The payload [_d] in object form: scalar properties, and possibly a
    [_rels] mapping. *)
Definition is_object_payload (d : jsval) : bool :=
  match d with
  | JObj ps =>
      distinct_keys ps &&
      forallb (fun p => if String.eqb (fst p) "_rels" then is_rels (snd p)
                        else is_scalar (snd p)) ps
  | _ => false
  end.

(** An external value [{_v, _d}]: an integer version, a payload, and
    nothing but scalars beside them. *)
Definition well_formed_external (v : jsval) : bool :=
  match v with
  | JObj ps =>
      distinct_keys ps &&
      match assoc "_v" ps with Some (JNum _) => true | _ => false end &&
      match assoc "_d" ps with
      | Some d => is_list_payload d || is_object_payload d
      | None => false
      end &&
      forallb (fun p => String.eqb (fst p) "_d" || is_scalar (snd p)) ps
  | _ => false
  end.

(** The payload of an external value, undefined when there is none. *)
Definition payload (v : jsval) : jsval :=
  match v with
  | JObj ps => default JUndefined (assoc "_d" ps)
  | _ => JUndefined
  end.

(** The payload is an object that has a [_rels] property. *)
Definition has_rels (v : jsval) : bool :=
  match payload v with
  | JObj ps => match assoc "_rels" ps with Some _ => true | None => false end
  | _ => false
  end.

End JS.

Import JS.

Declare Scope js_scope.
Delimit Scope js_scope with js.
Notation "x <- m ;; k" := (bind m (fun x => k))
  (at level 100, m at next level, right associativity) : js_scope.
Notation "m ;;; k" := (bind m (fun _ => k))
  (at level 100, right associativity) : js_scope.
Local Open Scope js_scope.

(* ================================================================== *)
(** * transform-data.js *)
(* ================================================================== *)

Module TransformData.

Definition transformValueForStorage (value : jsval) : M jsval :=
  value <- lift (json_clone value) ;;
  data <- lift (get_prop value "_d") ;;
  value <- lift (delete_prop value "_d") ;;
  if is_array data then
    ret (JObj [("__dsList", data); ("__ds", value)])
  else
    rels <- lift (get_prop data "_rels") ;;
    data <- lift (delete_prop data "_rels") ;;
    let data := JObj [("_props", data); ("_rels", rels); ("__ds", value)] in
    emit (ELog data) ;;;
    ret data.

(** [data] starts as [value.__ds]; [data._d] is the object [value._props]
    itself, so the assignment to [data._d._rels] is seen through [data]. *)
Definition transformValueFromStorage (value : jsval) : M jsval :=
  value <- lift (json_clone value) ;;
  if negb (truthy value) then ret JUndefined
  else
    data <- lift (get_prop value "__ds") ;;
    value <- lift (delete_prop value "__ds") ;;
    dsList <- lift (get_prop value "__dsList") ;;
    if is_array dsList then
      lift (set_prop data "_d" dsList)
    else
      props <- lift (get_prop value "_props") ;;
      data <- lift (set_prop data "_d" props) ;;
      data <- (if truthy props then
                 d <- lift (get_prop data "_d") ;;
                 rels <- lift (get_prop value "_rels") ;;
                 d <- lift (set_prop d "_rels" rels) ;;
                 lift (set_prop data "_d" d)
               else ret data) ;;
      value <- lift (delete_prop value "_rels") ;;
      ret data.

End TransformData.

(* ================================================================== *)
(** * String primitives used by connector.js *)
(* ================================================================== *)

Module Str.

Definition upper_ascii (c : ascii) : ascii :=
  let n := nat_of_ascii c in
  if Nat.leb 97 n && Nat.leb n 122 then ascii_of_nat (n - 32) else c.

(** [s.toUpperCase()] on ASCII text: the letters a-z become A-Z, every
    other code unit is kept. On text with other letters (e-acute, sharp s)
    the method of the program changes more than this function does, so
    what is stated about strings with the same upper case is stated for
    ASCII text ([ascii_only]). *)
Fixpoint toUpperCase (s : string) : string :=
  match s with
  | EmptyString => EmptyString
  | String c r => String (upper_ascii c) (toUpperCase r)
  end.

(** Every code unit of [s] is below 128. *)
Definition ascii_only (s : string) : bool :=
  forallb (fun c => Nat.ltb (nat_of_ascii c) 128) (list_ascii_of_string s).

(** Scanning for a non-empty separator: [skip] code units of a separator
    just recognised are still to be dropped, [cur] is the element being
    collected. *)
Fixpoint split_from (sep : string) (skip : nat) (cur : string) (s : string) : list string :=
  match s with
  | EmptyString => [cur]
  | String c r =>
      match skip with
      | S n => split_from sep n cur r
      | O =>
          if String.prefix sep s
          then cur :: split_from sep (String.length sep - 1) "" r
          else split_from sep 0 (cur ++ String c "") r
      end
  end.

Fixpoint chars (s : string) : list string :=
  match s with
  | EmptyString => []
  | String c r => String c "" :: chars r
  end.

(** [s.split(sep)] where [sep] is a string or null. A null separator is
    converted to the text "null"; an empty one splits between code
    units. *)
Definition split (s : string) (sep : option string) : list string :=
  let sep := match sep with Some x => x | None => "null" end in
  if String.eqb sep "" then chars s else split_from sep 0 "" s.

(** A template literal prints an absent array element as "undefined". *)
Definition interpolate (o : option string) : string :=
  match o with Some s => s | None => "undefined" end.

Definition nl : string := String (ascii_of_nat 10) "".
Definition spaces (n : nat) : string := string_of_list_ascii (repeat " "%char n).

(** [needle] occurs in [s]. *)
Fixpoint contains (needle s : string) : bool :=
  String.prefix needle s ||
  match s with
  | EmptyString => false
  | String _ r => contains needle r
  end.

End Str.

(* ================================================================== *)
(** * Enumeration order of own properties (for-in) *)
(* ================================================================== *)

Module Enum.

Definition digit (c : ascii) : option N :=
  let n := N_of_ascii c in
  if N.leb 48 n && N.leb n 57 then Some (n - 48)%N else None.

Fixpoint digits (acc : N) (s : string) : option N :=
  match s with
  | EmptyString => Some acc
  | String c r =>
      match digit c with
      | Some d => digits (acc * 10 + d)%N r
      | None => None
      end
  end.

(** A property name is an array index when it is the canonical decimal
    spelling of an integer below 2^32 - 1. *)
Definition array_index (k : string) : option N :=
  match k with
  | EmptyString => None
  | String c r =>
      if Ascii.eqb c "0" && negb (String.eqb r "") then None
      else match digits 0 k with
           | Some n => if N.ltb n 4294967295 then Some n else None
           | None => None
           end
  end.

Fixpoint insert_sorted (n : N) (k : string) (l : list (N * string)) : list (N * string) :=
  match l with
  | [] => [(n, k)]
  | (m, k') :: r => if N.leb n m then (n, k) :: l else (m, k') :: insert_sorted n k r
  end.

Fixpoint index_keys (ks : list string) : list (N * string) :=
  match ks with
  | [] => []
  | k :: r =>
      match array_index k with
      | Some n => insert_sorted n k (index_keys r)
      | None => index_keys r
      end
  end.

Definition is_index (k : string) : bool :=
  match array_index k with Some _ => true | None => false end.

(** Array indices in ascending order, then the other names in insertion
    order. *)
Definition own_keys (ks : list string) : list string :=
  (map snd (index_keys ks) ++ List.filter (fun k => negb (is_index k)) ks)%list.

Definition decimal (n : nat) : string := NilEmpty.string_of_uint (Nat.to_uint n).

(** The names [for (k in v)] visits. *)
Definition for_in_keys (v : jsval) : list string :=
  match v with
  | JObj ps => own_keys (keys ps)
  | JArr es ps => (map decimal (seq 0 (List.length es)) ++ own_keys (keys ps))%list
  | JStr s => map decimal (seq 0 (String.length s))
  | _ => []
  end.

End Enum.

(* ================================================================== *)
(** * connector.js *)
(* ================================================================== *)

Module Connector.

Import Str Enum.

(** The options object; a field is [None] when the option is not given. *)
Record options : Type := {
  connectionString : option string;
  userName : option string;
  password : option string;
  splitChar : option string;
  defaultLabel : option string
}.

(** The fields of [this] the methods read. *)
Record connector : Type := {
  isReady : bool;
  _defaultLabel : string;
  _splitChar : option string
}.

(** An option is usable when it is given and not the empty string. *)
Definition given (o : option string) : bool :=
  match o with
  | Some s => negb (String.eqb s "")
  | None => false
  end.

(** [o || d] *)
Definition or_else {A} (o : option string) (some : string -> A) (d : A) : A :=
  match o with
  | Some s => if String.eqb s "" then d else some s
  | None => d
  end.

(** [neo4j.driver(url, neo4j.auth.basic(user, password))] belongs to
    the driver library: it returns a driver or throws, on a connection
    string whose scheme it does not know for one. What it throws, if it
    throws, is an input here. *)
Definition driver_library : Type := string -> string -> string -> option exn.

(** The call of [neo4j.driver] is not guarded: what it throws, the
    constructor throws. [session()] and [run] report what fails through
    the promise, to [_onError], and not to the constructor. *)
Definition Connector (neo4j : driver_library) (opts : options) : M connector :=
  let this := {| isReady := false;
                 _defaultLabel := or_else (defaultLabel opts) id "DS_SCHEMA";
                 _splitChar := or_else (splitChar opts) Some None |} in
  if negb (given (connectionString opts)) then
    throw (Error "Missing setting 'connectionString'")
  else if negb (given (userName opts)) then
    throw (Error "Missing setting 'user'")
  else if negb (given (password opts)) then
    throw (Error "Missing setting 'password'")
  else
    let url := default "" (connectionString opts) in
    let user := default "" (userName opts) in
    let pass := default "" (password opts) in
    emit (EDriver url user pass) ;;;
    match neo4j url user pass with
    | Some e => throw e
    | None =>
        emit ESession ;;;
        emit (ERun "return 1" None) ;;;
        ret this
    end.

(** The loop [for (i in segments)]: [i % 2] is truthy at odd positions. *)
Fixpoint normalize_from (i : nat) (segments : list string) : list string :=
  match segments with
  | [] => []
  | s :: r => (if Nat.odd i then s else toUpperCase s) :: normalize_from (S i) r
  end.

(** [segments[0] === x] *)
Definition first_is (segments : list string) (x : string) : bool :=
  match segments with
  | s :: _ => String.eqb s x
  | [] => false
  end.

(** The result is [None] where the source returns null. *)
Definition _getSegments (this : connector) (key : string) : option (list string) :=
  let segments := split key (_splitChar this) in
  if first_is segments "" || first_is segments (_defaultLabel this) then None
  else
    let segments := normalize_from 0 segments in
    match segments with
    | [s] => Some [_defaultLabel this ++ ":" ++ s]
    | _ => Some segments
    end.

Inductive action : Type := SET | GET | DELETE.

(** The clause added for one relation name. *)
Definition rel_clause (rel : string) : string :=
  let label := toUpperCase rel in
  "MERGE (n)-[:" ++ rel ++ "]->(" ++ label ++ "_m)<-[:__ds]-(" ++ label ++ "_ds)"
  ++ nl ++ spaces 18 ++ "SET " ++ label ++ "_ds += $_rels." ++ rel ++ " ".

Definition return_clause : string :=
  "RETURN { __ds: properties(ds),"
  ++ nl ++ spaces 28 ++ "_props: properties(n),"
  ++ nl ++ spaces 28 ++ "_rel_keys: collect(type(r)), "
  ++ nl ++ spaces 28 ++ "_rel_vals: collect(properties(m)) } AS value".

(** The query text, before it is logged. [values] is [None] when the
    argument is not passed. *)
Definition query_text (act : action) (segments : list string) (values : option jsval)
  : result string :=
  let label := segments !! 0%nat in
  if Nat.ltb (List.length segments) 3 then
    let id := segments !! 1%nat in
    let query := match act with SET => "MERGE" | _ => "MATCH" end in
    let query := query ++ " (ds:__DS { _key: '" ++ interpolate id
                       ++ "' })-[ds_r:__ds]->(n:" ++ interpolate label ++ ") " in
    match values with
    | Some v =>
        if truthy v then
          let query := query ++ " SET ds += $__ds " in
          let query := query ++ " SET ds_r.schema = keys($_rels) " in
          let query := query ++ " SET n += $_props " in
          match get_prop v "_rels" with
          | Ok rels => Ok (fold_left (fun q rel => q ++ rel_clause rel) (for_in_keys rels) query)
          | Throw e => Throw e
          end
        else Ok (query ++ "MATCH (n)-[r]->(m) " ++ "WHERE type(r) IN ds_r.schema "
                       ++ match act with DELETE => "DETACH DELETE n, m" | _ => return_clause end)
    | None =>
        Ok (query ++ "MATCH (n)-[r]->(m) " ++ "WHERE type(r) IN ds_r.schema "
                  ++ match act with DELETE => "DETACH DELETE n, m" | _ => return_clause end)
    end
  else Ok "".

(** What the query text takes from [values]: whether there is a value,
    and the names [for (rel in values._rels)] visits. *)
Definition has_values (values : option jsval) : bool :=
  match values with
  | Some v => truthy v
  | None => false
  end.

Definition rel_names (values : option jsval) : list string :=
  match values with
  | Some v =>
      if truthy v then
        match get_prop v "_rels" with
        | Ok rels => for_in_keys rels
        | Throw _ => []
        end
      else []
  | None => []
  end.

(** The parts of the query text, for the statements below. *)
Definition query_head (act : action) (segments : list string) : string :=
  match act with SET => "MERGE" | _ => "MATCH" end
  ++ " (ds:__DS { _key: '" ++ interpolate (segments !! 1%nat)
  ++ "' })-[ds_r:__ds]->(n:" ++ interpolate (segments !! 0%nat) ++ ") ".

Definition query_read (act : action) : string :=
  "MATCH (n)-[r]->(m) " ++ "WHERE type(r) IN ds_r.schema "
  ++ match act with DELETE => "DETACH DELETE n, m" | _ => return_clause end.

Definition query_write (names : list string) (head : string) : string :=
  fold_left (fun q rel => q ++ rel_clause rel) names
            (((head ++ " SET ds += $__ds ") ++ " SET ds_r.schema = keys($_rels) ")
             ++ " SET n += $_props ").

Definition _getQuery (act : action) (segments : list string) (values : option jsval)
  : M string :=
  query <- lift (query_text act segments values) ;;
  emit (ELog (JStr query)) ;;;
  ret query.

Definition invalid_key (key : string) : jsval := JStr ("Invalid key " ++ key).

(** ** The synchronous part of the three operations

    Each ends when [session.run] has been called; what the handlers do
    once the engine answers is not part of these traces. *)

Definition set (this : connector) (key : string) (value : jsval) : M unit :=
  match _getSegments this key with
  | None => emit (ECallback [invalid_key key])
  | Some segments =>
      value <- TransformData.transformValueForStorage value ;;
      query <- _getQuery SET segments (Some value) ;;
      emit ESession ;;;
      emit (ERun query (Some value))
  end.

Definition get (this : connector) (key : string) : M unit :=
  match _getSegments this key with
  | None => emit (ECallback [invalid_key key])
  | Some segments =>
      query <- _getQuery GET segments None ;;
      emit ESession ;;;
      emit (ERun query None)
  end.

Definition delete (this : connector) (key : string) : M unit :=
  match _getSegments this key with
  | None => emit (ECallback [invalid_key key])
  | Some segments =>
      query <- _getQuery DELETE segments None ;;
      emit ESession ;;;
      emit (ERun query None)
  end.

End Connector.

(* ================================================================== *)
(** * transform-data.js over an object store *)
(* ================================================================== *)

(** Objects and arrays live in a store and are handled through
    references, so that an assignment through one name is seen through
    every other name of the same object. Allocation appends a cell; the
    store never shrinks. *)
Module Store.

Abbreviation loc := nat.

Inductive val : Type :=
| VUndefined
| VNull
| VBool (b : bool)
| VNum (n : number)
| VStr (s : string)
| VRef (l : loc).

Inductive cell : Type :=
| CObj (props : list (string * val))
| CArr (elems : list val) (named : list (string * val)).

Abbreviation store := (list cell).

Definition named_of (c : cell) : list (string * val) :=
  match c with CObj ps => ps | CArr _ ps => ps end.

Definition with_named (c : cell) (ps : list (string * val)) : cell :=
  match c with CObj _ => CObj ps | CArr es _ => CArr es ps end.

(** The values a cell holds. *)
Definition children (c : cell) : list val :=
  match c with
  | CObj ps => map snd ps
  | CArr es ps => (es ++ map snd ps)%list
  end.

(** [l] is an object reachable from [v]. *)
Inductive reach (h : store) : val -> loc -> Prop :=
| reach_here l : reach h (VRef l) l
| reach_step l c x l' :
    h !! l = Some c -> x ∈ children c -> reach h x l' -> reach h (VRef l) l'.

(** ** JSON.stringify *)

Inductive serialised (A : Type) : Type :=
| NoFuel
| Circular
| Got (a : A).
Arguments NoFuel {A}.
Arguments Circular {A}.
Arguments Got {A} a.

Section Serialise.
(** [f] serialises one value: [Got None] where [JSON.stringify] gives
    undefined. *)
Variable f : val -> serialised (option jsval).

Fixpoint text_elems (es : list val) : serialised (list jsval) :=
  match es with
  | [] => Got []
  | e :: r =>
      match f e with
      | NoFuel => NoFuel
      | Circular => Circular
      | Got t =>
          match text_elems r with
          | Got ts => Got (default JNull t :: ts)
          | o => o
          end
      end
  end.

Fixpoint text_props (ps : list (string * val)) : serialised (list (string * jsval)) :=
  match ps with
  | [] => Got []
  | (k, x) :: r =>
      match f x with
      | NoFuel => NoFuel
      | Circular => Circular
      | Got t =>
          match text_props r with
          | Got ts => Got (match t with Some t => (k, t) :: ts | None => ts end)
          | o => o
          end
      end
  end.
End Serialise.

Definition on_stack (l : loc) (stack : list loc) : bool :=
  existsb (Nat.eqb l) stack.

(** The document [JSON.stringify(v)] writes, as a tree. [stack] holds the
    objects being serialised around [v]; meeting one of them again is
    the TypeError for a circular structure. *)
Fixpoint stringify (fuel : nat) (h : store) (stack : list loc) (v : val)
  : serialised (option jsval) :=
  match fuel with
  | O => NoFuel
  | S fuel =>
      match v with
      | VUndefined => Got None
      | VNull => Got (Some JNull)
      | VBool b => Got (Some (JBool b))
      | VNum n => Got (Some (number_json n))
      | VStr s => Got (Some (JStr s))
      | VRef l =>
          if on_stack l stack then Circular
          else
            match h !! l with
            | None => Got None
            | Some (CObj ps) =>
                match text_props (stringify fuel h (l :: stack)) ps with
                | Got ts => Got (Some (JObj ts))
                | NoFuel => NoFuel
                | Circular => Circular
                end
            | Some (CArr es _) =>
                match text_elems (stringify fuel h (l :: stack)) es with
                | Got ts => Got (Some (JArr ts []))
                | NoFuel => NoFuel
                | Circular => Circular
                end
            end
      end
  end.

(** ** JSON.parse *)

(** Builds the objects of a tree in fresh cells, children first.
    [JSON.parse] does this with the document it has read, in which no
    array has named properties. *)
Fixpoint alloc (t : jsval) (h : store) : val * store :=
  match t with
  | JUndefined => (VUndefined, h)
  | JNull => (VNull, h)
  | JBool b => (VBool b, h)
  | JNum n => (VNum n, h)
  | JStr s => (VStr s, h)
  | JArr es ps =>
      let '(vs, h) :=
        (fix elems (es : list jsval) (h : store) : list val * store :=
           match es with
           | [] => ([], h)
           | e :: r =>
               let '(v, h) := alloc e h in
               let '(vs, h) := elems r h in
               (v :: vs, h)
           end) es h in
      let '(ps, h) :=
        (fix props (ps : list (string * jsval)) (h : store) : list (string * val) * store :=
           match ps with
           | [] => ([], h)
           | (k, x) :: r =>
               let '(v, h) := alloc x h in
               let '(vs, h) := props r h in
               ((k, v) :: vs, h)
           end) ps h in
      (VRef (List.length h), (h ++ [CArr vs ps])%list)
  | JObj ps =>
      let '(ps, h) :=
        (fix props (ps : list (string * jsval)) (h : store) : list (string * val) * store :=
           match ps with
           | [] => ([], h)
           | (k, x) :: r =>
               let '(v, h) := alloc x h in
               let '(vs, h) := props r h in
               ((k, v) :: vs, h)
           end) ps h in
      (VRef (List.length h), (h ++ [CObj ps])%list)
  end.

Fixpoint alloc_elems (es : list jsval) (h : store) : list val * store :=
  match es with
  | [] => ([], h)
  | e :: r =>
      let '(v, h) := alloc e h in
      let '(vs, h) := alloc_elems r h in
      (v :: vs, h)
  end.

Fixpoint alloc_props (ps : list (string * jsval)) (h : store) : list (string * val) * store :=
  match ps with
  | [] => ([], h)
  | (k, x) :: r =>
      let '(v, h) := alloc x h in
      let '(vs, h) := alloc_props r h in
      ((k, v) :: vs, h)
  end.

(** ** Computations over the store *)

Definition St (A : Type) : Type := store -> result A * store.

Definition ret {A} (a : A) : St A := fun h => (Ok a, h).
Definition throw {A} (e : exn) : St A := fun h => (Throw e, h).
Definition bind {A B} (m : St A) (k : A -> St B) : St B :=
  fun h =>
    match m h with
    | (Ok a, h') => k a h'
    | (Throw e, h') => (Throw e, h')
    end.

(** [JSON.parse(JSON.stringify(v))]. The depth of an object graph
    without cycles is at most the number of cells, so the serialiser is
    never short of fuel here (lemma [stringify_fuel] below). *)
Definition json_clone (v : val) : St val :=
  fun h =>
    match stringify (S (List.length h)) h [] v with
    | Got (Some t) => let '(v', h') := alloc t h in (Ok v', h')
    | Got None => (Throw SyntaxError, h)
    | Circular => (Throw TypeError, h)
    | NoFuel => (Throw TypeError, h)
    end.

Definition get_prop (o : val) (k : string) : St val :=
  fun h =>
    match o with
    | VUndefined | VNull => (Throw TypeError, h)
    | VRef l =>
        match h !! l with
        | Some c => (Ok (default VUndefined (assoc k (named_of c))), h)
        | None => (Ok VUndefined, h)
        end
    | VBool _ | VNum _ | VStr _ => (Ok VUndefined, h)
    end.

Definition set_prop (o : val) (k : string) (v : val) : St unit :=
  fun h =>
    match o with
    | VRef l =>
        match h !! l with
        | Some c => (Ok tt, <[l := with_named c (put_key k v (named_of c))]> h)
        | None => (Ok tt, h)
        end
    | _ => (Throw TypeError, h)
    end.

Definition delete_prop (o : val) (k : string) : St unit :=
  fun h =>
    match o with
    | VUndefined | VNull => (Throw TypeError, h)
    | VRef l =>
        match h !! l with
        | Some c => (Ok tt, <[l := with_named c (remove_key k (named_of c))]> h)
        | None => (Ok tt, h)
        end
    | VBool _ | VNum _ | VStr _ => (Ok tt, h)
    end.

(** An object literal. *)
Definition new_object (ps : list (string * val)) : St val :=
  fun h => (Ok (VRef (List.length h)), (h ++ [CObj ps])%list).

Definition truthy (v : val) : bool :=
  match v with
  | VUndefined | VNull => false
  | VBool b => b
  | VNum n => number_truthy n
  | VStr s => negb (String.eqb s "")
  | VRef _ => true
  end.

Definition is_array (v : val) : St bool :=
  fun h =>
    match v with
    | VRef l => match h !! l with Some (CArr _ _) => (Ok true, h) | _ => (Ok false, h) end
    | _ => (Ok false, h)
    end.

Declare Scope store_scope.
Delimit Scope store_scope with store.
Notation "x <- m ;; k" := (bind m (fun x => k))
  (at level 100, m at next level, right associativity) : store_scope.
Notation "m ;;; k" := (bind m (fun _ => k))
  (at level 100, right associativity) : store_scope.
Local Open Scope store_scope.

(** [console.log(data)] only reads [data]; it is left out here. *)
Definition transformValueForStorage (value : val) : St val :=
  value <- json_clone value ;;
  data <- get_prop value "_d" ;;
  delete_prop value "_d" ;;;
  arr <- is_array data ;;
  if arr : bool then
    new_object [("__dsList", data); ("__ds", value)]
  else
    rels <- get_prop data "_rels" ;;
    delete_prop data "_rels" ;;;
    new_object [("_props", data); ("_rels", rels); ("__ds", value)].

Definition transformValueFromStorage (value : val) : St val :=
  value <- json_clone value ;;
  if negb (truthy value) then ret VUndefined
  else
    data <- get_prop value "__ds" ;;
    delete_prop value "__ds" ;;;
    dsList <- get_prop value "__dsList" ;;
    arr <- is_array dsList ;;
    if arr : bool then
      set_prop data "_d" dsList ;;;
      ret data
    else
      props <- get_prop value "_props" ;;
      set_prop data "_d" props ;;;
      (if truthy props then
         d <- get_prop data "_d" ;;
         rels <- get_prop value "_rels" ;;
         set_prop d "_rels" rels
       else ret tt) ;;;
      delete_prop value "_rels" ;;;
      ret data.

(** The tree a value of the store stands for, when it has no cycle. *)
Fixpoint reify (fuel : nat) (h : store) (v : val) : option jsval :=
  match fuel with
  | O => None
  | S fuel =>
      match v with
      | VUndefined => Some JUndefined
      | VNull => Some JNull
      | VBool b => Some (JBool b)
      | VNum n => Some (JNum n)
      | VStr s => Some (JStr s)
      | VRef l =>
          match h !! l with
          | None => None
          | Some (CObj ps) =>
              ps' ← mapM (fun '(k, x) => pair k <$> reify fuel h x) ps ;
              Some (JObj ps')
          | Some (CArr es ps) =>
              es' ← mapM (reify fuel h) es ;
              ps' ← mapM (fun '(k, x) => pair k <$> reify fuel h x) ps ;
              Some (JArr es' ps')
          end
      end
  end.

(** ** What a call leaves of the store it was given *)

(** [v] is not a reference to one of the first [n] cells. *)
Definition fresh (n : nat) (v : val) : Prop :=
  match v with
  | VRef l => n <= l
  | _ => True
  end.

(** Cells that hold no reference to the first [n] cells. *)
Definition new_cells (n : nat) (ext : list cell) : Prop :=
  Forall (fun c => Forall (fresh n) (children c)) ext.

(** The store [h] is [h0] followed by cells that do not point back into
    [h0]. *)
Definition grown (h0 h : store) : Prop :=
  exists ext, h = (h0 ++ ext)%list /\ new_cells (List.length h0) ext.

(** Every cell of [h] is still there, unchanged, in [h']. *)
Definition preserved (h h' : store) : Prop :=
  exists ext, h' = (h ++ ext)%list.

(** No object reachable from [v] in [h'] is a cell of [h]. *)
Definition separate (h h' : store) (v : val) : Prop :=
  forall l, reach h' v l -> List.length h <= l.

(** [alloc] appends to the store, and what it appends and returns
    refers to appended cells only. *)
Definition alloc_ok (t : jsval) : Prop :=
  forall h, exists ext,
    snd (alloc t h) = (h ++ ext)%list /\
    fresh (List.length h) (fst (alloc t h)) /\
    new_cells (List.length h) ext.

(** A computation that, started in a store grown from [h0], ends in one,
    with a result satisfying [Q]. *)
Definition keeps {A} (h0 : store) (m : St A) (Q : A -> Prop) : Prop :=
  forall h, grown h0 h ->
            grown h0 (snd (m h)) /\ forall a, fst (m h) = Ok a -> Q a.

(** [v] is a primitive or refers to a cell of [h]. *)
Definition in_store (h : store) (v : val) : bool :=
  match v with
  | VRef l => Nat.ltb l (List.length h)
  | _ => true
  end.

(** A store without dangling references. *)
Definition closed_store (h : store) : bool :=
  forallb (fun c => forallb (in_store h) (children c)) h.

(** The store in which [JSON.parse] has built [t], and the value for it. *)
Definition store_of (t : jsval) : store := snd (alloc t []).
Definition value_of (t : jsval) : val := fst (alloc t []).

(** A run on the tree [t]: build it in an empty store, apply [f], read the
    result back. [None] stands for a result that cannot be read. *)
Definition run_on (f : val -> St val) (t : jsval) : option (result jsval) :=
  let '(v, h) := alloc t [] in
  match f v h with
  | (Ok r, h') => Ok <$> reify (S (List.length h')) h' r
  | (Throw e, _) => Some (Throw e)
  end.

End Store.

(* ================================================================== *)
(** * Trees in the store *)
(* ================================================================== *)

(** How a value of [JS] lies in a store of [Store], to compare the two
    models of the transforms. *)
Module Layout.
Import Store.

(** The primitive value that stands for a tree without cells. *)
Definition prim_of (t : jsval) : option val :=
  match t with
  | JUndefined => Some VUndefined
  | JNull => Some VNull
  | JBool b => Some (VBool b)
  | JNum n => Some (VNum n)
  | JStr s => Some (VStr s)
  | _ => None
  end.

(** [v] stands for the tree [t], built in the cells [a .. b-1] of [h] the
    way [alloc] builds it: the children one after the other, their parent
    last. *)
Fixpoint tree_at (h : store) (t : jsval) (a b : nat) (v : val) : Prop :=
  match t with
  | JArr es ps =>
      exists l es' ps' m,
        b = S l /\ v = VRef l /\ h !! l = Some (CArr es' ps') /\
        (fix elems (es : list jsval) (a b : nat) (es' : list val) : Prop :=
           match es, es' with
           | [], [] => a = b
           | t :: r, x :: r' => exists c, tree_at h t a c x /\ elems r c b r'
           | _, _ => False
           end) es a m es' /\
        (fix props (ps : list (string * jsval)) (a b : nat) (ps' : list (string * val)) : Prop :=
           match ps, ps' with
           | [], [] => a = b
           | (k, t) :: r, (k', x) :: r' => k = k' /\ exists c, tree_at h t a c x /\ props r c b r'
           | _, _ => False
           end) ps m l ps'
  | JObj ps =>
      exists l ps',
        b = S l /\ v = VRef l /\ h !! l = Some (CObj ps') /\
        (fix props (ps : list (string * jsval)) (a b : nat) (ps' : list (string * val)) : Prop :=
           match ps, ps' with
           | [], [] => a = b
           | (k, t) :: r, (k', x) :: r' => k = k' /\ exists c, tree_at h t a c x /\ props r c b r'
           | _, _ => False
           end) ps a l ps'
  | _ => a = b /\ prim_of t = Some v
  end.

Definition elems_at (h : store) : list jsval -> nat -> nat -> list val -> Prop :=
  fix elems (es : list jsval) (a b : nat) (es' : list val) : Prop :=
    match es, es' with
    | [], [] => a = b
    | t :: r, x :: r' => exists c, tree_at h t a c x /\ elems r c b r'
    | _, _ => False
    end.

Definition props_at (h : store)
  : list (string * jsval) -> nat -> nat -> list (string * val) -> Prop :=
  fix props (ps : list (string * jsval)) (a b : nat) (ps' : list (string * val)) : Prop :=
    match ps, ps' with
    | [], [] => a = b
    | (k, t) :: r, (k', x) :: r' => k = k' /\ exists c, tree_at h t a c x /\ props r c b r'
    | _, _ => False
    end.

(** [v] stands for the tree [t] in [h]. *)
#[warnings="-register-all"]
Inductive rep (h : store) : val -> jsval -> Prop :=
| rep_undefined : rep h VUndefined JUndefined
| rep_null : rep h VNull JNull
| rep_bool b : rep h (VBool b) (JBool b)
| rep_num n : rep h (VNum n) (JNum n)
| rep_str s : rep h (VStr s) (JStr s)
| rep_arr l es' ps' es ps :
    h !! l = Some (CArr es' ps') ->
    Forall2 (rep h) es' es ->
    Forall2 (fun p' p => fst p' = fst p /\ rep h (snd p') (snd p)) ps' ps ->
    rep h (VRef l) (JArr es ps)
| rep_obj l ps' ps :
    h !! l = Some (CObj ps') ->
    Forall2 (fun p' p => fst p' = fst p /\ rep h (snd p') (snd p)) ps' ps ->
    rep h (VRef l) (JObj ps).

(** The number of cells on the longest path into [t], plus one. *)
Fixpoint height (t : jsval) : nat :=
  match t with
  | JArr es ps =>
      S (Nat.max (fold_right Nat.max 0 (map height es))
                 (fold_right Nat.max 0 (map (fun p => height (snd p)) ps)))
  | JObj ps => S (fold_right Nat.max 0 (map (fun p => height (snd p)) ps))
  | _ => 1
  end.

(** What [JSON.stringify] writes for the tree [t]: nothing for undefined. *)
Definition text (t : jsval) : option jsval :=
  match t with
  | JUndefined => None
  | _ => Some (clone_val t)
  end.

(** The number of cells [alloc] uses for [t]. *)
Fixpoint cells (t : jsval) : nat :=
  match t with
  | JArr es ps =>
      S (fold_right Nat.add 0 (map cells es)
         + fold_right Nat.add 0 (map (fun p => cells (snd p)) ps))
  | JObj ps => S (fold_right Nat.add 0 (map (fun p => cells (snd p)) ps))
  | _ => 0
  end.

Definition cells_of (ps : list (string * jsval)) : nat :=
  fold_right Nat.add 0 (map (fun p => cells (snd p)) ps).

(** Where, among the cells of the properties [ps], those of the first
    property named [k] begin. *)
Fixpoint offset (k : string) (ps : list (string * jsval)) : nat :=
  match ps with
  | [] => 0
  | (k', t) :: r => if String.eqb k k' then 0 else cells t + offset k r
  end.

(** Arrays and objects: the values that have a cell. *)
Definition has_cell (t : jsval) : bool :=
  match t with JArr _ _ | JObj _ => true | _ => false end.

Definition named_in (t : jsval) : list (string * jsval) :=
  match t with JArr _ ps | JObj ps => ps | _ => [] end.

Definition with_named_in (t : jsval) (ps : list (string * jsval)) : jsval :=
  match t with
  | JArr es _ => JArr es ps
  | JObj _ => JObj ps
  | _ => t
  end.

(** The cells of the elements of an array come before those of its
    named properties. *)
Definition elems_cells (t : jsval) : nat :=
  match t with
  | JArr es _ => fold_right Nat.add 0 (map cells es)
  | _ => 0
  end.

(** A run over the store ends as a run on values does: with a value that
    stands for the same tree, or with the same exception. *)
Definition refines (run : result val * store) (m : M jsval) : Prop :=
  match JS.outcome m with
  | Ok t => exists res, fst run = Ok res /\ rep (snd run) res t
  | Throw e => fst run = Throw e
  end.

(** ** Statements about one tree, for inductions over nested children *)

(** The cells of a tree lie in the store, and their range is not empty
    backwards. *)
Definition bounded (h : store) (t : jsval) : Prop :=
  forall a b v, tree_at h t a b v -> a <= b /\ (a < b -> b <= List.length h).

(** A tree stays where it is when the store changes elsewhere. *)
Definition framed (h h' : store) (t : jsval) : Prop :=
  forall a b v, (forall l, a <= l < b -> h' !! l = h !! l) ->
                tree_at h t a b v -> tree_at h' t a b v.

(** [alloc] lays a tree out at the end of the store. *)
Definition built (t : jsval) : Prop :=
  forall h, tree_at (snd (alloc t h)) t (List.length h)
                    (List.length (snd (alloc t h))) (fst (alloc t h)).

(** A tree laid out in the store is one the store holds. *)
Definition represented (h : store) (t : jsval) : Prop :=
  forall a b v, tree_at h t a b v -> rep h v t.

(** [stringify] writes a tree laid out in the store, given fuel for its
    height and none of its cells on the stack. *)
Definition serialises (h : store) (t : jsval) : Prop :=
  forall a b v stack fuel,
    tree_at h t a b v ->
    (forall l, l < b -> on_stack l stack = false) ->
    height t <= fuel ->
    stringify fuel h stack v = Got (text t).

(** A tree is no higher than it has cells. *)
Definition short (h : store) (t : jsval) : Prop :=
  forall a b v, tree_at h t a b v -> height t <= S (b - a).

(** A tree takes as many cells as [cells] counts. *)
Definition sized (h : store) (t : jsval) : Prop :=
  forall a b v, tree_at h t a b v -> b = a + cells t.

(** Property lists that agree name by name. *)
Abbreviation related h :=
  (Forall2 (fun (p' : string * val) (p : string * jsval) =>
              fst p' = fst p /\ rep h (snd p') (snd p))).

(** [reify] reads a tree the store holds, given fuel for its height. *)
Definition readable (h : store) (t : jsval) : Prop :=
  forall v, rep h v t -> reify (height t) h v = Some t.

(** A run over the store ends as a run on values does, read with [reify]:
    its result reads back as the tree the run on values returns, or it
    throws the same exception. *)
Definition reads_as (run : result val * store) (m : M jsval) : Prop :=
  match JS.outcome m with
  | Ok t => exists res, fst run = Ok res /\ reify (height t) (snd run) res = Some t
  | Throw e => fst run = Throw e
  end.

(** A value stands for one tree at most. *)
Definition single (h : store) (t : jsval) : Prop :=
  forall v t', rep h v t -> rep h v t' -> t = t'.

(** The objects being serialised around a tree are other objects: each
    holds a tree that is higher. *)
Definition around (h : store) (stack : list loc) (t : jsval) : Prop :=
  forall l, on_stack l stack = true ->
            exists t', rep h (VRef l) t' /\ height t < height t'.

(** [stringify] writes a tree the store holds, whatever its cells share,
    given fuel for its height. *)
Definition written (h : store) (t : jsval) : Prop :=
  forall v stack fuel,
    rep h v t -> around h stack t -> height t <= fuel ->
    stringify fuel h stack v = Got (text t).

End Layout.

(** The two transforms after their first statement, on values. *)
Module Rest.
Import TransformData.
Local Open Scope js_scope.

(** [transformValueForStorage] after the copy. *)
Definition forStorage_rest (value : jsval) : M jsval :=
  data <- lift (get_prop value "_d") ;;
  value <- lift (delete_prop value "_d") ;;
  if is_array data then
    ret (JObj [("__dsList", data); ("__ds", value)])
  else
    rels <- lift (get_prop data "_rels") ;;
    data <- lift (delete_prop data "_rels") ;;
    let data := JObj [("_props", data); ("_rels", rels); ("__ds", value)] in
    emit (ELog data) ;;;
    ret data.

(** [transformValueFromStorage] after the copy. *)
Definition fromStorage_rest (value : jsval) : M jsval :=
  if negb (truthy value) then ret JUndefined
  else
    data <- lift (get_prop value "__ds") ;;
    value <- lift (delete_prop value "__ds") ;;
    dsList <- lift (get_prop value "__dsList") ;;
    if is_array dsList then
      lift (set_prop data "_d" dsList)
    else
      props <- lift (get_prop value "_props") ;;
      data <- lift (set_prop data "_d" props) ;;
      data <- (if truthy props then
                 d <- lift (get_prop data "_d") ;;
                 rels <- lift (get_prop value "_rels") ;;
                 d <- lift (set_prop d "_rels" rels) ;;
                 lift (set_prop data "_d" d)
               else ret data) ;;
      value <- lift (delete_prop value "_rels") ;;
      ret data.
End Rest.

(** The same over the store. *)
Module StoreRest.
Import Store.
Local Open Scope store_scope.

(** [transformValueForStorage] after the copy. *)
Definition forStorage_rest (value : val) : St val :=
  data <- get_prop value "_d" ;;
  delete_prop value "_d" ;;;
  arr <- is_array data ;;
  if arr : bool then
    new_object [("__dsList", data); ("__ds", value)]
  else
    rels <- get_prop data "_rels" ;;
    delete_prop data "_rels" ;;;
    new_object [("_props", data); ("_rels", rels); ("__ds", value)].

(** [transformValueFromStorage] after the copy. *)
Definition fromStorage_rest (value : val) : St val :=
  if negb (truthy value) then ret VUndefined
  else
    data <- get_prop value "__ds" ;;
    delete_prop value "__ds" ;;;
    dsList <- get_prop value "__dsList" ;;
    arr <- is_array dsList ;;
    if arr : bool then
      set_prop data "_d" dsList ;;;
      ret data
    else
      props <- get_prop value "_props" ;;
      set_prop data "_d" props ;;;
      (if truthy props then
         d <- get_prop data "_d" ;;
         rels <- get_prop value "_rels" ;;
         set_prop d "_rels" rels
       else ret tt) ;;;
      delete_prop value "_rels" ;;;
      ret data.
End StoreRest.

(* ================================================================== *)
(** * The results of the transforms, written out *)
(* ================================================================== *)

(** For an external value with the properties [flds] and the payload
    [_d], what the two transforms are shown below to return. *)
Module Shape.

Definition metadata (flds : list (string * jsval)) : jsval :=
  JObj (remove_key "_d" flds).

Definition list_storage (flds : list (string * jsval)) (d : jsval) : jsval :=
  JObj [("__dsList", d); ("__ds", metadata flds)].

Definition object_storage (flds dps : list (string * jsval)) : jsval :=
  JObj [("_props", JObj (remove_key "_rels" dps));
        ("_rels", default JUndefined (assoc "_rels" dps));
        ("__ds", metadata flds)].

Definition restored_list (flds : list (string * jsval)) (d : jsval) : jsval :=
  JObj (remove_key "_d" flds ++ [("_d", d)])%list.

Definition restored_object (flds dps : list (string * jsval)) : jsval :=
  JObj (remove_key "_d" flds ++
        [("_d", JObj (remove_key "_rels" dps ++
                      [("_rels", default JUndefined (assoc "_rels" dps))])%list)])%list.

End Shape.

(* ================================================================== *)
(** * Running the two models side by side *)
(* ================================================================== *)

Module CrossCheck.

(** Equality of trees, order of properties included. *)
Fixpoint tree_eqb (a b : jsval) : bool :=
  match a, b with
  | JUndefined, JUndefined => true
  | JNull, JNull => true
  | JBool x, JBool y => Bool.eqb x y
  | JNum x, JNum y => number_eqb x y
  | JStr x, JStr y => String.eqb x y
  | JArr es ps, JArr es' ps' =>
      forall2b tree_eqb es es' &&
      forall2b (fun p q => String.eqb (fst p) (fst q) && tree_eqb (snd p) (snd q)) ps ps'
  | JObj ps, JObj ps' =>
      forall2b (fun p q => String.eqb (fst p) (fst q) && tree_eqb (snd p) (snd q)) ps ps'
  | _, _ => false
  end.

Definition exn_eqb (a b : exn) : bool :=
  match a, b with
  | SyntaxError, SyntaxError => true
  | TypeError, TypeError => true
  | Error x, Error y => String.eqb x y
  | _, _ => false
  end.

Definition result_eqb (a b : result jsval) : bool :=
  match a, b with
  | Ok x, Ok y => tree_eqb x y
  | Throw x, Throw y => exn_eqb x y
  | _, _ => false
  end.

(** On the tree [t], the transform over the store and the transform on
    values end the same way. *)
Definition agree (over_store : Store.val -> Store.St Store.val)
           (on_values : jsval -> M jsval) (t : jsval) : bool :=
  match Store.run_on over_store t with
  | Some r => result_eqb r (outcome (on_values t))
  | None => false
  end.

Definition field (k : string) (o : option jsval) : list (string * jsval) :=
  match o with Some x => [(k, x)] | None => [] end.

Definition primitives : list jsval :=
  [JUndefined; JNull; JBool true; JBool false; JNum 0; JNum 5; JNum NegZero; JNum NaN;
   JNum (Infinity false); JStr ""; JStr "x"].

Definition some_rels : list (option jsval) :=
  [None; Some JUndefined; Some JNull; Some (JNum 1); Some (JObj []);
   Some (JObj [("friends", JObj [("_v", JNum 0); ("_count", JNum 0)])]);
   Some (JArr [JNum 1] [])].

(** Payloads of every kind: none, primitives, lists, objects with and
    without [_rels]. *)
Definition some_payloads : list (option jsval) :=
  (None :: map Some primitives
   ++ [Some (JArr [] []); Some (JArr [JStr "a"; JUndefined; JNum 2] [])]
   ++ flat_map (fun r => [Some (JObj (field "_rels" r ++ [("name", JStr "n")]));
                          Some (JObj (("name", JStr "n") :: field "_rels" r));
                          Some (JObj (field "_rels" r))]) some_rels)%list.

Definition external_inputs : list jsval :=
  (primitives ++ [JArr [JNum 1] []; JArr [] [("_d", JNum 1)]]
   ++ flat_map (fun d => [JObj (("_v", JNum 12) :: field "_d" d);
                          JObj (field "_d" d ++ [("_v", JNum 12); ("_rels", JNum 3)]);
                          JObj (field "_d" d)]) some_payloads)%list.

Definition some_metadata : list (option jsval) :=
  [None; Some JUndefined; Some JNull; Some (JNum 7); Some (JStr "m");
   Some (JObj [("_v", JNum 1)]); Some (JObj [("_v", JNum 1); ("_d", JNum 3)]);
   Some (JObj []); Some (JArr [JNum 1] [])].

Definition some_lists : list (option jsval) :=
  [None; Some (JArr [JStr "a"; JStr "b"] []); Some (JArr [] []); Some (JNum 1); Some (JObj [])].

Definition some_props : list (option jsval) :=
  [None; Some JNull; Some (JNum 0); Some (JNum 5); Some (JStr ""); Some (JStr "x");
   Some (JBool true); Some (JObj []); Some (JObj [("a", JNum 1)]);
   Some (JObj [("a", JNum 1); ("_rels", JNum 9)]); Some (JArr [JNum 1] [])].

Definition storage_inputs : list jsval :=
  (primitives ++ [JArr [JNum 1] []]
   ++ flat_map (fun ds =>
        flat_map (fun l =>
          flat_map (fun p =>
            flat_map (fun r =>
              [JObj (field "_props" p ++ field "_rels" r ++ field "__ds" ds
                     ++ field "__dsList" l);
               JObj (field "__dsList" l ++ field "__ds" ds ++ field "_rels" r
                     ++ field "_props" p)])
              some_rels) some_props) some_lists) some_metadata)%list.

End CrossCheck.

(* ================================================================== *)
(** * Values and connectors used as examples *)
(* ================================================================== *)

Module Examples.

Import Connector.

(** The record of the test suite. *)
Definition john : jsval :=
  JObj [("_d", JObj [("_rels", JObj [("friends", JObj [("_v", JNum 0); ("_count", JNum 0)]);
                                     ("groups", JObj [("_v", JNum 10); ("_count", JNum 20)]);
                                     ("events", JObj [("_v", JNum 17); ("_count", JNum 10)])]);
                     ("firstname", JStr "John");
                     ("lastname", JStr "Smith")]);
        ("_v", JNum 12)].

Definition john_list : jsval :=
  JObj [("_d", JArr [JStr "John"; JStr "Smith"] []); ("_v", JNum 12)].

(** An object payload without [_rels]. *)
Definition plain : jsval :=
  JObj [("_v", JNum 1); ("_d", JObj [("name", JStr "x")])].

(** A list that holds -0. *)
Definition minus_zero : jsval :=
  JObj [("_v", JNum 1); ("_d", JArr [JNum NegZero] [])].

(** What the two transforms make of [plain]. *)
Definition plain_restored : jsval :=
  JObj [("_v", JNum 1); ("_d", JObj [("name", JStr "x"); ("_rels", JUndefined)])].

(** [john] as stored, and a record with the same relations and other
    property values. *)
Definition john_storage : jsval :=
  JObj [("_props", JObj [("firstname", JStr "John"); ("lastname", JStr "Smith")]);
        ("_rels", JObj [("friends", JObj [("_v", JNum 0); ("_count", JNum 0)]);
                        ("groups", JObj [("_v", JNum 10); ("_count", JNum 20)]);
                        ("events", JObj [("_v", JNum 17); ("_count", JNum 10)])]);
        ("__ds", JObj [("_v", JNum 12)])].

Definition jane_storage : jsval :=
  JObj [("_props", JObj [("firstname", JStr "Jane' })-[]-() DETACH DELETE n //")]);
        ("_rels", JObj [("friends", JObj [("_v", JNum 4); ("_count", JNum 2)]);
                        ("groups", JObj [("_v", JNum 1); ("_count", JNum 1)]);
                        ("events", JObj [("_v", JNum 0); ("_count", JNum 0)])]);
        ("__ds", JObj [("_v", JNum 3)])].

(** A record the engine answers the GET query with, as
    [record.toObject()] shows it. *)
Definition john_record : jsval :=
  JObj [("value",
         JObj [("__ds", JObj [("_key", JStr "123"); ("_v", JNum 12)]);
               ("_props", JObj [("firstname", JStr "John"); ("lastname", JStr "Smith")]);
               ("_rel_keys", JArr [JStr "friends"] []);
               ("_rel_vals", JArr [JObj [("name", JStr "Ann")]] [])])].

(** The settings of the test suite. *)
Definition settings : options :=
  {| connectionString := Some "bolt://10.0.0.16";
     userName := Some "neo4j";
     password := Some "neo4j";
     splitChar := Some "/";
     defaultLabel := None |}.

(** A driver library that knows the scheme [bolt://] and no other. *)
Definition bolt : driver_library :=
  fun url _ _ =>
    if String.prefix "bolt://" url then None else Some (Error "Unknown scheme").

(** All required options, and a connection string without a scheme. *)
Definition gibberish : options :=
  {| connectionString := Some "gibberish";
     userName := Some "neo4j";
     password := Some "neo4j";
     splitChar := Some "/";
     defaultLabel := None |}.

(** The same without [splitChar]. *)
Definition settings_no_split : options :=
  {| connectionString := Some "bolt://10.0.0.16";
     userName := Some "neo4j";
     password := Some "neo4j";
     splitChar := None;
     defaultLabel := None |}.

(** The connector built from [settings]. *)
Definition slash : connector :=
  {| isReady := false; _defaultLabel := "DS_SCHEMA"; _splitChar := Some "/" |}.

(** The connector built from [settings_no_split]. *)
Definition unsplit : connector :=
  {| isReady := false; _defaultLabel := "DS_SCHEMA"; _splitChar := None |}.

(** A store in which one object is an element of a list twice, as after
    [const o = {name: 'x'}; const value = {_v: 1, _d: [o, o]}], and the
    tree the value at cell 2 stands for. *)
Definition shared_store : Store.store :=
  [Store.CObj [("name", Store.VStr "x")];
   Store.CArr [Store.VRef 0; Store.VRef 0] [];
   Store.CObj [("_v", Store.VNum 1); ("_d", Store.VRef 1)]].

Definition twice : jsval :=
  JObj [("_v", JNum 1);
        ("_d", JArr [JObj [("name", JStr "x")]; JObj [("name", JStr "x")]] [])].

End Examples.

(* ================================================================== *)
(** * Reading values *)
(* ================================================================== *)

(** What a caller can observe of a value: whether it is undefined or
    null, whether it is an object, and its own properties. *)
Module Cases.

(** undefined or null: the values a property cannot be read from. *)
Definition nullish (v : jsval) : bool :=
  match v with JUndefined | JNull => true | _ => false end.

(** Objects and arrays: the values a property can be assigned on. *)
Definition is_object (v : jsval) : bool :=
  match v with JObj _ | JArr _ _ => true | _ => false end.

(** The own named properties of a value. *)
Definition own_props (v : jsval) : list (string * jsval) :=
  match v with JObj ps | JArr _ ps => ps | _ => [] end.

(** The own property [k] of [v], when there is one. *)
Definition own (v : jsval) (k : string) : option jsval := assoc k (own_props v).

(** [v.k] for a [v] that is not nullish. *)
Definition field (v : jsval) (k : string) : jsval := default JUndefined (own v k).

End Cases.

(* ================================================================== *)
(** * Keys that address the same record *)
(* ================================================================== *)

Module Keys.
Import Str Connector.

(** The key passes the two tests of [_getSegments] on its first
    element. *)
Definition passes (this : connector) (key : string) : bool :=
  negb (first_is (split key (_splitChar this)) "" ||
        first_is (split key (_splitChar this)) (_defaultLabel this)).

(** Two lists of elements, from position [i] on: as many elements, equal
    at odd positions, equal in upper case at even positions. *)
Fixpoint case_variants (i : nat) (segs segs' : list string) : bool :=
  match segs, segs' with
  | [], [] => true
  | s :: r, s' :: r' =>
      (if Nat.odd i then String.eqb s s'
       else String.eqb (toUpperCase s) (toUpperCase s'))
      && case_variants (S i) r r'
  | _, _ => false
  end.

End Keys.

(* ================================================================== *)
(** * connector.js: the operations with their handlers *)
(* ================================================================== *)

(** [session.run] returns a promise, and each operation attaches a
    handler for its result and one for its failure. What the engine
    answers is an input here, and so is [_.object] of the underscore
    library; the callback and [session.close] are taken not to throw. *)
Module Handlers.
Import Str Enum Connector Cases.

(** An argument of the callback: a value, or an exception that was
    caught. *)
Inductive arg : Type :=
| AVal (v : jsval)
| AExn (e : exn).

(** What an operation does, in order. *)
Inductive step : Type :=
| Sync (e : event)              (* console output, session(), run() *)
| Callback (args : list arg)    (* callback(args...) *)
| Close.                        (* session.close() *)

Definition H (A : Type) : Type := (list step * result A)%type.

Definition ret {A} (a : A) : H A := ([], Ok a).
Definition did (s : step) : H unit := ([s], Ok tt).
Definition lift {A} (r : result A) : H A := ([], r).

Definition bind {A B} (m : H A) (k : A -> H B) : H B :=
  match m with
  | (tr, Ok a) => let '(tr', r) := k a in ((tr ++ tr')%list, r)
  | (tr, Throw e) => (tr, Throw e)
  end.

Definition of_event (e : event) : step :=
  match e with
  | ECallback args => Callback (map AVal args)
  | _ => Sync e
  end.

(** A computation of the synchronous part. *)
Definition sync {A} (m : M A) : H A := (map of_event (fst m), snd m).

(** The promise [session.run] returns: fulfilled with a result, whose
    records are given as [record.toObject()] shows them, or rejected. *)
Inductive answer : Type :=
| Resolved (records : list jsval)
| Rejected (err : jsval).

Definition engine : Type := string -> option jsval -> answer.

(** [promise.then(on_result).catch(on_failure)]: the second handler also
    receives what the first one throws. *)
Definition then_catch (p : answer) (on_result : list jsval -> H unit)
                      (on_failure : arg -> H unit) : H unit :=
  match p with
  | Resolved records =>
      match on_result records with
      | (tr, Throw e) => let '(tr', r) := on_failure (AExn e) in ((tr ++ tr')%list, r)
      | done => done
      end
  | Rejected err => on_failure (AVal err)
  end.

(** [Object.keys(v)] *)
Definition object_keys (v : jsval) : result (list string) :=
  match v with
  | JUndefined | JNull => Throw TypeError
  | _ => Ok (for_in_keys v)
  end.

Section Operations.
Variable object_ : jsval -> jsval -> result jsval.   (* _.object(list, values) *)
Variable run : engine.
Variable this : connector.

Local Notation "x <- m ;; k" := (bind m (fun x => k))
  (at level 100, m at next level, right associativity).
Local Notation "m ;;; k" := (bind m (fun _ => k))
  (at level 100, right associativity).

Definition set (key : string) (value : jsval) : H unit :=
  match _getSegments this key with
  | None => did (Callback [AVal (invalid_key key)])
  | Some segments =>
      value <- sync (TransformData.transformValueForStorage value) ;;
      query <- sync (_getQuery SET segments (Some value)) ;;
      did (Sync ESession) ;;;
      did (Sync (ERun query (Some value))) ;;;
      then_catch (run query (Some value))
        (fun _ => did (Callback [AVal JNull]) ;;; did Close)
        (fun err => did (Callback [err]) ;;; did Close)
  end.

(** The handler of [get] for a result. *)
Definition on_get (records : list jsval) : H unit :=
  match records with
  | record :: _ =>
      value <- lift (get_prop record "value") ;;
      rel_keys <- lift (get_prop value "_rel_keys") ;;
      rel_vals <- lift (get_prop value "_rel_vals") ;;
      rels <- lift (object_ rel_keys rel_vals) ;;
      value <- lift (set_prop value "_rels" rels) ;;
      value <- lift (delete_prop value "_rel_keys") ;;
      value <- lift (delete_prop value "_rel_vals") ;;
      value <- sync (TransformData.transformValueFromStorage value) ;;
      value <- lift (delete_prop value "_key") ;;
      did (Sync (ELog value)) ;;;
      names <- lift (object_keys value) ;;
      (if Nat.eqb (List.length names) 0
       then did (Callback [AVal JNull; AVal JNull])
       else did (Callback [AVal JNull; AVal value])) ;;;
      did Close
  | [] =>
      did (Callback [AVal JNull; AVal JNull]) ;;;
      did Close
  end.

Definition get (key : string) : H unit :=
  match _getSegments this key with
  | None => did (Callback [AVal (invalid_key key)])
  | Some segments =>
      query <- sync (_getQuery GET segments None) ;;
      did (Sync ESession) ;;;
      did (Sync (ERun query None)) ;;;
      then_catch (run query None) on_get
        (fun err => did (Callback [err; AVal JNull]) ;;; did Close)
  end.

Definition delete (key : string) : H unit :=
  match _getSegments this key with
  | None => did (Callback [AVal (invalid_key key)])
  | Some segments =>
      query <- sync (_getQuery DELETE segments None) ;;
      did (Sync ESession) ;;;
      did (Sync (ERun query None)) ;;;
      then_catch (run query None)
        (fun _ => did (Callback [AVal JNull]) ;;; did Close)
        (fun err => did (Callback [err; AVal JNull]) ;;; did Close)
  end.

End Operations.

(** ** Counting what an operation did *)






(** ** What the engine answers to [get]

    A record as the RETURN clause of the GET query shapes it, seen
    through [record.toObject()]: under [value], the properties of the
    node [ds], those of the node [n], and the relations as two lists. *)
Definition returned (ds props : list (string * jsval)) (rel_keys rel_vals : jsval) : jsval :=
  JObj [("value",
         JObj [("__ds", JObj ds);
               ("_props", JObj props);
               ("_rel_keys", rel_keys);
               ("_rel_vals", rel_vals)])].

(** [_.object] on a list of names and a list of values of the same
    length, without a name twice: the object that pairs them. Used as
    the instance in examples. *)
Definition pair_up (names vals : jsval) : result jsval :=
  match names, vals with
  | JArr ns _, JArr vs _ =>
      Ok (JObj (omap (fun p => match fst p with JStr n => Some (n, snd p) | _ => None end)
                     (combine ns vs)))
  | _, _ => Ok (JObj [])
  end.

(** An engine that answers every query with the same records. *)
Definition answering (records : list jsval) : engine :=
  fun _ _ => Resolved records.

End Handlers.

(* ================================================================== *)
(** * src/connector.js, the earlier version *)
(* ================================================================== *)

(** The earlier connector keeps a third setting, [ds_key], reads the
    user name from the option [user], does not transform the value in
    [set], and builds its queries differently. [_getSegments] is the
    same function, so a connector is the later one plus [_ds_key]. *)
Module Legacy.
Import Str Enum.

Record options : Type := {
  connectionString : option string;
  user : option string;
  password : option string;
  splitChar : option string;
  defaultLabel : option string;
  ds_key : option string
}.

Record connector : Type := {
  base : Connector.connector;
  _ds_key : string
}.

Definition Connector (neo4j : Connector.driver_library) (opts : options) : M connector :=
  let this := {| base := {| Connector.isReady := false;
                            Connector._defaultLabel :=
                              Connector.or_else (defaultLabel opts) id "DS_SCHEMA";
                            Connector._splitChar :=
                              Connector.or_else (splitChar opts) Some None |};
                 _ds_key := Connector.or_else (ds_key opts) id "_ds_key" |} in
  if negb (Connector.given (connectionString opts)) then
    throw (Error "Missing setting 'connectionString'")
  else if negb (Connector.given (user opts)) then
    throw (Error "Missing setting 'user'")
  else if negb (Connector.given (password opts)) then
    throw (Error "Missing setting 'password'")
  else if String.eqb (_ds_key this) "id" then
    throw (Error "Cannot use the key 'id' as ds_key because it is used internally by neo4j")
  else
    let url := default "" (connectionString opts) in
    let usr := default "" (user opts) in
    let pass := default "" (password opts) in
    emit (EDriver url usr pass) ;;;
    match neo4j url usr pass with
    | Some e => throw e
    | None =>
        emit ESession ;;;
        emit (ERun "return 1" None) ;;;
        ret this
    end.

Definition _getSegments (this : connector) (key : string) : option (list string) :=
  Connector._getSegments (base this) key.

(** What a call ends with: a value, or the ReferenceError for a name
    that is not defined. *)
Inductive ended (A : Type) : Type :=
| Returned (a : A)
| NotDefined (name : string).
Arguments Returned {A} a.
Arguments NotDefined {A} name.

Definition verb (act : Connector.action) : string :=
  match act with Connector.SET => "MERGE" | _ => "MATCH" end.

(** The text added for one property name of the value, before the part
    that depends on the action. *)
Definition link (this : connector) (act : Connector.action) (key : string) : string :=
  " " ++ verb act ++ " (" ++ _ds_key this ++ "_n)-[" ++ key ++ "_r"
  ++ match act with Connector.SET => ":" ++ key | _ => "" end
  ++ "]->(" ++ key ++ "_m) " ++ nl ++ spaces 18
  ++ match act with Connector.SET => "ON CREATE SET" | _ => "WHERE" end
  ++ " " ++ key ++ "_r.ds_schema = true".

(** The loop [for (key in values)]: SET goes on to the next name, GET
    and DELETE leave the loop after the first. *)
Fixpoint each_key (this : connector) (act : Connector.action) (names : list string)
                  (query : string) : string :=
  match names with
  | [] => query
  | key :: rest =>
      let query := query ++ link this act key in
      match act with
      | Connector.SET => each_key this act rest (query ++ " SET " ++ key ++ "_m = $" ++ key)
      | Connector.GET =>
          query ++ " RETURN { keys: collect(type(" ++ key
                ++ "_r)), values: collect(properties(" ++ key ++ "_m))} AS value"
      | Connector.DELETE =>
          query ++ " DETACH DELETE " ++ _ds_key this ++ "_n," ++ key ++ "_m"
      end
  end.

(** The default of the parameter [values] stands in for an argument that
    is not passed or is undefined. *)
Definition or_default (values : option jsval) : jsval :=
  match values with
  | None | Some JUndefined => JObj [("default", JBool true)]
  | Some v => v
  end.

(** With three segments the template names [segements], which is not
    defined. *)
Definition _getQuery (this : connector) (act : Connector.action) (segments : list string)
                     (values : option jsval) : ended string :=
  let values := or_default values in
  if Nat.ltb (List.length segments) 3 then
    Returned (each_key this act (for_in_keys values)
                (verb act ++ " (" ++ _ds_key this ++ "_n:" ++ interpolate (segments !! 0%nat)
                 ++ " { " ++ _ds_key this ++ ": '" ++ interpolate (segments !! 1%nat) ++ "' })"))
  else if Nat.eqb (List.length segments) 3 then NotDefined "segements"
  else Returned "".

(** The synchronous part of the three operations; [values] is [None]
    when [set] is given undefined. *)
Definition set (this : connector) (key : string) (values : option jsval)
  : list event * ended unit :=
  match _getSegments this key with
  | None => ([ECallback [Connector.invalid_key key]], Returned tt)
  | Some segments =>
      match _getQuery this Connector.SET segments values with
      | Returned query => ([ESession; ERun query values], Returned tt)
      | NotDefined name => ([], NotDefined name)
      end
  end.

Definition get (this : connector) (key : string) : list event * ended unit :=
  match _getSegments this key with
  | None => ([ECallback [Connector.invalid_key key]], Returned tt)
  | Some segments =>
      match _getQuery this Connector.GET segments None with
      | Returned query => ([ESession; ERun query None], Returned tt)
      | NotDefined name => ([], NotDefined name)
      end
  end.

Definition delete (this : connector) (key : string) : list event * ended unit :=
  match _getSegments this key with
  | None => ([ECallback [Connector.invalid_key key]], Returned tt)
  | Some segments =>
      match _getQuery this Connector.DELETE segments None with
      | Returned query => ([ESession; ERun query None], Returned tt)
      | NotDefined name => ([], NotDefined name)
      end
  end.

(** The connector the settings of the test suite give. *)
Definition slash : connector :=
  {| base := Examples.slash; _ds_key := "_ds_key" |}.

End Legacy.

(* ================================================================== *)
(** * Properties of the value model *)
(* ================================================================== *)

Section JsvalInduction.
Variable P : jsval -> Prop.
Hypothesis Hundef : P JUndefined.
Hypothesis Hnull : P JNull.
Hypothesis Hbool : forall b, P (JBool b).
Hypothesis Hnum : forall n, P (JNum n).
Hypothesis Hstr : forall s, P (JStr s).
Hypothesis Harr : forall es ps,
    Forall P es -> Forall (fun p => P (snd p)) ps -> P (JArr es ps).
Hypothesis Hobj : forall ps, Forall (fun p => P (snd p)) ps -> P (JObj ps).

(** Induction that reaches the elements and properties. *)
Lemma jsval_nested_ind : forall v, P v.
Proof.
  fix IH 1. intros [ | | b | n | s | es ps | ps].
  - exact Hundef.
  - exact Hnull.
  - apply Hbool.
  - apply Hnum.
  - apply Hstr.
  - apply Harr.
    + induction es as [|e es IHes]; constructor; [apply IH | exact IHes].
    + induction ps as [|[k x] ps IHps]; constructor; [apply IH | exact IHps].
  - apply Hobj.
    induction ps as [|[k x] ps IHps]; constructor; [apply IH | exact IHps].
Qed.
End JsvalInduction.

Section Assoc.
Context {A : Type}.
Implicit Types (ps qs : list (string * A)) (k : string).

Lemma assoc_app k ps qs :
  assoc k (ps ++ qs)%list = match assoc k ps with Some x => Some x | None => assoc k qs end.
Proof.
  induction ps as [|[k' x] ps IH]; simpl; [reflexivity|].
  destruct (String.eqb k k'); [reflexivity | exact IH].
Qed.

Lemma assoc_remove_key_eq k ps : assoc k (remove_key k ps) = None.
Proof.
  induction ps as [|[k' x] ps IH]; simpl; [reflexivity|].
  destruct (String.eqb k k') eqn:E; [exact IH | simpl; rewrite E; exact IH].
Qed.

Lemma assoc_remove_key_ne k k' ps :
  k <> k' -> assoc k' (remove_key k ps) = assoc k' ps.
Proof.
  intros Hne. induction ps as [|[k0 x] ps IH]; simpl; [reflexivity|].
  destruct (String.eqb k k0) eqn:E.
  - apply String.eqb_eq in E. subst k0.
    destruct (String.eqb k' k) eqn:E'; [|exact IH].
    apply String.eqb_eq in E'. congruence.
  - simpl. destruct (String.eqb k' k0); [reflexivity | exact IH].
Qed.

Lemma remove_key_absent k ps : assoc k ps = None -> remove_key k ps = ps.
Proof.
  induction ps as [|[k' x] ps IH]; simpl; [reflexivity|].
  destruct (String.eqb k k'); [discriminate|]. intros H. f_equal. auto.
Qed.

Lemma put_key_absent k (v : A) ps :
  assoc k ps = None -> put_key k v ps = (ps ++ [(k, v)])%list.
Proof.
  induction ps as [|[k' x] ps IH]; simpl; [reflexivity|].
  destruct (String.eqb k k'); [discriminate|]. intros H. f_equal. auto.
Qed.

(** Assigning a property that is the last one replaces it in place. *)
Lemma put_key_last k (v w : A) ps :
  assoc k ps = None -> put_key k w (ps ++ [(k, v)])%list = (ps ++ [(k, w)])%list.
Proof.
  induction ps as [|[k' x] ps IH]; simpl.
  - rewrite String.eqb_refl. reflexivity.
  - destruct (String.eqb k k'); [discriminate|]. intros H. f_equal. auto.
Qed.

Lemma remove_key_last k (v : A) ps :
  assoc k ps = None -> remove_key k (ps ++ [(k, v)])%list = ps.
Proof.
  induction ps as [|[k' x] ps IH]; simpl.
  - rewrite String.eqb_refl. reflexivity.
  - destruct (String.eqb k k'); [discriminate|]. intros H. f_equal. auto.
Qed.

Lemma assoc_In k (x : A) ps : assoc k ps = Some x -> In (k, x) ps.
Proof.
  induction ps as [|[k' y] ps IH]; simpl; [discriminate|].
  destruct (String.eqb k k') eqn:E.
  - apply String.eqb_eq in E. intros [= ->]. left. congruence.
  - intros H. right. auto.
Qed.

Lemma assoc_None_not_In k (x : A) ps : assoc k ps = None -> ~ In (k, x) ps.
Proof.
  induction ps as [|[k' y] ps IH]; simpl; [tauto|].
  destruct (String.eqb k k') eqn:E; [discriminate|].
  intros H [Heq | Hin]; [|exact (IH H Hin)].
  injection Heq as -> _. rewrite String.eqb_refl in E. discriminate.
Qed.

Lemma distinct_In_assoc k (x : A) ps :
  distinct_keys ps = true -> In (k, x) ps -> assoc k ps = Some x.
Proof.
  induction ps as [|[k' y] ps IH]; simpl; [tauto|].
  destruct (assoc k' ps) eqn:Hk'; [discriminate|].
  intros Hd [Heq | Hin].
  - injection Heq as -> ->. rewrite String.eqb_refl. reflexivity.
  - destruct (String.eqb k k') eqn:E; [|auto].
    apply String.eqb_eq in E. subst k'.
    exfalso. exact (assoc_None_not_In _ _ _ Hk' Hin).
Qed.

Lemma In_remove_key k k' (x : A) ps :
  In (k', x) (remove_key k ps) -> In (k', x) ps /\ k' <> k.
Proof.
  induction ps as [|[k0 y] ps IH]; simpl; [tauto|].
  destruct (String.eqb k k0) eqn:E.
  - intros H. destruct (IH H). auto.
  - intros [Heq | Hin].
    + injection Heq as -> ->. split; [auto|].
      intros ->. rewrite String.eqb_refl in E. discriminate.
    + destruct (IH Hin). auto.
Qed.

Lemma distinct_remove_key k ps :
  distinct_keys ps = true -> distinct_keys (remove_key k ps) = true.
Proof.
  induction ps as [|[k' y] ps IH]; simpl; [reflexivity|].
  destruct (assoc k' ps) eqn:Hk'; [discriminate|]. intros Hd.
  destruct (String.eqb k k') eqn:E; [auto|]. simpl.
  rewrite assoc_remove_key_ne, Hk'; [auto|].
  intros ->. rewrite String.eqb_refl in E. discriminate.
Qed.

Lemma length_remove_key k (x : A) ps :
  distinct_keys ps = true -> assoc k ps = Some x ->
  S (List.length (remove_key k ps)) = List.length ps.
Proof.
  induction ps as [|[k' y] ps IH]; simpl; [discriminate|].
  destruct (assoc k' ps) eqn:Hk'; [discriminate|]. intros Hd.
  destruct (String.eqb k k') eqn:E.
  - apply String.eqb_eq in E. subst k'. intros _.
    rewrite remove_key_absent by exact Hk'. reflexivity.
  - intros H. simpl. f_equal. auto.
Qed.

Lemma forallb_remove_key (f : string * A -> bool) k ps :
  forallb f ps = true -> forallb f (remove_key k ps) = true.
Proof.
  induction ps as [|[k' y] ps IH]; simpl; [reflexivity|].
  intros [H1 H2]%andb_prop.
  destruct (String.eqb k k'); simpl; [auto|]. rewrite H1. auto.
Qed.

Lemma forallb_assoc (f : string * A -> bool) k (x : A) ps :
  forallb f ps = true -> assoc k ps = Some x -> f (k, x) = true.
Proof.
  intros Hf Hk. apply assoc_In in Hk.
  rewrite forallb_forall in Hf. exact (Hf _ Hk).
Qed.
End Assoc.

Section PropsMatch.
Context {A : Type} (f : A -> A -> bool).
Implicit Types (ps qs : list (string * A)) (k : string).

Lemma props_in_app ps qs rs :
  props_in f (ps ++ qs)%list rs = props_in f ps rs && props_in f qs rs.
Proof.
  induction ps as [|[k x] ps IH]; simpl; [reflexivity|].
  rewrite IH, andb_assoc. reflexivity.
Qed.

Lemma props_in_intro ps qs :
  (forall k x, In (k, x) ps -> exists y, assoc k qs = Some y /\ f x y = true) ->
  props_in f ps qs = true.
Proof.
  induction ps as [|[k x] ps IH]; simpl; [reflexivity|]. intros H.
  destruct (H k x) as (y & -> & ->); [auto|]. simpl. apply IH.
  intros k' x' Hin. apply H. auto.
Qed.

(** Taking a property out and adding it again at the end, with a value
    related to the old one, gives the same properties. *)
Lemma props_match_readd k (x y : A) ps :
  distinct_keys ps = true ->
  assoc k ps = Some y ->
  f x y = true ->
  (forall k' z, In (k', z) ps -> f z z = true) ->
  props_match f (remove_key k ps ++ [(k, x)])%list ps = true.
Proof.
  intros Hd Hk Hxy Hrefl. unfold props_match.
  pose proof (length_remove_key _ _ _ Hd Hk) as Hlen.
  rewrite length_app. simpl List.length.
  replace (List.length (remove_key k ps) + 1) with (List.length ps) by lia.
  rewrite Nat.eqb_refl. simpl.
  rewrite props_in_app. simpl. rewrite Hk, Hxy. simpl.
  rewrite andb_true_r. apply props_in_intro.
  intros k' z [Hin Hne]%In_remove_key. exists z. split.
  - apply distinct_In_assoc; assumption.
  - exact (Hrefl _ _ Hin).
Qed.

Lemma props_match_refl ps :
  distinct_keys ps = true ->
  (forall k z, In (k, z) ps -> f z z = true) ->
  props_match f ps ps = true.
Proof.
  intros Hd Hrefl. unfold props_match. rewrite Nat.eqb_refl. simpl.
  apply props_in_intro. intros k z Hin. exists z. split.
  - apply distinct_In_assoc; assumption.
  - exact (Hrefl _ _ Hin).
Qed.

Lemma forall2b_refl (l : list A) :
  (forall z, In z l -> f z z = true) -> forall2b f l l = true.
Proof.
  induction l as [|a l IH]; simpl; [reflexivity|]. intros H.
  rewrite (H a) by auto. simpl. apply IH. auto.
Qed.
End PropsMatch.

Lemma bind_lift_ok {A B} (a : A) (k : A -> M B) : bind (lift (Ok a)) k = k a.
Proof. unfold bind, lift. destruct (k a). reflexivity. Qed.

Lemma bind_ret {A B} (a : A) (k : A -> M B) : bind (ret a) k = k a.
Proof. exact (bind_lift_ok a k). Qed.

Lemma bind_lift_throw {A B} (e : exn) (k : A -> M B) :
  bind (lift (Throw e)) k = ([], Throw e).
Proof. reflexivity. Qed.

Lemma bind_emit {B} (e : event) (k : unit -> M B) :
  bind (emit e) k = (e :: trace (k tt), outcome (k tt)).
Proof. unfold bind, emit, trace, outcome. destruct (k tt). reflexivity. Qed.

(** One step of a computation whose next operation is known. *)
Ltac run_js :=
  repeat (cbn [get_prop set_prop delete_prop is_array truthy negb app
               assoc remove_key String.eqb Ascii.eqb Bool.eqb
               default from_option id];
          first [rewrite bind_lift_ok | rewrite bind_ret | rewrite bind_emit]).

Lemma forallb_weaken {A} (f g : A -> bool) (l : list A) :
  (forall x, f x = true -> g x = true) -> forallb f l = true -> forallb g l = true.
Proof.
  intros H. induction l as [|a l IH]; simpl; [reflexivity|].
  intros [H1 H2]%andb_prop. rewrite (H _ H1). auto.
Qed.

(** ** JSON values survive the JSON round trip *)

Lemma clone_val_obj ps : clone_val (JObj ps) = JObj (clone_props ps).
Proof. reflexivity. Qed.

Lemma clone_props_app ps qs :
  clone_props (ps ++ qs)%list = (clone_props ps ++ clone_props qs)%list.
Proof.
  induction ps as [|[k x] ps IH]; simpl; [reflexivity|].
  destruct x; simpl; rewrite IH; reflexivity.
Qed.

Lemma clone_json v : is_json v = true -> clone_val v = v.
Proof.
  induction v as [ | | b | n | s | es ps IHes _ | ps IHps] using jsval_nested_ind;
    try reflexivity.
  - discriminate.
  - destruct n; [reflexivity | discriminate..].
  - simpl. intros [Hes Hps]%andb_prop. destruct ps; [|discriminate].
    f_equal. induction IHes as [|e es He _ IH]; simpl; [reflexivity|].
    simpl in Hes. apply andb_prop in Hes as [H1 H2]. rewrite He, IH; auto.
  - rewrite clone_val_obj. simpl. intros [_ Hps]%andb_prop. f_equal.
    induction IHps as [|[k x] ps Hx _ IH]; simpl; [reflexivity|].
    simpl in Hps, Hx. apply andb_prop in Hps as [H1 H2].
    rewrite (Hx H1), (IH H2). destruct x; try reflexivity. discriminate.
Qed.

Lemma clone_props_json ps :
  forallb (fun p => is_json (snd p)) ps = true -> clone_props ps = ps.
Proof.
  induction ps as [|[k x] ps IH]; simpl; [reflexivity|].
  intros [H1 H2]%andb_prop. rewrite (clone_json _ H1), (IH H2).
  destruct x; try reflexivity. discriminate.
Qed.

Lemma json_clone_json v : is_json v = true -> json_clone v = Ok v.
Proof.
  intros H. unfold json_clone. rewrite (clone_json _ H).
  destruct v; try reflexivity. discriminate.
Qed.

Lemma deep_eqb_obj ps qs : deep_eqb (JObj ps) (JObj qs) = props_match deep_eqb ps qs.
Proof. reflexivity. Qed.

(** Deep equality is reflexive on JSON values. *)
Lemma deep_eqb_refl v : is_json v = true -> deep_eqb v v = true.
Proof.
  induction v as [ | | b | n | s | es ps IHes _ | ps IHps] using jsval_nested_ind;
    try reflexivity.
  - intros _. simpl. destruct b; reflexivity.
  - intros _. destruct n as [z| | |neg]; simpl; try reflexivity;
      [apply Z.eqb_refl | destruct neg; reflexivity].
  - intros _. simpl. apply String.eqb_refl.
  - simpl. intros [Hes Hps]%andb_prop. destruct ps; [|discriminate].
    rewrite andb_true_r. apply forall2b_refl. intros z Hz.
    rewrite Forall_forall in IHes. apply IHes; [apply list_elem_of_In; exact Hz|].
    rewrite forallb_forall in Hes. auto.
  - rewrite deep_eqb_obj. simpl. intros [Hd Hps]%andb_prop.
    apply props_match_refl; [exact Hd|]. intros k z Hin.
    rewrite Forall_forall in IHps.
    apply (IHps (k, z)); [apply list_elem_of_In; exact Hin|].
    rewrite forallb_forall in Hps. exact (Hps _ Hin).
Qed.

(* ================================================================== *)
(** * The value transform *)
(* ================================================================== *)

Section Transform.
Import TransformData Shape.

Variables flds : list (string * jsval).
Hypothesis Hjson : is_json (JObj flds) = true.

Lemma flds_distinct : distinct_keys flds = true.
Proof. simpl in Hjson. apply andb_prop in Hjson. tauto. Qed.

Lemma flds_json : forallb (fun p => is_json (snd p)) flds = true.
Proof. simpl in Hjson. apply andb_prop in Hjson. tauto. Qed.

Lemma metadata_json : is_json (metadata flds) = true.
Proof.
  unfold metadata. simpl.
  rewrite distinct_remove_key by exact flds_distinct.
  rewrite forallb_remove_key by exact flds_json. reflexivity.
Qed.

Lemma payload_is_json d : assoc "_d" flds = Some d -> is_json d = true.
Proof. intros H. exact (forallb_assoc _ _ _ _ flds_json H). Qed.

(** *** List form *)

Lemma forStorage_list es :
  assoc "_d" flds = Some (JArr es []) ->
  transformValueForStorage (JObj flds) = ([], Ok (list_storage flds (JArr es []))).
Proof.
  intros Hd. unfold transformValueForStorage.
  rewrite (json_clone_json _ Hjson), bind_lift_ok.
  cbn [get_prop]. rewrite Hd. cbn [default from_option id].
  rewrite bind_lift_ok. cbn [delete_prop]. rewrite bind_lift_ok.
  reflexivity.
Qed.

Lemma fromStorage_list es :
  assoc "_d" flds = Some (JArr es []) ->
  transformValueFromStorage (list_storage flds (JArr es []))
  = ([], Ok (restored_list flds (JArr es []))).
Proof.
  intros Hd. unfold transformValueFromStorage.
  assert (Hs : is_json (list_storage flds (JArr es [])) = true).
  { unfold list_storage. cbn [is_json distinct_keys assoc String.eqb Ascii.eqb Bool.eqb forallb snd].
    pose proof (payload_is_json _ Hd) as Hp. cbn [is_json] in Hp.
    rewrite metadata_json, Hp. reflexivity. }
  rewrite (json_clone_json _ Hs), bind_lift_ok.
  unfold list_storage, metadata, restored_list. cbn.
  rewrite put_key_absent by apply assoc_remove_key_eq. reflexivity.
Qed.

(** *** Object form *)

Variable dps : list (string * jsval).
Hypothesis Hd : assoc "_d" flds = Some (JObj dps).

Lemma dps_distinct : distinct_keys dps = true.
Proof.
  pose proof (payload_is_json _ Hd) as H. simpl in H.
  apply andb_prop in H. tauto.
Qed.

Lemma dps_json : forallb (fun p => is_json (snd p)) dps = true.
Proof.
  pose proof (payload_is_json _ Hd) as H. simpl in H.
  apply andb_prop in H. tauto.
Qed.

Lemma props_json : is_json (JObj (remove_key "_rels" dps)) = true.
Proof.
  simpl. rewrite distinct_remove_key by exact dps_distinct.
  rewrite forallb_remove_key by exact dps_json. reflexivity.
Qed.

Lemma forStorage_object :
  transformValueForStorage (JObj flds)
  = ([ELog (object_storage flds dps)], Ok (object_storage flds dps)).
Proof.
  unfold transformValueForStorage.
  rewrite (json_clone_json _ Hjson), bind_lift_ok.
  cbn [get_prop]. rewrite Hd. cbn [default from_option id].
  rewrite bind_lift_ok. cbn [delete_prop]. rewrite bind_lift_ok.
  cbn [is_array get_prop delete_prop]. rewrite !bind_lift_ok.
  rewrite bind_emit. reflexivity.
Qed.

Lemma clone_object_storage :
  json_clone (object_storage flds dps)
  = Ok (JObj (("_props", JObj (remove_key "_rels" dps))
              :: match assoc "_rels" dps with
                 | Some r => [("_rels", r)]
                 | None => []
                 end ++ [("__ds", metadata flds)])%list).
Proof.
  unfold json_clone, object_storage. f_equal.
  rewrite clone_val_obj. f_equal. cbn [clone_props].
  rewrite (clone_json _ props_json), (clone_json _ metadata_json).
  destruct (assoc "_rels" dps) as [r|] eqn:Hr; cbn [default from_option id].
  - rewrite (clone_json r) by exact (forallb_assoc _ _ _ _ dps_json Hr).
    pose proof (forallb_assoc _ _ _ _ dps_json Hr) as Hj. simpl in Hj.
    destruct r; try reflexivity. discriminate.
  - reflexivity.
Qed.

Lemma fromStorage_object :
  transformValueFromStorage (object_storage flds dps)
  = ([], Ok (restored_object flds dps)).
Proof.
  unfold transformValueFromStorage.
  rewrite clone_object_storage, bind_lift_ok.
  unfold restored_object, metadata.
  destruct (assoc "_rels" dps) as [r|] eqn:Hr; run_js;
    rewrite put_key_absent by apply assoc_remove_key_eq; run_js;
    rewrite assoc_app, assoc_remove_key_eq; run_js;
    rewrite put_key_last by apply assoc_remove_key_eq;
    rewrite (put_key_absent "_rels") by apply assoc_remove_key_eq;
    reflexivity.
Qed.

Lemma flds_refl k z : In (k, z) flds -> deep_eqb z z = true.
Proof.
  intros Hin. apply deep_eqb_refl.
  pose proof flds_json as H. rewrite forallb_forall in H. exact (H _ Hin).
Qed.

Lemma dps_refl k z : In (k, z) dps -> deep_eqb z z = true.
Proof.
  intros Hin. apply deep_eqb_refl.
  pose proof dps_json as H. rewrite forallb_forall in H. exact (H _ Hin).
Qed.

(** With [_rels] present the restored value has the properties of the
    original, in another order. *)
Lemma restored_object_equal r :
  assoc "_rels" dps = Some r ->
  deep_eqb (restored_object flds dps) (JObj flds) = true.
Proof.
  intros Hr. unfold restored_object. rewrite Hr. cbn [default from_option id].
  rewrite deep_eqb_obj.
  apply props_match_readd with (y := JObj dps);
    [exact flds_distinct | exact Hd | | exact flds_refl].
  rewrite deep_eqb_obj.
  apply props_match_readd with (y := r);
    [exact dps_distinct | exact Hr | | exact dps_refl].
  exact (dps_refl _ _ (assoc_In _ _ _ Hr)).
Qed.

(** What is left of the restored value after a JSON round trip: the
    property [_rels] is there only when it had a value. *)
Lemma clone_restored_object :
  json_clone (restored_object flds dps)
  = Ok (JObj (remove_key "_d" flds ++
              [("_d", JObj (remove_key "_rels" dps ++
                            match assoc "_rels" dps with
                            | Some r => [("_rels", r)]
                            | None => []
                            end)%list)])%list).
Proof.
  unfold json_clone, restored_object. f_equal.
  rewrite clone_val_obj, clone_props_app. f_equal. f_equal.
  - apply clone_props_json. apply forallb_remove_key. exact flds_json.
  - cbn [clone_props]. rewrite clone_val_obj, clone_props_app.
    rewrite (clone_props_json (remove_key "_rels" dps))
      by (apply forallb_remove_key; exact dps_json).
    destruct (assoc "_rels" dps) as [r|] eqn:Hr; cbn [default from_option id].
    + pose proof (forallb_assoc _ _ _ _ dps_json Hr) as Hj. simpl in Hj.
      cbn [clone_props]. rewrite (clone_json r Hj).
      destruct r; try reflexivity. discriminate.
    + reflexivity.
Qed.

Lemma cloned_restored_object_equal v :
  json_clone (restored_object flds dps) = Ok v -> deep_eqb v (JObj flds) = true.
Proof.
  rewrite clone_restored_object. intros [= <-]. rewrite deep_eqb_obj.
  apply props_match_readd with (y := JObj dps);
    [exact flds_distinct | exact Hd | | exact flds_refl].
  rewrite deep_eqb_obj.
  destruct (assoc "_rels" dps) as [r|] eqn:Hr.
  - apply props_match_readd with (y := r);
      [exact dps_distinct | exact Hr | | exact dps_refl].
    exact (dps_refl _ _ (assoc_In _ _ _ Hr)).
  - rewrite app_nil_r, (remove_key_absent _ _ Hr).
    apply props_match_refl; [exact dps_distinct | exact dps_refl].
Qed.

(** The forward transform of the restored value is the storage value
    again. *)
Lemma forStorage_restored_object :
  outcome (transformValueForStorage (restored_object flds dps))
  = Ok (object_storage flds dps).
Proof.
  unfold transformValueForStorage.
  rewrite clone_restored_object. run_js.
  rewrite assoc_app, assoc_remove_key_eq. run_js.
  rewrite remove_key_last by apply assoc_remove_key_eq.
  rewrite assoc_app, assoc_remove_key_eq.
  unfold object_storage, metadata.
  destruct (assoc "_rels" dps) as [r|] eqn:Hr; run_js.
  - rewrite remove_key_last by apply assoc_remove_key_eq. reflexivity.
  - rewrite app_nil_r.
    rewrite (remove_key_absent "_rels" (remove_key "_rels" dps))
      by apply assoc_remove_key_eq.
    reflexivity.
Qed.
End Transform.

Section TransformList.
Import TransformData Shape.

Variables (flds : list (string * jsval)) (es : list jsval).
Hypothesis Hjson : is_json (JObj flds) = true.
Hypothesis Hd : assoc "_d" flds = Some (JArr es []).

Lemma restored_list_equal :
  deep_eqb (restored_list flds (JArr es [])) (JObj flds) = true.
Proof.
  unfold restored_list. rewrite deep_eqb_obj.
  apply props_match_readd with (y := JArr es []);
    [exact (flds_distinct _ Hjson) | exact Hd | | exact (flds_refl _ Hjson)].
  exact (flds_refl _ Hjson _ _ (assoc_In _ _ _ Hd)).
Qed.

Lemma clone_restored_list :
  json_clone (restored_list flds (JArr es [])) = Ok (restored_list flds (JArr es [])).
Proof.
  unfold json_clone, restored_list. f_equal.
  rewrite clone_val_obj, clone_props_app. f_equal. f_equal.
  - apply clone_props_json. apply forallb_remove_key. exact (flds_json _ Hjson).
  - cbn [clone_props]. rewrite (clone_json (JArr es [])); [reflexivity|].
    exact (payload_is_json _ Hjson _ Hd).
Qed.

Lemma forStorage_restored_list :
  outcome (transformValueForStorage (restored_list flds (JArr es [])))
  = Ok (list_storage flds (JArr es [])).
Proof.
  unfold transformValueForStorage.
  rewrite clone_restored_list. unfold restored_list. run_js.
  rewrite assoc_app, assoc_remove_key_eq. run_js.
  rewrite remove_key_last by apply assoc_remove_key_eq. reflexivity.
Qed.
End TransformList.

Section RoundTrip.
Import TransformData Shape Examples.

(** A well-formed external value is an object with a payload in one of
    the two forms. *)
Lemma well_formed_inv v :
  well_formed_external v = true ->
  exists flds d,
    v = JObj flds /\ assoc "_d" flds = Some d /\
    ((exists es, d = JArr es []) \/ (exists dps, d = JObj dps)).
Proof.
  intros Hwf.
  destruct v as [ | | | | | | flds]; try discriminate.
  simpl in Hwf. apply andb_prop in Hwf as [Hwf _].
  apply andb_prop in Hwf as [_ Hp].
  destruct (assoc "_d" flds) as [d|] eqn:Hd; [|discriminate].
  exists flds, d. repeat split; try assumption.
  apply orb_prop in Hp as [Hp | Hp].
  - left. destruct d as [ | | | | | es [|] | ]; try discriminate. eauto.
  - right. destruct d; try discriminate. eauto.
Qed.

(** C1 (as amended). For every well-formed external value [v] that is
    a JSON value (its numbers are finite and none is -0) the forward
    transform returns a storage value [s] and the backward transform of
    [s] returns a value [r] such that: [r] deep-equals [v] when [v] is
    in list form or its payload has a [_rels] property; [r] deep-equals
    [v] after a JSON round trip in every case; and the forward
    transform of [r] is [s] again. *)
Theorem transform_round_trip v :
  well_formed_external v = true ->
  is_json v = true ->
  exists s r,
    outcome (transformValueForStorage v) = Ok s /\
    outcome (transformValueFromStorage s) = Ok r /\
    (is_list_payload (payload v) || has_rels v = true -> deep_eqb r v = true) /\
    (exists r', json_clone r = Ok r' /\ deep_eqb r' v = true) /\
    outcome (transformValueForStorage r) = Ok s.
Proof.
  intros Hwf Hj.
  destruct (well_formed_inv v Hwf) as (flds & d & -> & Hd & [[es ->] | [dps ->]]).
  - exists (list_storage flds (JArr es [])), (restored_list flds (JArr es [])).
    rewrite (forStorage_list flds Hj es Hd), (fromStorage_list flds Hj es Hd).
    repeat split.
    + intros _. exact (restored_list_equal flds es Hj Hd).
    + exists (restored_list flds (JArr es [])). split.
      * exact (clone_restored_list flds es Hj Hd).
      * exact (restored_list_equal flds es Hj Hd).
    + exact (forStorage_restored_list flds es Hj Hd).
  - exists (object_storage flds dps), (restored_object flds dps).
    rewrite (forStorage_object flds Hj dps Hd), (fromStorage_object flds Hj dps Hd).
    repeat split.
    + unfold has_rels, payload. rewrite Hd. cbn [default from_option id is_list_payload orb].
      destruct (assoc "_rels" dps) as [r|] eqn:Hr; [|discriminate].
      intros _. exact (restored_object_equal flds Hj dps Hd r Hr).
    + destruct (json_clone (restored_object flds dps)) as [r'|e] eqn:Hc.
      * exists r'. split; [reflexivity|].
        exact (cloned_restored_object_equal flds Hj dps Hd r' Hc).
      * rewrite (clone_restored_object flds Hj dps Hd) in Hc. discriminate.
    + exact (forStorage_restored_object flds Hj dps Hd).
Qed.

(** The test suite's record, with [_rels], goes round unchanged. *)
Lemma transform_round_trip_john :
  well_formed_external john = true /\
  is_json john = true /\
  exists s r,
    outcome (transformValueForStorage john) = Ok s /\
    outcome (transformValueFromStorage s) = Ok r /\
    (is_list_payload (payload john) || has_rels john = true -> deep_eqb r john = true) /\
    (exists r', json_clone r = Ok r' /\ deep_eqb r' john = true) /\
    outcome (transformValueForStorage r) = Ok s.
Proof.
  split; [reflexivity|]. split; [reflexivity|].
  exact (transform_round_trip john eq_refl eq_refl).
Defined.

(** C1 fails as stated: an object payload without [_rels] comes back
    with an own property [_rels] whose value is undefined. *)
Lemma round_trip_adds_undefined_rels :
  well_formed_external plain = true /\
  exists s,
    outcome (transformValueForStorage plain) = Ok s /\
    outcome (transformValueFromStorage s) = Ok plain_restored /\
    deep_eqb plain_restored plain = false.
Proof.
  split; [reflexivity|].
  eexists. split; [reflexivity|]. split; reflexivity.
Qed.

(** A number that JSON does not keep does not come back: the list that
    holds -0 comes back holding 0. *)
Remark round_trip_loses_negative_zero :
  well_formed_external minus_zero = true /\
  is_json minus_zero = false /\
  exists s r,
    outcome (transformValueForStorage minus_zero) = Ok s /\
    outcome (transformValueFromStorage s) = Ok r /\
    payload r = JArr [JNum 0] [] /\
    deep_eqb r minus_zero = false.
Proof.
  split; [reflexivity|]. split; [reflexivity|].
  eexists _, _. split; [reflexivity|]. split; [reflexivity|]. split; reflexivity.
Qed.
End RoundTrip.

Section AbsentInput.
Import TransformData.

Lemma assoc_clone_props_None k ps :
  assoc k ps = None -> assoc k (clone_props ps) = None.
Proof.
  induction ps as [|[k' x] ps IH]; simpl; [reflexivity|].
  destruct (String.eqb k k') eqn:E; [discriminate|]. intros H.
  destruct x; simpl; rewrite ?E; auto.
Qed.

(** C5 (as amended). The backward transform of null is undefined, the
    "no value" result; the backward transform of an object that has no
    [__ds] property, the object with no fields among them, throws a
    TypeError. *)
Theorem fromStorage_absent_input :
  transformValueFromStorage JNull = ([], Ok JUndefined) /\
  forall ps, assoc "__ds" ps = None ->
             transformValueFromStorage (JObj ps) = ([], Throw TypeError).
Proof.
  split; [reflexivity|]. intros ps Hds.
  unfold transformValueFromStorage, json_clone.
  rewrite clone_val_obj. run_js.
  rewrite (assoc_clone_props_None _ _ Hds). run_js.
  destruct (assoc "__dsList" (remove_key "__ds" (clone_props ps))) as [l|];
    cbn [default from_option id].
  - destruct l; run_js; reflexivity.
  - run_js. reflexivity.
Qed.

Lemma fromStorage_absent_input_empty :
  assoc "__ds" ([] : list (string * jsval)) = None /\
  transformValueFromStorage (JObj []) = ([], Throw TypeError).
Proof.
  split; [reflexivity | exact (proj2 fromStorage_absent_input [] eq_refl)].
Defined.

(** C5 fails as stated: on the object with no fields the backward
    transform throws. *)
Lemma fromStorage_empty_object_throws :
  outcome (transformValueFromStorage (JObj [])) = Throw TypeError.
Proof. reflexivity. Qed.

(** On undefined the copy itself fails, before the test for an absent
    value is reached. *)
Remark fromStorage_undefined_throws :
  outcome (transformValueFromStorage JUndefined) = Throw SyntaxError.
Proof. reflexivity. Qed.
End AbsentInput.

(* ================================================================== *)
(** * Key segmentation *)
(* ================================================================== *)

Section Segments.
Import Str Connector Examples.

Lemma normalize_from_lookup segs : forall j i s,
  segs !! i = Some s ->
  normalize_from j segs !! i = Some (if Nat.odd (j + i) then s else toUpperCase s).
Proof.
  induction segs as [|a segs IH]; intros j i s; [discriminate|].
  destruct i as [|i]; simpl.
  - intros [= ->]. rewrite Nat.add_0_r. reflexivity.
  - intros H. rewrite (IH (S j) i s H). rewrite Nat.add_succ_r. reflexivity.
Qed.

Lemma normalize_from_length segs : forall j,
  List.length (normalize_from j segs) = List.length segs.
Proof. induction segs as [|a segs IH]; intros j; simpl; [reflexivity|]. rewrite IH. reflexivity. Qed.

(** What the segmenter returns once the first element has passed the
    two tests. *)
Lemma getSegments_valid this key :
  first_is (split key (_splitChar this)) "" = false ->
  first_is (split key (_splitChar this)) (_defaultLabel this) = false ->
  _getSegments this key =
    Some match split key (_splitChar this) with
         | [s] => [_defaultLabel this ++ ":" ++ toUpperCase s]
         | segs => normalize_from 0 segs
         end.
Proof.
  intros H1 H2. unfold _getSegments. rewrite H1, H2. simpl.
  destruct (split key (_splitChar this)) as [|s [|s' r]]; reflexivity.
Qed.

Lemma getSegments_invalid this key :
  first_is (split key (_splitChar this)) "" || first_is (split key (_splitChar this)) (_defaultLabel this) = true ->
  _getSegments this key = None.
Proof. intros H. unfold _getSegments. rewrite H. reflexivity. Qed.

(** C2. For a key that passes the two tests on its first element: when
    the split gives exactly one element [s] the result is
    ["{defaultLabel}:{S}"] with [S] the element in upper case;
    otherwise the result has as many elements as the split, upper-cased
    at every even index and unchanged at every odd index. With the
    separator "/" and the default label DS_SCHEMA, "a/b/c" yields
    [A, b, C], "users/a" yields [USERS, a] and "bla" yields
    [DS_SCHEMA:BLA]. *)
Theorem getSegments_normalizes :
  (forall this key segs,
      split key (_splitChar this) = segs ->
      first_is segs "" = false ->
      first_is segs (_defaultLabel this) = false ->
      exists out,
        _getSegments this key = Some out /\
        List.length out = List.length segs /\
        (forall s, segs = [s] -> out = [_defaultLabel this ++ ":" ++ toUpperCase s]) /\
        (List.length segs <> 1 ->
         forall i s, segs !! i = Some s ->
                     out !! i = Some (if Nat.even i then toUpperCase s else s))) /\
  _getSegments slash "a/b/c" = Some ["A"; "b"; "C"] /\
  _getSegments slash "users/a" = Some ["USERS"; "a"] /\
  _getSegments slash "bla" = Some ["DS_SCHEMA:BLA"].
Proof.
  split; [|repeat split; reflexivity].
  intros this key segs Hsplit H1 H2. subst segs.
  rewrite (getSegments_valid this key H1 H2).
  destruct (split key (_splitChar this)) as [|s [|s' r]] eqn:Hs.
  - exists []. repeat split; try reflexivity; [discriminate|].
    intros _ i s H. destruct i; discriminate.
  - eexists. repeat split; try reflexivity.
    + intros s0 [= ->]. reflexivity.
    + simpl. congruence.
  - eexists. repeat split; try reflexivity.
    + apply normalize_from_length.
    + discriminate.
    + intros _ i s0 H. rewrite (normalize_from_lookup _ 0 i s0 H). simpl.
      rewrite <- Nat.negb_even. destruct (Nat.even i); reflexivity.
Qed.

Lemma getSegments_normalizes_users :
  split "users/a" (_splitChar slash) = ["users"; "a"] /\
  exists out,
    _getSegments slash "users/a" = Some out /\
    List.length out = 2 /\
    (forall s, ["users"; "a"] = [s] -> out = [_defaultLabel slash ++ ":" ++ toUpperCase s]) /\
    (2 <> 1 ->
     forall i s, ["users"; "a"] !! i = Some s ->
                 out !! i = Some (if Nat.even i then toUpperCase s else s)).
Proof.
  split; [reflexivity|].
  exact (proj1 getSegments_normalizes slash "users/a" ["users"; "a"]
               eq_refl eq_refl eq_refl).
Defined.
End Segments.

Section InvalidKeys.
Import Str Connector Examples.

(** C3. When the first element of the split key is empty or is the
    default label, the segmenter returns null, and [set], [get] and
    [delete] each do one thing only: call the callback with the string
    "Invalid key {key}". No query is built or logged, no session is
    opened, nothing is run. *)
Theorem invalid_key_rejected this key s :
  head (split key (_splitChar this)) = Some s ->
  s = "" \/ s = _defaultLabel this ->
  _getSegments this key = None /\
  (forall value, set this key value = ([ECallback [JStr ("Invalid key " ++ key)]], Ok tt)) /\
  get this key = ([ECallback [JStr ("Invalid key " ++ key)]], Ok tt) /\
  delete this key = ([ECallback [JStr ("Invalid key " ++ key)]], Ok tt).
Proof.
  intros Hhd Hs.
  assert (Hnone : _getSegments this key = None).
  { apply getSegments_invalid.
    destruct (split key (_splitChar this)) as [|s0 r]; [discriminate|].
    injection Hhd as ->. simpl.
    destruct Hs as [-> | ->]; rewrite String.eqb_refl;
      [reflexivity | apply orb_true_r]. }
  unfold set, get, delete. rewrite Hnone. repeat split.
Qed.

Lemma invalid_key_rejected_leading_slash :
  head (split "/a/b/c" (_splitChar slash)) = Some "" /\
  _getSegments slash "/a/b/c" = None /\
  (forall value, set slash "/a/b/c" value = ([ECallback [JStr "Invalid key /a/b/c"]], Ok tt)) /\
  get slash "/a/b/c" = ([ECallback [JStr "Invalid key /a/b/c"]], Ok tt) /\
  delete slash "/a/b/c" = ([ECallback [JStr "Invalid key /a/b/c"]], Ok tt).
Proof.
  split; [reflexivity|].
  exact (invalid_key_rejected slash "/a/b/c" "" eq_refl (or_introl eq_refl)).
Defined.

(** C10. The test against the default label compares the first element
    as it was typed, before any change of case. A first element that is
    not the default label but becomes it in upper case is accepted, and
    the first segment is then the default label itself (or, for a key
    of one element, "{defaultLabel}:{defaultLabel}"). With the default
    label DS_SCHEMA: "DS_SCHEMA/x" is rejected, "ds_schema/x" yields
    [DS_SCHEMA, x] and "ds_schema" yields [DS_SCHEMA:DS_SCHEMA]. *)
Theorem default_label_test_is_case_sensitive :
  (forall this key s rest,
      split key (_splitChar this) = s :: rest ->
      s <> "" ->
      s <> _defaultLabel this ->
      toUpperCase s = _defaultLabel this ->
      _getSegments this key =
        Some match rest with
             | [] => [_defaultLabel this ++ ":" ++ _defaultLabel this]
             | _ => _defaultLabel this :: normalize_from 1 rest
             end) /\
  _getSegments slash "DS_SCHEMA/x" = None /\
  _getSegments slash "ds_schema/x" = Some ["DS_SCHEMA"; "x"] /\
  _getSegments slash "ds_schema" = Some ["DS_SCHEMA:DS_SCHEMA"].
Proof.
  split; [|repeat split; reflexivity].
  intros this key s rest Hsplit Hne Hnd Hup.
  rewrite getSegments_valid; rewrite Hsplit; simpl.
  - rewrite Hup. destruct rest; reflexivity.
  - apply String.eqb_neq. exact Hne.
  - apply String.eqb_neq. exact Hnd.
Qed.

Lemma default_label_test_lower_case :
  split "ds_schema/x" (_splitChar slash) = ["ds_schema"; "x"] /\
  "ds_schema" <> "" /\
  "ds_schema" <> _defaultLabel slash /\
  toUpperCase "ds_schema" = _defaultLabel slash /\
  _getSegments slash "ds_schema/x" = Some ["DS_SCHEMA"; "x"].
Proof.
  assert (H1 : "ds_schema" <> "") by discriminate.
  assert (H2 : "ds_schema" <> _defaultLabel slash) by discriminate.
  split; [reflexivity|]. split; [exact H1|]. split; [exact H2|].
  split; [reflexivity|].
  exact (proj1 default_label_test_is_case_sensitive slash "ds_schema/x"
               "ds_schema" ["x"] eq_refl H1 H2 eq_refl).
Defined.
End InvalidKeys.

Section UnsetSeparator.
Import Str Connector Examples.

Lemma append_assoc (a b c : string) : (a ++ b) ++ c = a ++ (b ++ c).
Proof. induction a as [|x a IH]; simpl; [reflexivity|]. rewrite IH. reflexivity. Qed.

Lemma append_empty_r (a : string) : a ++ "" = a.
Proof. induction a as [|x a IH]; simpl; [reflexivity|]. rewrite IH. reflexivity. Qed.

(** A text in which the separator does not occur is one element. *)
Lemma split_from_absent sep s : forall cur,
  contains sep s = false -> split_from sep 0 cur s = [cur ++ s].
Proof.
  induction s as [|c r IH]; intros cur H.
  - simpl. rewrite append_empty_r. reflexivity.
  - cbn [contains] in H. apply orb_false_elim in H as [Hp Hr].
    cbn [split_from]. rewrite Hp. rewrite (IH _ Hr), append_assoc. reflexivity.
Qed.

(** The connector the constructor returns, when it returns one. *)
Lemma Connector_inv neo4j opts this :
  outcome (Connector neo4j opts) = Ok this ->
  this = {| isReady := false;
            _defaultLabel := or_else (defaultLabel opts) id "DS_SCHEMA";
            _splitChar := or_else (splitChar opts) Some None |}.
Proof.
  unfold Connector.
  destruct (given (connectionString opts)); [|discriminate].
  destruct (given (userName opts)); [|discriminate].
  destruct (given (password opts)); [|discriminate].
  cbn [negb]. cbv zeta. rewrite bind_emit.
  destruct (neo4j _ _ _); [discriminate|].
  rewrite !bind_emit. cbn. congruence.
Qed.

Lemma not_given_or_else {A} o (some : string -> A) d :
  given o = false -> or_else o some d = d.
Proof.
  destruct o as [s|]; simpl; [|reflexivity].
  destruct (String.eqb s ""); [reflexivity | discriminate].
Qed.

(** C6 (as amended). Without [splitChar] the connector keeps null as
    its separator, and [key.split(null)] splits on the text "null".
    Segmenting then rejects a key only when its first element is empty
    or is the default label; a key in which "null" does not occur, and
    which is neither empty nor the default label, yields the single
    segment "{defaultLabel}:{KEY}" with the whole key in upper case. *)
Theorem unset_separator_splits_on_null neo4j opts this key :
  given (splitChar opts) = false ->
  outcome (Connector neo4j opts) = Ok this ->
  _splitChar this = None /\
  split key (_splitChar this) = split key (Some "null") /\
  (_getSegments this key = None <->
   first_is (split key (Some "null")) "" ||
   first_is (split key (Some "null")) (_defaultLabel this) = true) /\
  (contains "null" key = false -> key <> "" -> key <> _defaultLabel this ->
   _getSegments this key = Some [_defaultLabel this ++ ":" ++ toUpperCase key]).
Proof.
  intros Hng Hok. apply Connector_inv in Hok.
  rewrite (not_given_or_else _ _ _ Hng) in Hok.
  assert (Hsep : _splitChar this = None) by (subst this; reflexivity).
  split; [exact Hsep|]. split; [rewrite Hsep; reflexivity|]. split.
  - unfold _getSegments. rewrite Hsep.
    change (split key None) with (split key (Some "null")).
    destruct (first_is (split key (Some "null")) "" ||
              first_is (split key (Some "null")) (_defaultLabel this)).
    + tauto.
    + split; [|discriminate].
      destruct (normalize_from 0 (split key (Some "null"))) as [|? [|]]; discriminate.
  - intros Hnull Hne Hnd.
    assert (Hsplit : split key (_splitChar this) = [key]).
    { rewrite Hsep. unfold split. cbn [String.eqb Ascii.eqb Bool.eqb].
      rewrite (split_from_absent _ _ "" Hnull). reflexivity. }
    rewrite getSegments_valid; rewrite Hsplit; simpl.
    + reflexivity.
    + apply String.eqb_neq. exact Hne.
    + apply String.eqb_neq. exact Hnd.
Qed.

Lemma unset_separator_users :
  given (splitChar settings_no_split) = false /\
  outcome (Connector bolt settings_no_split) = Ok unsplit /\
  _getSegments unsplit "users/a" = Some ["DS_SCHEMA:USERS/A"].
Proof.
  assert (H1 : "users/a" <> "") by discriminate.
  assert (H2 : "users/a" <> _defaultLabel unsplit) by discriminate.
  split; [reflexivity|]. split; [reflexivity|].
  exact (proj2 (proj2 (proj2 (unset_separator_splits_on_null
                                bolt settings_no_split unsplit "users/a" eq_refl eq_refl)))
               eq_refl H1 H2).
Defined.

(** C6 fails as stated: the connector built without [splitChar]
    segments "users/a" into one segment. *)
Lemma unset_separator_accepts_key :
  outcome (Connector bolt settings_no_split) = Ok unsplit /\
  _splitChar unsplit = None /\
  _getSegments unsplit "users/a" = Some ["DS_SCHEMA:USERS/A"].
Proof. repeat split. Qed.
End UnsetSeparator.

(* ================================================================== *)
(** * Construction *)
(* ================================================================== *)

Section Construction.
Import Connector Examples.

(** C7 (as amended). When [connectionString], [userName] or [password]
    is missing (not given, or empty) the constructor throws an Error and
    has done nothing before: [neo4j.driver] is not called, no session is
    opened. When the three are given it calls [neo4j.driver] with them:
    if that call throws, the constructor throws the same exception and
    opens no session; if it returns, the constructor sends the probe
    query and returns the connector, not yet ready. *)
Theorem constructor_requires_options neo4j opts :
  if given (connectionString opts) && given (userName opts) && given (password opts)
  then exists url user pass,
      connectionString opts = Some url /\ userName opts = Some user /\
      password opts = Some pass /\
      match neo4j url user pass with
      | Some e => Connector neo4j opts = ([EDriver url user pass], Throw e)
      | None =>
          exists this,
            Connector neo4j opts
            = ([EDriver url user pass; ESession; ERun "return 1" None], Ok this) /\
            isReady this = false
      end
  else exists msg, Connector neo4j opts = ([], Throw (Error msg)).
Proof.
  unfold Connector.
  destruct (connectionString opts) as [url|]; cbn [given andb negb]; [|eauto].
  destruct (String.eqb url ""); cbn [andb negb]; [eauto|].
  destruct (userName opts) as [user|]; cbn [given andb negb]; [|eauto].
  destruct (String.eqb user ""); cbn [andb negb]; [eauto|].
  destruct (password opts) as [pass|]; cbn [given andb negb]; [|eauto].
  destruct (String.eqb pass ""); cbn [andb negb]; [eauto|].
  exists url, user, pass. repeat split. cbv zeta. cbn [default from_option id].
  rewrite bind_emit. destruct (neo4j url user pass) as [e|]; [reflexivity|].
  rewrite !bind_emit. cbn. eauto.
Qed.

(** C7 fails as stated: with the three options given, and a connection
    string the driver library does not accept, the constructor
    throws. *)
Lemma constructor_throws_with_all_options :
  given (connectionString gibberish) && given (userName gibberish)
  && given (password gibberish) = true /\
  Connector bolt gibberish
  = ([EDriver "gibberish" "neo4j" "neo4j"], Throw (Error "Unknown scheme")).
Proof. split; reflexivity. Qed.

(** The two constructions of the test suite. *)
Lemma constructor_examples :
  outcome (Connector bolt {| connectionString := None; userName := None; password := None;
                             splitChar := None; defaultLabel := None |})
  = Throw (Error "Missing setting 'connectionString'") /\
  outcome (Connector bolt settings) = Ok slash.
Proof. split; reflexivity. Qed.
End Construction.

(* ================================================================== *)
(** * Query synthesis *)
(* ================================================================== *)

Section Contains.
Import Str.

Lemma prefix_empty (s : string) : String.prefix "" s = true.
Proof. destruct s; reflexivity. Qed.

Lemma prefix_here (n b : string) : String.prefix n (n ++ b) = true.
Proof.
  induction n as [|c n IH]; simpl; [apply prefix_empty|].
  destruct (ascii_dec c c); [exact IH | congruence].
Qed.

Lemma prefix_append (n s x : string) :
  String.prefix n s = true -> String.prefix n (s ++ x) = true.
Proof.
  revert s. induction n as [|c n IH]; intros s; [intros _; apply prefix_empty|].
  destruct s as [|c' s]; simpl; [discriminate|].
  destruct (ascii_dec c c'); [apply IH | discriminate].
Qed.

Lemma contains_here (n b : string) : contains n (n ++ b) = true.
Proof.
  destruct (n ++ b) eqn:E; cbn [contains]; rewrite <- E, prefix_here; reflexivity.
Qed.

Lemma contains_append_l (n s x : string) :
  contains n s = true -> contains n (s ++ x) = true.
Proof.
  induction s as [|c s IH]; cbn [contains].
  - rewrite orb_false_r. intros H.
    destruct n; [|discriminate]. destruct x; reflexivity.
  - intros [H | H]%orb_prop.
    + change (String c s ++ x) with (String c (s ++ x)). cbn [contains].
      change (String c (s ++ x)) with (String c s ++ x).
      rewrite (prefix_append _ _ x H). reflexivity.
    + change (String c s ++ x) with (String c (s ++ x)). cbn [contains].
      rewrite (IH H). apply orb_true_r.
Qed.

Lemma contains_append_r (n a s : string) :
  contains n s = true -> contains n (a ++ s) = true.
Proof.
  intros H. induction a as [|c a IH]; [exact H|].
  change (String c a ++ s) with (String c (a ++ s)). cbn [contains].
  rewrite IH. apply orb_true_r.
Qed.
End Contains.


Section Query.
Import Str Enum Connector Examples TransformData.

Lemma query_text_spec act segments values :
  query_text act segments values =
    Ok (if Nat.ltb (List.length segments) 3 then
          if has_values values
          then query_write (rel_names values) (query_head act segments)
          else query_head act segments ++ query_read act
        else "").
Proof.
  unfold query_text, has_values, rel_names.
  destruct (Nat.ltb (List.length segments) 3); [|reflexivity].
  destruct values as [v|]; [|reflexivity].
  destruct (truthy v) eqn:Hv; [|reflexivity].
  destruct v; try discriminate; reflexivity.
Qed.

Lemma getQuery_spec act segments values :
  _getQuery act segments values =
    let q := if Nat.ltb (List.length segments) 3 then
               if has_values values
               then query_write (rel_names values) (query_head act segments)
               else query_head act segments ++ query_read act
             else "" in
    ([ELog (JStr q)], Ok q).
Proof.
  unfold _getQuery. rewrite query_text_spec, bind_lift_ok, bind_emit. reflexivity.
Qed.

Lemma contains_fold_keeps n names : forall q,
  contains n q = true ->
  contains n (fold_left (fun q rel => q ++ rel_clause rel) names q) = true.
Proof.
  induction names as [|r names IH]; intros q H; [exact H|].
  simpl. apply IH. apply contains_append_l. exact H.
Qed.

Lemma contains_fold_names rel names : forall q,
  In rel names ->
  contains rel (fold_left (fun q rel => q ++ rel_clause rel) names q) = true.
Proof.
  induction names as [|r names IH]; intros q; [intros []|].
  intros [-> | Hin]; simpl; [|apply IH; exact Hin].
  apply contains_fold_keeps. apply contains_append_r.
  unfold rel_clause. apply contains_append_r. apply contains_here.
Qed.

Lemma head_contains_id act label id :
  contains id (query_head act [label; id]) = true.
Proof.
  unfold query_head. cbn [lookup list_lookup interpolate].
  do 2 apply contains_append_r. apply contains_here.
Qed.

Lemma head_contains_label act label id :
  contains label (query_head act [label; id]) = true.
Proof.
  unfold query_head. cbn [lookup list_lookup interpolate].
  do 4 apply contains_append_r. apply contains_here.
Qed.

(** C4 (as amended). The query text depends on the value only through
    the presence of a value and the names of its relations: the
    property values, which the engine receives as the parameters
    [$__ds], [$_props] and [$_rels], never reach the text. The label,
    the id segment and every relation name are written into the
    text. *)
Theorem query_text_depends_on_names_only :
  (forall act segments values values',
      has_values values = has_values values' ->
      rel_names values = rel_names values' ->
      _getQuery act segments values = _getQuery act segments values') /\
  (forall act label id values q,
      outcome (_getQuery act [label; id] values) = Ok q ->
      contains label q = true /\
      contains id q = true /\
      forall rel, In rel (rel_names values) -> contains rel q = true).
Proof.
  split.
  - intros act segments values values' Hv Hn.
    rewrite !getQuery_spec, Hv, Hn. reflexivity.
  - intros act label id values q. rewrite getQuery_spec.
    cbn [outcome snd List.length Nat.ltb Nat.leb]. intros [= <-].
    destruct (has_values values) eqn:Hv.
    + unfold query_write. repeat split.
      * apply contains_fold_keeps. do 3 apply contains_append_l.
        apply head_contains_label.
      * apply contains_fold_keeps. do 3 apply contains_append_l.
        apply head_contains_id.
      * intros rel Hin. apply contains_fold_names. exact Hin.
    + repeat split.
      * apply contains_append_l, head_contains_label.
      * apply contains_append_l, head_contains_id.
      * intros rel Hin. exfalso. unfold rel_names, has_values in *.
        destruct values as [v|]; [rewrite Hv in Hin|]; exact Hin.
Qed.

Lemma query_text_same_for_john_and_jane :
  has_values (Some john_storage) = has_values (Some jane_storage) /\
  rel_names (Some john_storage) = rel_names (Some jane_storage) /\
  _getQuery SET ["USERS"; "123"] (Some john_storage)
  = _getQuery SET ["USERS"; "123"] (Some jane_storage).
Proof.
  split; [reflexivity|]. split; [reflexivity|].
  exact (proj1 query_text_depends_on_names_only SET ["USERS"; "123"]
               (Some john_storage) (Some jane_storage) eq_refl eq_refl).
Defined.

(** C4 fails as stated: the id segment and the relation names are part
    of the query text, so two ids give two texts. *)
Lemma query_text_holds_id_and_relation_names :
  exists q q' w,
    outcome (_getQuery GET ["USERS"; "123"] None) = Ok q /\
    outcome (_getQuery GET ["USERS"; "456"] None) = Ok q' /\
    outcome (_getQuery SET ["USERS"; "123"] (Some john_storage)) = Ok w /\
    contains "_key: '123'" q = true /\
    String.eqb q q' = false /\
    contains "MERGE (n)-[:friends]->(FRIENDS_m)" w = true.
Proof.
  do 3 eexists. split; [reflexivity|]. split; [reflexivity|].
  split; [reflexivity|]. split; [reflexivity|]. split; reflexivity.
Qed.
End Query.

Section LongKeys.
Import Str Enum Connector Examples TransformData.

Lemma bind_ok {A B} (m : M A) (a : A) (k : A -> M B) :
  outcome m = Ok a ->
  bind m k = ((trace m ++ trace (k a))%list, outcome (k a)).
Proof.
  destruct m as [tr r]. simpl. intros ->. unfold bind, trace, outcome.
  destruct (k a). reflexivity.
Qed.

Lemma getQuery_long act segments values :
  3 <= List.length segments ->
  _getQuery act segments values = ([ELog (JStr "")], Ok "").
Proof.
  intros Hlen. rewrite getQuery_spec.
  destruct (Nat.ltb_spec (List.length segments) 3); [lia | reflexivity].
Qed.

(** C9. For segments of length three or more [_getQuery] returns the
    empty text, whatever the action and the value. A key that segments
    into three or more parts is not rejected: [get] and [delete] run
    the empty query, and [set], once the value has been transformed,
    runs the empty query with the transformed value as parameters. *)
Theorem long_keys_run_empty_query :
  (forall act segments values,
      3 <= List.length segments ->
      outcome (_getQuery act segments values) = Ok "") /\
  (forall this key segments,
      _getSegments this key = Some segments ->
      3 <= List.length segments ->
      get this key = ([ELog (JStr ""); ESession; ERun "" None], Ok tt) /\
      delete this key = ([ELog (JStr ""); ESession; ERun "" None], Ok tt) /\
      forall value stored,
        outcome (transformValueForStorage value) = Ok stored ->
        set this key value
        = ((trace (transformValueForStorage value)
            ++ [ELog (JStr ""); ESession; ERun "" (Some stored)])%list, Ok tt)).
Proof.
  split.
  - intros act segments values Hlen. rewrite getQuery_long by exact Hlen. reflexivity.
  - intros this key segments Hseg Hlen. unfold get, delete, set. rewrite Hseg.
    rewrite !getQuery_long by exact Hlen. repeat split.
    intros value stored Hok. rewrite (bind_ok _ stored _ Hok).
    rewrite getQuery_long by exact Hlen. reflexivity.
Qed.

Lemma long_keys_run_empty_query_abc :
  _getSegments slash "a/b/c" = Some ["A"; "b"; "C"] /\
  outcome (transformValueForStorage john) = Ok john_storage /\
  get slash "a/b/c" = ([ELog (JStr ""); ESession; ERun "" None], Ok tt) /\
  delete slash "a/b/c" = ([ELog (JStr ""); ESession; ERun "" None], Ok tt) /\
  set slash "a/b/c" john
  = ([ELog john_storage; ELog (JStr ""); ESession; ERun "" (Some john_storage)], Ok tt).
Proof.
  assert (Hlen : 3 <= List.length ["A"; "b"; "C"]) by (simpl; lia).
  pose proof (proj2 long_keys_run_empty_query slash "a/b/c" ["A"; "b"; "C"]
                    eq_refl Hlen) as (Hget & Hdel & Hset).
  split; [reflexivity|]. split; [reflexivity|].
  split; [exact Hget|]. split; [exact Hdel|].
  exact (Hset john john_storage eq_refl).
Defined.
End LongKeys.

(* ================================================================== *)
(** * The transforms leave their argument alone *)
(* ================================================================== *)

Section StoreFrame.
Import Store.
Local Open Scope store_scope.

Lemma fresh_mono n n' v : n' <= n -> fresh n v -> fresh n' v.
Proof. destruct v; simpl; auto. intros. lia. Qed.

Lemma new_cells_mono n n' ext : n' <= n -> new_cells n ext -> new_cells n' ext.
Proof.
  intros Hle H. unfold new_cells. eapply Forall_impl; [exact H|].
  intros c Hc. eapply Forall_impl; [exact Hc|].
  intros v. apply fresh_mono. exact Hle.
Qed.

Lemma alloc_arr es ps h :
  alloc (JArr es ps) h =
    let '(vs, h1) := alloc_elems es h in
    let '(ps', h2) := alloc_props ps h1 in
    (VRef (List.length h2), (h2 ++ [CArr vs ps'])%list).
Proof. reflexivity. Qed.

Lemma alloc_obj ps h :
  alloc (JObj ps) h =
    let '(ps', h1) := alloc_props ps h in
    (VRef (List.length h1), (h1 ++ [CObj ps'])%list).
Proof. reflexivity. Qed.

Lemma alloc_elems_ok es :
  Forall alloc_ok es ->
  forall h, exists ext,
    snd (alloc_elems es h) = (h ++ ext)%list /\
    Forall (fresh (List.length h)) (fst (alloc_elems es h)) /\
    new_cells (List.length h) ext.
Proof.
  induction 1 as [|e es He _ IH]; intros h.
  - exists []. simpl. rewrite app_nil_r. repeat split; constructor.
  - simpl. destruct (He h) as (ext1 & E1 & F1 & N1).
    destruct (alloc e h) as [v h1]. simpl in E1, F1. subst h1.
    destruct (IH (h ++ ext1)%list) as (ext2 & E2 & F2 & N2).
    destruct (alloc_elems es (h ++ ext1)%list) as [vs h2]. simpl in E2, F2. subst h2.
    assert (Hle : List.length h <= List.length (h ++ ext1)%list)
      by (rewrite length_app; lia).
    exists (ext1 ++ ext2)%list. simpl. rewrite app_assoc. repeat split.
    + constructor; [exact F1|].
      eapply Forall_impl; [exact F2|]. intros v'. apply fresh_mono. exact Hle.
    + apply Forall_app. split; [exact N1|].
      exact (new_cells_mono _ _ _ Hle N2).
Qed.

Lemma alloc_props_ok ps :
  Forall (fun p => alloc_ok (snd p)) ps ->
  forall h, exists ext,
    snd (alloc_props ps h) = (h ++ ext)%list /\
    Forall (fresh (List.length h)) (map snd (fst (alloc_props ps h))) /\
    new_cells (List.length h) ext.
Proof.
  induction 1 as [|[k x] ps Hx _ IH]; intros h.
  - exists []. simpl. rewrite app_nil_r. repeat split; constructor.
  - simpl in Hx |- *. destruct (Hx h) as (ext1 & E1 & F1 & N1).
    destruct (alloc x h) as [v h1]. simpl in E1, F1. subst h1.
    destruct (IH (h ++ ext1)%list) as (ext2 & E2 & F2 & N2).
    destruct (alloc_props ps (h ++ ext1)%list) as [vs h2]. simpl in E2, F2. subst h2.
    assert (Hle : List.length h <= List.length (h ++ ext1)%list)
      by (rewrite length_app; lia).
    exists (ext1 ++ ext2)%list. simpl. rewrite app_assoc. repeat split.
    + constructor; [exact F1|].
      eapply Forall_impl; [exact F2|]. intros v'. apply fresh_mono. exact Hle.
    + apply Forall_app. split; [exact N1|].
      exact (new_cells_mono _ _ _ Hle N2).
Qed.

Lemma alloc_spec t : alloc_ok t.
Proof.
  induction t as [ | | b | n | s | es ps IHes IHps | ps IHps] using jsval_nested_ind;
    try (intros h; exists []; simpl; rewrite app_nil_r;
         repeat split; constructor).
  - intros h. rewrite alloc_arr.
    destruct (alloc_elems_ok es IHes h) as (ext & E & F & N).
    destruct (alloc_elems es h) as [vs h1]. simpl in E, F. subst h1.
    destruct (alloc_props_ok ps IHps (h ++ ext)%list) as (ext' & E' & F' & N').
    destruct (alloc_props ps (h ++ ext)%list) as [ps' h2]. simpl in E', F'. subst h2.
    assert (Hle : List.length h <= List.length (h ++ ext)%list)
      by (rewrite length_app; lia).
    exists (ext ++ ext' ++ [CArr vs ps'])%list. simpl.
    rewrite <- !app_assoc. repeat split.
    + rewrite !length_app. lia.
    + apply Forall_app. split; [exact N|].
      apply Forall_app. split; [exact (new_cells_mono _ _ _ Hle N')|].
      constructor; [|constructor]. simpl. apply Forall_app. split; [exact F|].
      eapply Forall_impl; [exact F'|]. intros v'. apply fresh_mono. exact Hle.
  - intros h. rewrite alloc_obj.
    destruct (alloc_props_ok ps IHps h) as (ext & E & F & N).
    destruct (alloc_props ps h) as [ps' h1]. simpl in E, F. subst h1.
    exists (ext ++ [CObj ps'])%list. simpl. rewrite app_assoc. repeat split.
    + rewrite length_app. lia.
    + apply Forall_app. split; [exact N|]. constructor; [|constructor].
      exact F.
Qed.

Variable h0 : store.
Abbreviation n := (List.length h0).

Lemma grown_refl : grown h0 h0.
Proof. exists []. rewrite app_nil_r. split; [reflexivity | constructor]. Qed.

Lemma grown_lookup_new h l c :
  grown h0 h -> n <= l -> h !! l = Some c -> Forall (fresh n) (children c).
Proof.
  intros (ext & -> & Hext) Hle Hl.
  rewrite lookup_app_r in Hl by exact Hle.
  exact (Forall_lookup_1 _ _ _ _ Hext Hl).
Qed.

Lemma grown_insert h l c :
  grown h0 h -> n <= l -> Forall (fresh n) (children c) -> grown h0 (<[l := c]> h).
Proof.
  intros (ext & -> & Hext) Hle Hc.
  exists (<[l - n := c]> ext). split.
  - apply insert_app_r_alt. exact Hle.
  - apply Forall_insert; assumption.
Qed.

Lemma grown_alloc h (ext : list cell) :
  grown h0 h -> new_cells n ext -> grown h0 (h ++ ext)%list.
Proof.
  intros (ext0 & -> & Hext) Hc. exists (ext0 ++ ext)%list.
  rewrite app_assoc. split; [reflexivity|]. apply Forall_app. split; assumption.
Qed.

Lemma grown_length h : grown h0 h -> n <= List.length h.
Proof. intros (ext & -> & _). rewrite length_app. lia. Qed.

(** From a value that does not point into [h0], no cell of [h0] is
    reached. *)
Lemma grown_separate h v :
  grown h0 h -> fresh n v -> forall l, reach h v l -> n <= l.
Proof.
  intros Hg Hv l Hr. induction Hr as [l | l c x l' Hl Hx _ IH].
  - exact Hv.
  - apply IH. pose proof (grown_lookup_new h l c Hg Hv Hl) as Hc.
    rewrite Forall_forall in Hc. exact (Hc x Hx).
Qed.

(** *** The rules of [keeps] *)

Lemma keeps_ret {A} (a : A) (Q : A -> Prop) : Q a -> keeps h0 (ret a) Q.
Proof. intros Ha h Hg. split; [exact Hg|]. simpl. intros a' [= <-]. exact Ha. Qed.

Lemma keeps_bind {A B} (m : St A) (k : A -> St B) (Q : A -> Prop) (R : B -> Prop) :
  keeps h0 m Q -> (forall a, Q a -> keeps h0 (k a) R) -> keeps h0 (bind m k) R.
Proof.
  intros Hm Hk h Hg. unfold bind. destruct (Hm h Hg) as [Hg' HQ].
  destruct (m h) as [[a|e] h']; simpl in *.
  - exact (Hk a (HQ a eq_refl) h' Hg').
  - split; [exact Hg' | discriminate].
Qed.

Lemma keeps_json_clone v : keeps h0 (json_clone v) (fresh n).
Proof.
  intros h Hg. unfold json_clone.
  destruct (stringify (S (List.length h)) h [] v) as [ | | [t|]];
    try (split; [exact Hg | discriminate]).
  destruct (alloc_spec t h) as (ext & E & F & N).
  destruct (alloc t h) as [v' h']. simpl in E, F |- *. subst h'.
  pose proof (grown_length h Hg) as Hle. split.
  - apply grown_alloc; [exact Hg|]. exact (new_cells_mono _ _ _ Hle N).
  - intros a [= <-]. exact (fresh_mono _ _ _ Hle F).
Qed.

Lemma named_children c k x : assoc k (named_of c) = Some x -> x ∈ children c.
Proof.
  intros H. apply assoc_In in H.
  assert (Hx : x ∈ map snd (named_of c)).
  { apply list_elem_of_In, in_map_iff. exists (k, x). auto. }
  destruct c; simpl in *; [exact Hx|]. apply elem_of_app. right. exact Hx.
Qed.

Lemma keeps_get_prop o k : fresh n o -> keeps h0 (get_prop o k) (fresh n).
Proof.
  intros Ho h Hg. unfold get_prop.
  destruct o as [ | | | | | l]; simpl;
    try (split; [exact Hg|]; first [discriminate | intros a [= <-]; exact I]).
  destruct (h !! l) as [c|] eqn:Hl; simpl;
    (split; [exact Hg|]); intros a [= <-]; [|exact I].
  destruct (assoc k (named_of c)) as [x|] eqn:Hk; [|exact I]. simpl.
  pose proof (grown_lookup_new h l c Hg Ho Hl) as Hc.
  rewrite Forall_forall in Hc. exact (Hc x (named_children c k x Hk)).
Qed.

Lemma with_named_fresh c ps :
  Forall (fresh n) (children c) ->
  Forall (fresh n) (map snd ps) ->
  Forall (fresh n) (children (with_named c ps)).
Proof.
  destruct c as [ps0 | es ps0]; simpl; [auto|].
  intros [Hes _]%Forall_app Hps. apply Forall_app. auto.
Qed.

Lemma named_fresh c :
  Forall (fresh n) (children c) -> Forall (fresh n) (map snd (named_of c)).
Proof. destruct c; simpl; [auto|]. intros [_ H]%Forall_app. exact H. Qed.

Lemma put_key_fresh k v (ps : list (string * val)) :
  fresh n v -> Forall (fresh n) (map snd ps) -> Forall (fresh n) (map snd (put_key k v ps)).
Proof.
  intros Hv. induction ps as [|[k' x] ps IH]; simpl; intros H.
  - constructor; [exact Hv | constructor].
  - apply Forall_cons in H as [Hx Hps].
    destruct (String.eqb k k'); simpl; constructor; auto.
Qed.

Lemma remove_key_fresh k (ps : list (string * val)) :
  Forall (fresh n) (map snd ps) -> Forall (fresh n) (map snd (remove_key k ps)).
Proof.
  induction ps as [|[k' x] ps IH]; simpl; intros H; [constructor|].
  apply Forall_cons in H as [Hx Hps].
  destruct (String.eqb k k'); simpl; [auto | constructor; auto].
Qed.

Lemma keeps_set_prop o k v :
  fresh n o -> fresh n v -> keeps h0 (set_prop o k v) (fun _ => True).
Proof.
  intros Ho Hv h Hg. unfold set_prop.
  destruct o as [ | | | | | l]; simpl; try (split; [exact Hg | discriminate]).
  destruct (h !! l) as [c|] eqn:Hl; simpl; (split; [|auto]); [|exact Hg].
  pose proof (grown_lookup_new h l c Hg Ho Hl) as Hc.
  apply grown_insert; [exact Hg | exact Ho|].
  apply with_named_fresh; [exact Hc|].
  apply put_key_fresh; [exact Hv|]. apply named_fresh. exact Hc.
Qed.

Lemma keeps_delete_prop o k :
  fresh n o -> keeps h0 (delete_prop o k) (fun _ => True).
Proof.
  intros Ho h Hg. unfold delete_prop.
  destruct o as [ | | | | | l]; simpl; try (split; [exact Hg | auto]).
  destruct (h !! l) as [c|] eqn:Hl; simpl; (split; [|auto]); [|exact Hg].
  pose proof (grown_lookup_new h l c Hg Ho Hl) as Hc.
  apply grown_insert; [exact Hg | exact Ho|].
  apply with_named_fresh; [exact Hc|].
  apply remove_key_fresh. apply named_fresh. exact Hc.
Qed.

Lemma keeps_new_object ps :
  Forall (fresh n) (map snd ps) -> keeps h0 (new_object ps) (fresh n).
Proof.
  intros Hps h Hg. unfold new_object. simpl. split.
  - apply grown_alloc; [exact Hg|]. constructor; [exact Hps | constructor].
  - intros a [= <-]. exact (grown_length h Hg).
Qed.

Lemma keeps_is_array v : keeps h0 (is_array v) (fun _ => True).
Proof.
  intros h Hg. unfold is_array.
  destruct v as [ | | | | | l]; simpl; try (split; [exact Hg | auto]).
  destruct (h !! l) as [[|]|]; simpl; (split; [exact Hg | auto]).
Qed.

Lemma keeps_forStorage v : keeps h0 (transformValueForStorage v) (fresh n).
Proof.
  unfold transformValueForStorage.
  eapply keeps_bind; [apply keeps_json_clone|]. intros value Hvalue.
  eapply keeps_bind; [apply keeps_get_prop; exact Hvalue|]. intros data Hdata.
  eapply keeps_bind; [apply keeps_delete_prop; exact Hvalue|]. intros _ _.
  eapply keeps_bind; [apply keeps_is_array|]. intros [|] _.
  - apply keeps_new_object. repeat constructor; assumption.
  - eapply keeps_bind; [apply keeps_get_prop; exact Hdata|]. intros rels Hrels.
    eapply keeps_bind; [apply keeps_delete_prop; exact Hdata|]. intros _ _.
    apply keeps_new_object. repeat constructor; assumption.
Qed.

Lemma keeps_fromStorage v : keeps h0 (transformValueFromStorage v) (fresh n).
Proof.
  unfold transformValueFromStorage.
  eapply keeps_bind; [apply keeps_json_clone|]. intros value Hvalue.
  destruct (negb (truthy value)); [apply keeps_ret; exact I|].
  eapply keeps_bind; [apply keeps_get_prop; exact Hvalue|]. intros data Hdata.
  eapply keeps_bind; [apply keeps_delete_prop; exact Hvalue|]. intros _ _.
  eapply keeps_bind; [apply keeps_get_prop; exact Hvalue|]. intros dsList HdsList.
  eapply keeps_bind; [apply keeps_is_array|]. intros [|] _.
  - eapply keeps_bind; [apply keeps_set_prop; assumption|]. intros _ _.
    apply keeps_ret. exact Hdata.
  - eapply keeps_bind; [apply keeps_get_prop; exact Hvalue|]. intros props Hprops.
    eapply keeps_bind; [apply keeps_set_prop; assumption|]. intros _ _.
    eapply keeps_bind with (Q := fun _ => True).
    + destruct (truthy props); [|apply keeps_ret; exact I].
      eapply keeps_bind; [apply keeps_get_prop; exact Hdata|]. intros d Hd.
      eapply keeps_bind; [apply keeps_get_prop; exact Hvalue|]. intros rels Hrels.
      apply keeps_set_prop; assumption.
    + intros _ _.
      eapply keeps_bind; [apply keeps_delete_prop; exact Hvalue|]. intros _ _.
      apply keeps_ret. exact Hdata.
Qed.

(** What [keeps] gives for a call made in [h0] itself. *)
Lemma keeps_frame (m : St val) :
  keeps h0 m (fresh n) ->
  preserved h0 (snd (m h0)) /\
  forall res, fst (m h0) = Ok res -> separate h0 (snd (m h0)) res.
Proof.
  intros Hk. destruct (Hk h0 grown_refl) as [Hg Hres]. split.
  - destruct Hg as (ext & -> & _). exists ext. reflexivity.
  - intros res Hok l Hr. exact (grown_separate _ res Hg (Hres res Hok) l Hr).
Qed.
End StoreFrame.

Section ReadBack.
Import Store.

Lemma mapM_ext_in {A B} (f g : A -> option B) (l : list A) :
  (forall x, x ∈ l -> f x = g x) -> mapM f l = mapM g l.
Proof.
  induction l as [|a l IH]; intros H; [reflexivity|]. simpl.
  rewrite (H a) by (left; reflexivity).
  rewrite IH; [reflexivity|]. intros x Hx. apply H. right. exact Hx.
Qed.

Lemma closed_lookup (h : store) l c x :
  closed_store h = true -> h !! l = Some c -> x ∈ children c -> in_store h x = true.
Proof.
  unfold closed_store. intros Hc Hl Hx.
  rewrite forallb_forall in Hc.
  specialize (Hc c (proj1 (list_elem_of_In _ _) (list_elem_of_lookup_2 _ _ _ Hl))).
  rewrite forallb_forall in Hc. apply Hc, list_elem_of_In. exact Hx.
Qed.

(** In a store without dangling references, what a value stands for does
    not change when cells are appended. *)
Lemma reify_preserved (h ext : store) :
  closed_store h = true ->
  forall fuel v, in_store h v = true -> reify fuel (h ++ ext)%list v = reify fuel h v.
Proof.
  intros Hc. induction fuel as [|fuel IH]; intros v Hv; [reflexivity|].
  destruct v as [ | | | | | l]; try reflexivity.
  simpl in Hv. apply Nat.ltb_lt in Hv. cbn [reify].
  rewrite lookup_app_l by exact Hv.
  destruct (h !! l) as [c|] eqn:Hl; [|reflexivity].
  assert (Hps : forall ps : list (string * val),
             (forall x, x ∈ map snd ps -> x ∈ children c) ->
             mapM (fun '(k, x) => pair k <$> reify fuel (h ++ ext)%list x) ps
             = mapM (fun '(k, x) => pair k <$> reify fuel h x) ps).
  { intros ps Hin. apply mapM_ext_in. intros [k x] Hx.
    rewrite IH; [reflexivity|]. apply (closed_lookup h l c x Hc Hl), Hin.
    apply list_elem_of_In, in_map_iff. exists (k, x).
    split; [reflexivity | apply list_elem_of_In; exact Hx]. }
  destruct c as [ps | es ps].
  - rewrite Hps; [reflexivity|]. auto.
  - rewrite Hps by (intros x Hx; simpl; apply elem_of_app; auto).
    rewrite (mapM_ext_in (reify fuel (h ++ ext)%list) (reify fuel h)); [reflexivity|].
    intros x Hx. apply IH. apply (closed_lookup h l _ x Hc Hl).
    simpl. apply elem_of_app. auto.
Qed.

Lemma preserved_reify (h h' : store) v fuel :
  preserved h h' -> closed_store h = true -> in_store h v = true ->
  reify fuel h' v = reify fuel h v.
Proof. intros [ext ->] Hc Hv. apply reify_preserved; assumption. Qed.
End ReadBack.

(** C8. Neither transform changes a cell of the store it is called in:
    the store afterwards is the store before, followed by the cells the
    call allocated. When a transform returns a value, no object
    reachable from that value is a cell of the store before the call:
    the result shares no object with the argument. This holds for every
    store and every argument. When the store has no dangling reference,
    the argument reads back after the call as the tree it read back as
    before. *)
Theorem transforms_do_not_mutate (h : Store.store) (v : Store.val) :
  (Store.preserved h (snd (Store.transformValueForStorage v h)) /\
   forall res, fst (Store.transformValueForStorage v h) = Ok res ->
               Store.separate h (snd (Store.transformValueForStorage v h)) res) /\
  (Store.preserved h (snd (Store.transformValueFromStorage v h)) /\
   forall res, fst (Store.transformValueFromStorage v h) = Ok res ->
               Store.separate h (snd (Store.transformValueFromStorage v h)) res) /\
  (Store.closed_store h = true -> Store.in_store h v = true ->
   forall fuel,
     Store.reify fuel (snd (Store.transformValueForStorage v h)) v = Store.reify fuel h v /\
     Store.reify fuel (snd (Store.transformValueFromStorage v h)) v = Store.reify fuel h v).
Proof.
  pose proof (keeps_frame h _ (keeps_forStorage h v)) as Hfor.
  pose proof (keeps_frame h _ (keeps_fromStorage h v)) as Hfrom.
  split; [exact Hfor|]. split; [exact Hfrom|].
  intros Hc Hv fuel. split; apply preserved_reify; tauto.
Qed.

(** The record of the test suite, built in a store, reads back as itself
    after each of the two transforms. *)
Lemma transforms_do_not_mutate_john :
  Store.closed_store (Store.store_of Examples.john) = true /\
  Store.in_store (Store.store_of Examples.john) (Store.value_of Examples.john) = true /\
  Store.reify 6 (snd (Store.transformValueForStorage (Store.value_of Examples.john)
                                                     (Store.store_of Examples.john)))
              (Store.value_of Examples.john) = Some Examples.john /\
  Store.reify 6 (snd (Store.transformValueFromStorage (Store.value_of Examples.john)
                                                      (Store.store_of Examples.john)))
              (Store.value_of Examples.john) = Some Examples.john.
Proof.
  pose proof (proj2 (proj2 (transforms_do_not_mutate
                              (Store.store_of Examples.john) (Store.value_of Examples.john)))
                    eq_refl eq_refl 6) as [Hfor Hfrom].
  split; [reflexivity|]. split; [reflexivity|].
  split; [rewrite Hfor | rewrite Hfrom]; reflexivity.
Defined.

(* ================================================================== *)
(** * The serialiser has fuel enough *)
(* ================================================================== *)

Section Fuel.
Import Store.

Lemma on_stack_false l stack : on_stack l stack = false -> l ∉ stack.
Proof.
  unfold on_stack. intros H Hin.
  assert (existsb (Nat.eqb l) stack = true); [|congruence].
  apply existsb_exists. exists l. split.
  - apply list_elem_of_In. exact Hin.
  - apply Nat.eqb_refl.
Qed.

(** Distinct cells of a store are no more than the store has. *)
Lemma stack_bound (h : store) (stack : list loc) :
  NoDup stack -> (forall l, l ∈ stack -> l < List.length h) ->
  List.length stack <= List.length h.
Proof.
  intros Hnd Hlt.
  assert (H : List.length stack <= List.length (seq 0 (List.length h))).
  { apply submseteq_length, NoDup_submseteq; [exact Hnd|].
    intros l Hl. apply elem_of_seq. specialize (Hlt l Hl). lia. }
  rewrite List.length_seq in H. exact H.
Qed.

Lemma text_props_fuel (f : val -> serialised (option jsval)) ps :
  (forall x, f x <> NoFuel) -> text_props f ps <> NoFuel.
Proof.
  intros Hf. induction ps as [|[k x] ps IH]; simpl; [discriminate|].
  specialize (Hf x). destruct (f x); try congruence.
  destruct (text_props f ps); congruence.
Qed.

Lemma text_elems_fuel (f : val -> serialised (option jsval)) es :
  (forall x, f x <> NoFuel) -> text_elems f es <> NoFuel.
Proof.
  intros Hf. induction es as [|x es IH]; simpl; [discriminate|].
  specialize (Hf x). destruct (f x); try congruence.
  destruct (text_elems f es); congruence.
Qed.

Lemma stringify_fuel_stack fuel : forall (h : store) stack v,
  NoDup stack ->
  (forall l, l ∈ stack -> l < List.length h) ->
  List.length h < fuel + List.length stack ->
  stringify fuel h stack v <> NoFuel.
Proof.
  induction fuel as [|fuel IH]; intros h stack v Hnd Hlt Hfuel.
  - pose proof (stack_bound h stack Hnd Hlt). simpl in Hfuel. lia.
  - destruct v as [ | | | | | l]; simpl; try discriminate.
    destruct (on_stack l stack) eqn:Hon; [discriminate|].
    destruct (h !! l) as [c|] eqn:Hl; [|discriminate].
    assert (Hrec : forall x, stringify fuel h (l :: stack) x <> NoFuel).
    { intros x. apply IH.
      - apply NoDup_cons. split; [apply on_stack_false; exact Hon | exact Hnd].
      - intros l' [-> | Hin]%elem_of_cons; [|auto].
        exact (lookup_lt_Some _ _ _ Hl).
      - simpl. lia. }
    destruct c as [ps | es ps].
    + pose proof (text_props_fuel _ ps Hrec).
      destruct (text_props (stringify fuel h (l :: stack)) ps); congruence.
    + pose proof (text_elems_fuel _ es Hrec).
      destruct (text_elems (stringify fuel h (l :: stack)) es); congruence.
Qed.

(** With one unit of fuel more than the store has cells the serialiser
    always ends: with a document, with nothing (for undefined), or on a
    circular structure. *)
Lemma stringify_fuel (h : store) v :
  stringify (S (List.length h)) h [] v <> NoFuel.
Proof.
  apply stringify_fuel_stack.
  - constructor.
  - intros l Hl. inversion Hl.
  - simpl. lia.
Qed.
End Fuel.

(* ================================================================== *)
(** * The two models of the transforms, run side by side *)
(* ================================================================== *)

Section SideBySide.
Import CrossCheck Examples.

(** On every input of the two lists (values of every shape, well-formed
    or not) the transform over the store, read back as a tree, is the
    transform on values: same result, property order included, or same
    exception. *)
Lemma models_agree_on_samples :
  forallb (agree Store.transformValueForStorage TransformData.transformValueForStorage)
          external_inputs = true /\
  forallb (agree Store.transformValueFromStorage TransformData.transformValueFromStorage)
          storage_inputs = true /\
  forallb (agree Store.transformValueForStorage TransformData.transformValueForStorage)
          [john; john_list; plain; plain_restored] = true /\
  forallb (agree Store.transformValueFromStorage TransformData.transformValueFromStorage)
          [john_storage; jane_storage] = true.
Proof. repeat split; vm_compute; reflexivity. Qed.
End SideBySide.

(* ================================================================== *)
(** * The store model refines the value model *)
(* ================================================================== *)

Section TreeShape.
Import Store Layout.

Lemma tree_at_arr h es ps a b v :
  tree_at h (JArr es ps) a b v =
  exists l es' ps' m,
    b = S l /\ v = VRef l /\ h !! l = Some (CArr es' ps') /\
    elems_at h es a m es' /\ props_at h ps m l ps'.
Proof. reflexivity. Qed.

Lemma tree_at_obj h ps a b v :
  tree_at h (JObj ps) a b v =
  exists l ps',
    b = S l /\ v = VRef l /\ h !! l = Some (CObj ps') /\ props_at h ps a l ps'.
Proof. reflexivity. Qed.
End TreeShape.

Section TreeAt.
Import Store Layout.

Lemma elems_at_le_if h es :
  Forall (bounded h) es -> forall a b es', elems_at h es a b es' -> a <= b.
Proof.
  induction 1 as [|t es Ht _ IH]; intros a b [|x es']; simpl; try tauto; [lia|].
  intros (c & Hc & Hr). apply Ht in Hc. apply IH in Hr. lia.
Qed.

Lemma props_at_le_if h ps :
  Forall (fun p => bounded h (snd p)) ps ->
  forall a b ps', props_at h ps a b ps' -> a <= b.
Proof.
  induction 1 as [|[k t] ps Ht _ IH]; intros a b [|[k' x] ps']; simpl; try tauto; [lia|].
  intros (_ & c & Hc & Hr). apply Ht in Hc. apply IH in Hr. lia.
Qed.

(** The cells of a tree are cells of the store, in order. *)
Lemma tree_at_bounds h t : bounded h t.
Proof.
  induction t as [ | | x | n | s | es ps IHes IHps | ps IHps] using jsval_nested_ind;
    intros a b v; try (simpl; intros [-> _]; lia).
  - rewrite tree_at_arr. intros (l & es' & ps' & m & -> & -> & Hl & Hes & Hps).
    apply lookup_lt_Some in Hl.
    apply (elems_at_le_if _ _ IHes) in Hes. apply (props_at_le_if _ _ IHps) in Hps. lia.
  - rewrite tree_at_obj. intros (l & ps' & -> & -> & Hl & Hps).
    apply lookup_lt_Some in Hl. apply (props_at_le_if _ _ IHps) in Hps. lia.
Qed.

Lemma elems_at_le h es a b es' : elems_at h es a b es' -> a <= b.
Proof.
  apply elems_at_le_if, Forall_forall. intros t _. apply tree_at_bounds.
Qed.

Lemma props_at_le h ps a b ps' : props_at h ps a b ps' -> a <= b.
Proof.
  apply props_at_le_if, Forall_forall. intros t _. apply tree_at_bounds.
Qed.

Lemma elems_at_frame_if h h' es :
  Forall (framed h h') es ->
  forall a b es', (forall l, a <= l < b -> h' !! l = h !! l) ->
                  elems_at h es a b es' -> elems_at h' es a b es'.
Proof.
  induction 1 as [|t es Ht _ IH]; intros a b [|x es'] Hsame; simpl; try tauto.
  intros (c & Hc & Hr).
  pose proof (tree_at_bounds _ _ _ _ _ Hc) as [Hac _].
  pose proof (elems_at_le _ _ _ _ _ Hr) as Hcb.
  exists c. split.
  - apply Ht; [|exact Hc]. intros l' Hl'. apply Hsame. lia.
  - apply IH; [|exact Hr]. intros l' Hl'. apply Hsame. lia.
Qed.

Lemma props_at_frame_if h h' ps :
  Forall (fun p => framed h h' (snd p)) ps ->
  forall a b ps', (forall l, a <= l < b -> h' !! l = h !! l) ->
                  props_at h ps a b ps' -> props_at h' ps a b ps'.
Proof.
  induction 1 as [|[k t] ps Ht _ IH]; intros a b [|[k' x] ps'] Hsame; simpl; try tauto.
  intros (Hk & c & Hc & Hr).
  pose proof (tree_at_bounds _ _ _ _ _ Hc) as [Hac _].
  pose proof (props_at_le _ _ _ _ _ Hr) as Hcb.
  split; [exact Hk|]. exists c. split.
  - apply Ht; [|exact Hc]. intros l' Hl'. apply Hsame. lia.
  - apply IH; [|exact Hr]. intros l' Hl'. apply Hsame. lia.
Qed.

(** A tree depends on its own cells only. *)
Lemma tree_at_frame h h' t : framed h h' t.
Proof.
  induction t as [ | | x | n | s | es ps IHes IHps | ps IHps] using jsval_nested_ind;
    intros a b v Hsame; try (simpl; tauto).
  - rewrite !tree_at_arr. intros (l & es' & ps' & m & -> & -> & Hl & Hes & Hps).
    pose proof (elems_at_le _ _ _ _ _ Hes) as Ham.
    pose proof (props_at_le _ _ _ _ _ Hps) as Hml.
    exists l, es', ps', m. repeat split.
    + rewrite Hsame by lia. exact Hl.
    + apply (elems_at_frame_if _ _ _ IHes); [|exact Hes].
      intros l' Hl'. apply Hsame. lia.
    + apply (props_at_frame_if _ _ _ IHps); [|exact Hps].
      intros l' Hl'. apply Hsame. lia.
  - rewrite !tree_at_obj. intros (l & ps' & -> & -> & Hl & Hps).
    pose proof (props_at_le _ _ _ _ _ Hps) as Hal.
    exists l, ps'. repeat split.
    + rewrite Hsame by lia. exact Hl.
    + apply (props_at_frame_if _ _ _ IHps); [|exact Hps].
      intros l' Hl'. apply Hsame. lia.
Qed.

Lemma elems_at_frame h h' es a b es' :
  (forall l, a <= l < b -> h' !! l = h !! l) ->
  elems_at h es a b es' -> elems_at h' es a b es'.
Proof.
  apply elems_at_frame_if, Forall_forall. intros t _. apply tree_at_frame.
Qed.

Lemma props_at_frame h h' ps a b ps' :
  (forall l, a <= l < b -> h' !! l = h !! l) ->
  props_at h ps a b ps' -> props_at h' ps a b ps'.
Proof.
  apply props_at_frame_if, Forall_forall. intros t _. apply tree_at_frame.
Qed.
End TreeAt.

Section AllocTree.
Import Store Layout.

Lemma alloc_extends t h : exists ext, snd (alloc t h) = (h ++ ext)%list.
Proof. destruct (alloc_spec t h) as (ext & E & _). eauto. Qed.

Lemma alloc_elems_extends es h : exists ext, snd (alloc_elems es h) = (h ++ ext)%list.
Proof.
  destruct (alloc_elems_ok es) with (h := h) as (ext & E & _); [|eauto].
  apply Forall_forall. intros t _. apply alloc_spec.
Qed.

Lemma alloc_props_extends ps h : exists ext, snd (alloc_props ps h) = (h ++ ext)%list.
Proof.
  destruct (alloc_props_ok ps) with (h := h) as (ext & E & _); [|eauto].
  apply Forall_forall. intros t _. apply alloc_spec.
Qed.

Lemma frame_app (h ext : store) a b :
  b <= List.length h -> forall l, a <= l < b -> (h ++ ext)%list !! l = h !! l.
Proof. intros Hb l Hl. apply lookup_app_l. lia. Qed.

Lemma alloc_elems_at es :
  Forall built es ->
  forall h, elems_at (snd (alloc_elems es h)) es (List.length h)
                     (List.length (snd (alloc_elems es h))) (fst (alloc_elems es h)).
Proof.
  induction 1 as [|t es Ht _ IH]; intros h; [reflexivity|].
  simpl. specialize (Ht h). destruct (alloc t h) as [v h1]. simpl in Ht.
  specialize (IH h1). destruct (alloc_elems_extends es h1) as [ext E].
  destruct (alloc_elems es h1) as [vs h2]. simpl in *. subst h2.
  exists (List.length h1). split; [|exact IH].
  apply (tree_at_frame h1); [|exact Ht]. apply frame_app. lia.
Qed.

Lemma alloc_props_at ps :
  Forall (fun p => built (snd p)) ps ->
  forall h, props_at (snd (alloc_props ps h)) ps (List.length h)
                     (List.length (snd (alloc_props ps h))) (fst (alloc_props ps h)).
Proof.
  induction 1 as [|[k t] ps Ht _ IH]; intros h; [reflexivity|].
  simpl in Ht |- *. specialize (Ht h). destruct (alloc t h) as [v h1]. simpl in Ht.
  specialize (IH h1). destruct (alloc_props_extends ps h1) as [ext E].
  destruct (alloc_props ps h1) as [vs h2]. simpl in *. subst h2.
  split; [reflexivity|]. exists (List.length h1). split; [|exact IH].
  apply (tree_at_frame h1); [|exact Ht]. apply frame_app. lia.
Qed.

(** [alloc] builds a tree in the cells it appends. *)
Lemma alloc_tree_at t : built t.
Proof.
  induction t as [ | | x | n | s | es ps IHes IHps | ps IHps] using jsval_nested_ind;
    intros h; try (simpl; split; reflexivity).
  - rewrite alloc_arr.
    pose proof (alloc_elems_at es IHes h) as Hes.
    destruct (alloc_elems es h) as [vs h1]. simpl in Hes.
    pose proof (alloc_props_at ps IHps h1) as Hps.
    destruct (alloc_props_extends ps h1) as [ext E].
    destruct (alloc_props ps h1) as [ps' h2]. simpl in Hps, E. subst h2.
    cbn [fst snd]. rewrite tree_at_arr. exists (List.length (h1 ++ ext)%list), vs, ps', (List.length h1).
    repeat split.
    + rewrite length_app. simpl. lia.
    + apply list_lookup_middle. reflexivity.
    + apply (elems_at_frame h1); [|exact Hes].
      intros l Hl. rewrite <- app_assoc. apply lookup_app_l. lia.
    + apply (props_at_frame (h1 ++ ext)%list); [|exact Hps].
      apply frame_app. lia.
  - rewrite alloc_obj.
    pose proof (alloc_props_at ps IHps h) as Hps.
    destruct (alloc_props ps h) as [ps' h1]. simpl in Hps.
    cbn [fst snd]. rewrite tree_at_obj. exists (List.length h1), ps'. repeat split.
    + rewrite length_app. simpl. lia.
    + apply list_lookup_middle. reflexivity.
    + apply (props_at_frame h1); [|exact Hps]. apply frame_app. lia.
Qed.
End AllocTree.

Section TreeRep.
Import Store Layout.

Lemma elems_at_rep_if h es :
  Forall (represented h) es ->
  forall a b es', elems_at h es a b es' -> Forall2 (rep h) es' es.
Proof.
  induction 1 as [|t es Ht _ IH]; intros a b [|x es']; simpl; try tauto.
  - constructor.
  - intros (c & Hc & Hr). constructor; [exact (Ht _ _ _ Hc) | exact (IH _ _ _ Hr)].
Qed.

Lemma props_at_rep_if h ps :
  Forall (fun p => represented h (snd p)) ps ->
  forall a b ps', props_at h ps a b ps' ->
                  Forall2 (fun p' p => fst p' = fst p /\ rep h (snd p') (snd p)) ps' ps.
Proof.
  induction 1 as [|[k t] ps Ht _ IH]; intros a b [|[k' x] ps']; simpl; try tauto.
  - constructor.
  - intros (-> & c & Hc & Hr). constructor; [|exact (IH _ _ _ Hr)].
    split; [reflexivity | exact (Ht _ _ _ Hc)].
Qed.

(** A value that is a tree in the store stands for that tree. *)
Lemma tree_at_rep h t : represented h t.
Proof.
  induction t as [ | | x | n | s | es ps IHes IHps | ps IHps] using jsval_nested_ind;
    intros a b v; try (simpl; intros [_ [= <-]]; constructor).
  - rewrite tree_at_arr. intros (l & es' & ps' & m & -> & -> & Hl & Hes & Hps).
    econstructor; [exact Hl | |].
    + exact (elems_at_rep_if _ _ IHes _ _ _ Hes).
    + exact (props_at_rep_if _ _ IHps _ _ _ Hps).
  - rewrite tree_at_obj. intros (l & ps' & -> & -> & Hl & Hps).
    econstructor; [exact Hl|]. exact (props_at_rep_if _ _ IHps _ _ _ Hps).
Qed.

Lemma props_at_rep h ps a b ps' :
  props_at h ps a b ps' ->
  Forall2 (fun p' p => fst p' = fst p /\ rep h (snd p') (snd p)) ps' ps.
Proof.
  apply props_at_rep_if, Forall_forall. intros t _. apply tree_at_rep.
Qed.
End TreeRep.

Section Serialised.
Import Store Layout.

Lemma text_elems_tree h es stack fuel :
  Forall (serialises h) es ->
  forall a b es',
    elems_at h es a b es' ->
    (forall l, l < b -> on_stack l stack = false) ->
    fold_right Nat.max 0 (map height es) <= fuel ->
    text_elems (stringify fuel h stack) es' = Got (map clone_val es).
Proof.
  induction 1 as [|t es Ht _ IH]; intros a b [|x es']; simpl; try tauto.
  intros (c & Hc & Hr) Hstack Hfuel.
  pose proof (elems_at_le _ _ _ _ _ Hr) as Hcb.
  rewrite (Ht a c x stack fuel Hc); [| intros l Hl; apply Hstack; lia | lia].
  rewrite (IH c b es' Hr Hstack); [|lia].
  destruct t; reflexivity.
Qed.

Lemma text_props_tree h ps stack fuel :
  Forall (fun p => serialises h (snd p)) ps ->
  forall a b ps',
    props_at h ps a b ps' ->
    (forall l, l < b -> on_stack l stack = false) ->
    fold_right Nat.max 0 (map (fun p => height (snd p)) ps) <= fuel ->
    text_props (stringify fuel h stack) ps' = Got (clone_props ps).
Proof.
  induction 1 as [|[k t] ps Ht _ IH]; intros a b [|[k' x] ps']; simpl; try tauto.
  intros (-> & c & Hc & Hr) Hstack Hfuel.
  pose proof (props_at_le _ _ _ _ _ Hr) as Hcb.
  simpl in Ht. rewrite (Ht a c x stack fuel Hc); [| intros l Hl; apply Hstack; lia | lia].
  rewrite (IH c b ps' Hr Hstack); [|lia].
  destruct t; reflexivity.
Qed.

(** The serialiser, on a tree in the store, writes the tree. *)
Lemma stringify_tree h t : serialises h t.
Proof.
  induction t as [ | | x | n | s | es ps IHes IHps | ps IHps] using jsval_nested_ind;
    intros a b v stack fuel;
    try (simpl; intros [_ [= <-]] _ Hfuel; destruct fuel; [lia | reflexivity]).
  - rewrite tree_at_arr. intros (l & es' & ps' & m & -> & -> & Hl & Hes & Hps) Hstack Hfuel.
    pose proof (props_at_le _ _ _ _ _ Hps) as Hml.
    destruct fuel as [|fuel]; [simpl in Hfuel; lia|]. cbn [stringify].
    rewrite (Hstack l) by lia. rewrite Hl.
    rewrite (text_elems_tree h es (l :: stack) fuel IHes a m es' Hes).
    + reflexivity.
    + intros l' Hl'. simpl. rewrite (Hstack l') by lia.
      destruct (Nat.eqb_spec l' l); [lia | reflexivity].
    + simpl in Hfuel. lia.
  - rewrite tree_at_obj. intros (l & ps' & -> & -> & Hl & Hps) Hstack Hfuel.
    destruct fuel as [|fuel]; [simpl in Hfuel; lia|]. cbn [stringify].
    rewrite (Hstack l) by lia. rewrite Hl.
    rewrite (text_props_tree h ps (l :: stack) fuel IHps a l ps' Hps).
    + reflexivity.
    + intros l' Hl'. simpl. rewrite (Hstack l') by lia.
      destruct (Nat.eqb_spec l' l); [lia | reflexivity].
    + simpl in Hfuel. lia.
Qed.

Lemma elems_at_height_if h es :
  Forall (short h) es ->
  forall a b es', elems_at h es a b es' ->
                  fold_right Nat.max 0 (map height es) <= S (b - a).
Proof.
  induction 1 as [|t es Ht _ IH]; intros a b [|x es']; simpl; try tauto; [lia|].
  intros (c & Hc & Hr).
  pose proof (tree_at_bounds _ _ _ _ _ Hc) as [Hac _].
  pose proof (elems_at_le _ _ _ _ _ Hr) as Hcb.
  apply Ht in Hc. apply IH in Hr. lia.
Qed.

Lemma props_at_height_if h ps :
  Forall (fun p => short h (snd p)) ps ->
  forall a b ps', props_at h ps a b ps' ->
                  fold_right Nat.max 0 (map (fun p => height (snd p)) ps) <= S (b - a).
Proof.
  induction 1 as [|[k t] ps Ht _ IH]; intros a b [|[k' x] ps']; simpl; try tauto; [lia|].
  intros (_ & c & Hc & Hr).
  pose proof (tree_at_bounds _ _ _ _ _ Hc) as [Hac _].
  pose proof (props_at_le _ _ _ _ _ Hr) as Hcb.
  simpl in Ht. apply Ht in Hc. apply IH in Hr. lia.
Qed.

(** A tree is no higher than it has cells. *)
Lemma tree_at_height h t : short h t.
Proof.
  induction t as [ | | x | n | s | es ps IHes IHps | ps IHps] using jsval_nested_ind;
    intros a b v; try (simpl; lia).
  - rewrite tree_at_arr. intros (l & es' & ps' & m & -> & -> & Hl & Hes & Hps).
    pose proof (elems_at_le _ _ _ _ _ Hes) as Ham.
    pose proof (props_at_le _ _ _ _ _ Hps) as Hml.
    apply (elems_at_height_if _ _ IHes) in Hes.
    apply (props_at_height_if _ _ IHps) in Hps. cbn [height]. lia.
  - rewrite tree_at_obj. intros (l & ps' & -> & -> & Hl & Hps).
    pose proof (props_at_le _ _ _ _ _ Hps) as Hal.
    apply (props_at_height_if _ _ IHps) in Hps. cbn [height]. lia.
Qed.

(** The copy of a tree in the store is the copy of the tree, built in
    fresh cells. *)
Lemma json_clone_tree h t a b v :
  tree_at h t a b v ->
  Store.json_clone v h =
    match JS.json_clone t with
    | Ok t' => (Ok (fst (alloc t' h)), snd (alloc t' h))
    | Throw e => (Throw e, h)
    end.
Proof.
  intros Ht. unfold Store.json_clone.
  rewrite (stringify_tree h t a b v [] (S (List.length h)) Ht).
  - destruct t; cbn [text JS.json_clone]; try reflexivity;
      match goal with |- context [alloc ?t h] => destruct (alloc t h) end; reflexivity.
  - reflexivity.
  - pose proof (tree_at_height h t a b v Ht).
    pose proof (tree_at_bounds h t a b v Ht) as [Hab Hb].
    destruct (Nat.eq_dec a b); [lia|]. assert (b <= List.length h) by (apply Hb; lia). lia.
Qed.
End Serialised.

Section Cells.
Import Store Layout.

Lemma elems_at_cells_if h es :
  Forall (sized h) es ->
  forall a b es', elems_at h es a b es' -> b = a + fold_right Nat.add 0 (map cells es).
Proof.
  induction 1 as [|t es Ht _ IH]; intros a b [|x es']; simpl; try tauto; [lia|].
  intros (c & Hc & Hr). apply Ht in Hc. apply IH in Hr. lia.
Qed.

Lemma props_at_cells_if h ps :
  Forall (fun p => sized h (snd p)) ps ->
  forall a b ps', props_at h ps a b ps' -> b = a + cells_of ps.
Proof.
  unfold cells_of.
  induction 1 as [|[k t] ps Ht _ IH]; intros a b [|[k' x] ps']; simpl; try tauto; [lia|].
  intros (_ & c & Hc & Hr). simpl in Ht. apply Ht in Hc. apply IH in Hr. lia.
Qed.

(** A tree occupies as many cells as [cells] says. *)
Lemma tree_at_cells h t : sized h t.
Proof.
  induction t as [ | | x | n | s | es ps IHes IHps | ps IHps] using jsval_nested_ind;
    intros a b v; try (simpl; lia).
  - rewrite tree_at_arr. intros (l & es' & ps' & m & -> & -> & Hl & Hes & Hps).
    apply (elems_at_cells_if _ _ IHes) in Hes.
    apply (props_at_cells_if _ _ IHps) in Hps. unfold cells_of in Hps.
    cbn [cells]. lia.
  - rewrite tree_at_obj. intros (l & ps' & -> & -> & Hl & Hps).
    apply (props_at_cells_if _ _ IHps) in Hps. unfold cells_of in Hps.
    cbn [cells]. lia.
Qed.

Lemma props_at_cells h ps a b ps' : props_at h ps a b ps' -> b = a + cells_of ps.
Proof.
  apply props_at_cells_if, Forall_forall. intros t _. apply tree_at_cells.
Qed.
End Cells.

Section Children.
Import Store Layout.

Lemma related_remove_key h k ps' ps :
  related h ps' ps -> related h (remove_key k ps') (remove_key k ps).
Proof.
  induction 1 as [|[k' x] [k0 t] ps' ps [Hk Hx] _ IH]; simpl; [constructor|].
  simpl in Hk. subst k0. destruct (String.eqb k k'); [exact IH|].
  constructor; [split; [reflexivity | exact Hx] | exact IH].
Qed.

Lemma related_put_key h k x t ps' ps :
  rep h x t -> related h ps' ps -> related h (put_key k x ps') (put_key k t ps).
Proof.
  intros Hx. induction 1 as [|[k' x'] [k0 t'] ps' ps [Hk Hx'] Hr IH]; simpl.
  - constructor; [split; [reflexivity | exact Hx] | constructor].
  - simpl in Hk. subst k0. destruct (String.eqb k k').
    + constructor; [split; [reflexivity | exact Hx] | exact Hr].
    + constructor; [split; [reflexivity | exact Hx'] | exact IH].
Qed.

Lemma props_at_related h h' ps a b ps' :
  props_at h ps a b ps' ->
  (forall l, a <= l < b -> h' !! l = h !! l) ->
  related h' ps' ps.
Proof.
  intros Hps Hsame. apply (props_at_rep h' ps a b).
  apply (props_at_frame h); assumption.
Qed.

(** The first property named [k], on both sides, and where its cells
    are. *)
Lemma props_at_assoc h k ps : forall a b ps',
  props_at h ps a b ps' ->
  match assoc k ps' with
  | Some x =>
      exists t, assoc k ps = Some t /\
                tree_at h t (a + offset k ps) (a + offset k ps + cells t) x /\
                a + offset k ps + cells t <= b
  | None => assoc k ps = None
  end.
Proof.
  induction ps as [|[k0 t0] ps IH]; intros a b [|[k0' x0] ps']; simpl; try tauto.
  intros (<- & c & Hc & Hr).
  pose proof (tree_at_cells _ _ _ _ _ Hc) as ->.
  pose proof (props_at_le _ _ _ _ _ Hr) as Hle.
  destruct (String.eqb k k0).
  - exists t0. rewrite Nat.add_0_r. auto.
  - specialize (IH _ _ _ Hr). destruct (assoc k ps') as [x|]; [|exact IH].
    destruct IH as (t & Ht & Hx & Hb). exists t.
    rewrite Nat.add_assoc. auto.
Qed.

(** The cells of two properties of different names do not overlap. *)
Lemma offset_disjoint k1 k2 t1 t2 ps :
  k1 <> k2 -> assoc k1 ps = Some t1 -> assoc k2 ps = Some t2 ->
  offset k1 ps + cells t1 <= offset k2 ps \/ offset k2 ps + cells t2 <= offset k1 ps.
Proof.
  intros Hne. induction ps as [|[k0 t0] ps IH]; simpl; [discriminate|].
  destruct (String.eqb k1 k0) eqn:E1, (String.eqb k2 k0) eqn:E2.
  - apply String.eqb_eq in E1, E2. congruence.
  - intros [= <-] _. left. lia.
  - intros _ [= <-]. right. lia.
  - intros H1 H2. destruct (IH H1 H2); lia.
Qed.

(** What is left when the first property named [k] is taken out stands,
    in a store that differs in the cells of that property only, for the
    rest of the properties. *)
Lemma props_at_remove_related h h' k ps : forall a b ps',
  props_at h ps a b ps' ->
  (forall l, a <= l < b ->
             ~ (a + offset k ps <= l
                < a + offset k ps + cells (default JUndefined (assoc k ps))) ->
             h' !! l = h !! l) ->
  related h' (remove_key k ps') (remove_key k ps).
Proof.
  induction ps as [|[k0 t0] ps IH]; intros a b [|[k0' x0] ps']; simpl; try tauto.
  - intros _ _. constructor.
  - intros (<- & c & Hc & Hr) Hsame.
    pose proof (tree_at_cells _ _ _ _ _ Hc) as ->.
    pose proof (props_at_le _ _ _ _ _ Hr) as Hle.
    destruct (String.eqb k k0) eqn:E.
    + apply related_remove_key.
      apply (props_at_related h h' ps (a + cells t0) b); [exact Hr|].
      intros l Hl. apply Hsame; [lia|]. simpl. lia.
    + constructor.
      * split; [reflexivity|]. apply (tree_at_rep h' t0 a (a + cells t0)).
        apply (tree_at_frame h); [|exact Hc].
        intros l Hl. apply Hsame; lia.
      * apply (IH (a + cells t0) b); [exact Hr|].
        intros l Hl Hout. apply Hsame; [lia|]. lia.
Qed.

(** A value with a cell: the cell, and how to show that the value stands
    for a tree with other named properties in another store. *)
Lemma tree_at_cell h t a b v :
  has_cell t = true ->
  tree_at h t a b v ->
  exists l c,
    b = S l /\ v = VRef l /\ h !! l = Some c /\
    JS.is_array t = match c with CArr _ _ => true | CObj _ => false end /\
    props_at h (named_in t) (a + elems_cells t) l (named_of c) /\
    forall h' qs' qs,
      (forall l', a <= l' < a + elems_cells t -> h' !! l' = h !! l') ->
      h' !! l = Some (with_named c qs') ->
      related h' qs' qs ->
      rep h' (VRef l) (with_named_in t qs).
Proof.
  destruct t as [ | | | | | es ps | ps]; try discriminate; intros _.
  - rewrite tree_at_arr. intros (l & es' & ps' & m & -> & -> & Hl & Hes & Hps).
    pose proof (elems_at_cells_if h es) as Hm.
    specialize (Hm (proj2 (Forall_forall _ _) (fun t _ => tree_at_cells h t)) _ _ _ Hes).
    subst m. exists l, (CArr es' ps'). repeat split; try assumption.
    intros h' qs' qs Hsame Hl' Hq. simpl in *. econstructor; [exact Hl' | | exact Hq].
    apply (elems_at_rep_if h' es) with (a := a)
                                        (b := a + fold_right Nat.add 0 (map cells es)).
    + apply Forall_forall. intros t _. apply tree_at_rep.
    + apply (elems_at_frame h); assumption.
  - rewrite tree_at_obj. intros (l & ps' & -> & -> & Hl & Hps).
    exists l, (CObj ps'). simpl. rewrite Nat.add_0_r. repeat split; try assumption.
    intros h' qs' qs _ Hl' Hq. econstructor; [exact Hl' | exact Hq].
Qed.

Lemma tree_at_no_cell h t a b v :
  has_cell t = false -> tree_at h t a b v -> a = b /\ prim_of t = Some v.
Proof. destruct t; try discriminate; simpl; tauto. Qed.
End Children.

Section Steps.
Import Store Layout.

Lemma forStorage_unfold v :
  TransformData.transformValueForStorage v
  = JS.bind (lift (JS.json_clone v)) Rest.forStorage_rest.
Proof. reflexivity. Qed.

Lemma fromStorage_unfold v :
  TransformData.transformValueFromStorage v
  = JS.bind (lift (JS.json_clone v)) Rest.fromStorage_rest.
Proof. reflexivity. Qed.

Lemma store_forStorage_unfold v :
  Store.transformValueForStorage v
  = Store.bind (Store.json_clone v) StoreRest.forStorage_rest.
Proof. reflexivity. Qed.

Lemma store_fromStorage_unfold v :
  Store.transformValueFromStorage v
  = Store.bind (Store.json_clone v) StoreRest.fromStorage_rest.
Proof. reflexivity. Qed.

Lemma st_bind_ok {A B} (m : St A) (k : A -> St B) h a h' :
  m h = (Ok a, h') -> Store.bind m k h = k a h'.
Proof. unfold Store.bind. intros ->. reflexivity. Qed.

Lemma st_bind_throw {A B} (m : St A) (k : A -> St B) h e h' :
  m h = (Throw e, h') -> Store.bind m k h = (Throw e, h').
Proof. unfold Store.bind. intros ->. reflexivity. Qed.

Lemma st_get_prop l k (h : store) c :
  h !! l = Some c ->
  Store.get_prop (VRef l) k h = (Ok (default VUndefined (assoc k (named_of c))), h).
Proof. unfold Store.get_prop. intros ->. reflexivity. Qed.

Lemma st_delete_prop l k (h : store) c :
  h !! l = Some c ->
  Store.delete_prop (VRef l) k h
  = (Ok tt, <[l := with_named c (remove_key k (named_of c))]> h).
Proof. unfold Store.delete_prop. intros ->. reflexivity. Qed.

Lemma st_set_prop l k x (h : store) c :
  h !! l = Some c ->
  Store.set_prop (VRef l) k x h
  = (Ok tt, <[l := with_named c (put_key k x (named_of c))]> h).
Proof. unfold Store.set_prop. intros ->. reflexivity. Qed.

Lemma st_is_array l (h : store) c :
  h !! l = Some c ->
  Store.is_array (VRef l) h
  = (Ok match c with CArr _ _ => true | CObj _ => false end, h).
Proof. unfold Store.is_array. intros ->. destruct c; reflexivity. Qed.

Lemma get_prop_cell t k :
  has_cell t = true ->
  JS.get_prop t k = Ok (default JUndefined (assoc k (named_in t))).
Proof. destruct t; try discriminate; reflexivity. Qed.

Lemma delete_prop_cell t k :
  has_cell t = true ->
  JS.delete_prop t k = Ok (with_named_in t (remove_key k (named_in t))).
Proof. destruct t; try discriminate; reflexivity. Qed.

Lemma set_prop_cell t k x :
  has_cell t = true ->
  JS.set_prop t k x = Ok (with_named_in t (put_key k x (named_in t))).
Proof. destruct t; try discriminate; reflexivity. Qed.

Lemma is_array_no_cell t : has_cell t = false -> JS.is_array t = false.
Proof. destruct t; try discriminate; reflexivity. Qed.

Lemma named_with_named c ps : named_of (with_named c ps) = ps.
Proof. destruct c; reflexivity. Qed.

Lemma with_named_twice c ps qs : with_named (with_named c ps) qs = with_named c qs.
Proof. destruct c; reflexivity. Qed.

Lemma has_cell_with_named t ps : has_cell (with_named_in t ps) = has_cell t.
Proof. destruct t; reflexivity. Qed.

Lemma named_in_with_named t ps :
  has_cell t = true -> named_in (with_named_in t ps) = ps.
Proof. destruct t; try discriminate; reflexivity. Qed.

Lemma with_named_in_twice t ps qs :
  with_named_in (with_named_in t ps) qs = with_named_in t qs.
Proof. destruct t; reflexivity. Qed.

(** A primitive value of the store and the tree it stands for. *)
Lemma prim_rep h t v : prim_of t = Some v -> rep h v t.
Proof. destruct t; simpl; intros [= <-]; constructor. Qed.
End Steps.

Section ForStorage.
Import Store Layout.

Lemma refines_ok run m t res h' :
  JS.outcome m = Ok t -> run = (Ok res, h') -> rep h' res t -> refines run m.
Proof. unfold refines. intros -> -> Hr. exists res. auto. Qed.

Lemma refines_throw run m e h' :
  JS.outcome m = Throw e -> run = (Throw e, h') -> refines run m.
Proof. unfold refines. intros -> ->. reflexivity. Qed.

Lemma st_new_object ps (h : store) :
  new_object ps h = (Ok (VRef (List.length h)), (h ++ [CObj ps])%list).
Proof. reflexivity. Qed.

Ltac prim_case :=
  match goal with
  | Hp : prim_of ?t = Some ?v |- _ =>
      destruct t; try discriminate; simpl in Hp; injection Hp as <-
  end.

(** Lookups in a store obtained by updates and an allocation. *)
Ltac store_lookup :=
  rewrite ?lookup_app_l by (rewrite ?length_insert; lia);
  repeat first
    [ rewrite list_lookup_insert_eq by (rewrite ?length_insert; lia)
    | rewrite list_lookup_insert_ne by lia ];
  try reflexivity; try assumption.

Lemma forStorage_rest_refines h t a b v :
  tree_at h t a b v ->
  refines (StoreRest.forStorage_rest v h) (Rest.forStorage_rest t).
Proof.
  intros Ht. destruct (has_cell t) eqn:Hc.
  2: { destruct (tree_at_no_cell _ _ _ _ _ Hc Ht) as [_ Hp].
       prim_case; vm_compute; reflexivity. }
  destruct (tree_at_cell _ _ _ _ _ Hc Ht) as (l & c & -> & -> & Hl & Harr & Hps & Hrep).
  pose proof (lookup_lt_Some _ _ _ Hl) as Hlen.
  unfold Rest.forStorage_rest, StoreRest.forStorage_rest.
  rewrite (get_prop_cell _ _ Hc), bind_lift_ok, (delete_prop_cell _ _ Hc), bind_lift_ok.
  rewrite (st_bind_ok _ _ _ _ _ (st_get_prop l "_d" h c Hl)).
  rewrite (st_bind_ok _ _ _ _ _ (st_delete_prop l "_d" h c Hl)).
  pose proof (props_at_assoc h "_d" _ _ _ _ Hps) as Hd.
  pose proof (props_at_remove_related h) as Hrest.
  specialize (fun h' => Hrest h' "_d" _ _ _ _ Hps).
  destruct (assoc "_d" (named_of c)) as [x|] eqn:Hx.
  2: { rewrite Hd. eapply refines_throw; reflexivity. }
  destruct Hd as (td & Htd & Hxd & Hbd). rewrite Htd in *. cbn [default from_option id] in *.
  set (value' := with_named_in t (remove_key "_d" (named_in t))) in *.
  set (c' := with_named c (remove_key "_d" (named_of c))) in *.
  destruct (has_cell td) eqn:Hcd.
  - destruct (tree_at_cell _ _ _ _ _ Hcd Hxd)
      as (ld & cd & Hbd' & -> & Hld & Harrd & Hpsd & Hrepd).
    assert (Hld1 : <[l := c']> h !! ld = Some cd) by store_lookup.
    rewrite (st_bind_ok _ _ _ _ _ (st_is_array ld _ cd Hld1)). rewrite Harrd.
    pose proof (props_at_le _ _ _ _ _ Hpsd) as Hpd.
    destruct cd as [dps' | des' dps'].
    + rewrite (get_prop_cell _ _ Hcd), bind_lift_ok, (delete_prop_cell _ _ Hcd), bind_lift_ok.
      rewrite bind_emit.
      rewrite (st_bind_ok _ _ _ _ _ (st_get_prop ld "_rels" _ _ Hld1)).
      rewrite (st_bind_ok _ _ _ _ _ (st_delete_prop ld "_rels" _ _ Hld1)).
      rewrite st_new_object. cbn [named_of with_named].
      eapply refines_ok; [reflexivity | reflexivity |].
      econstructor; [apply list_lookup_middle; reflexivity|].
      repeat constructor; cbn [fst snd].
      * apply (Hrepd _ (remove_key "_rels" dps')).
        -- intros l' Hl'. store_lookup.
        -- store_lookup.
        -- apply (props_at_remove_related h _ "_rels" _ _ _ _ Hpsd).
           intros l0 Hl0 _. store_lookup.
      * pose proof (props_at_assoc h "_rels" _ _ _ _ Hpsd) as Hr. cbn [named_of] in Hr.
        destruct (assoc "_rels" dps') as [xr|].
        -- destruct Hr as (tr & -> & Hxr & Hbr). cbn [default from_option id].
           eapply tree_at_rep. apply (tree_at_frame h); [|exact Hxr].
           intros l' Hl'. store_lookup.
        -- rewrite Hr. constructor.
      * apply (Hrep _ (remove_key "_d" (named_of c))).
        -- intros l' Hl'. store_lookup.
        -- store_lookup.
        -- apply Hrest. intros l0 Hl0 Hout. store_lookup.
    + rewrite st_new_object.
      eapply refines_ok; [reflexivity | reflexivity |].
      econstructor; [apply list_lookup_middle; reflexivity|].
      repeat constructor; cbn [fst snd].
      * eapply tree_at_rep. apply (tree_at_frame h); [|exact Hxd].
        intros l' Hl'. store_lookup.
      * apply (Hrep _ (remove_key "_d" (named_of c))).
        -- intros l' Hl'. store_lookup.
        -- store_lookup.
        -- apply Hrest. intros l0 Hl0 Hout. store_lookup.
  - destruct (tree_at_no_cell _ _ _ _ _ Hcd Hxd) as [_ Hp].
    prim_case; try (eapply refines_throw; reflexivity);
      (eapply refines_ok; [reflexivity | reflexivity |];
       econstructor; [apply list_lookup_middle; reflexivity|];
       repeat constructor; cbn [fst snd];
       apply (Hrep _ (remove_key "_d" (named_of c)));
       [ intros l' Hl'; store_lookup
       | store_lookup
       | apply Hrest; intros l0 Hl0 Hout; store_lookup ]).
Qed.
End ForStorage.

Section FromStorage.
Import Store Layout.

Lemma assoc_put_key_eq {A} k (x : A) ps : assoc k (put_key k x ps) = Some x.
Proof.
  induction ps as [|[k' y] ps IH]; simpl.
  - rewrite String.eqb_refl. reflexivity.
  - destruct (String.eqb k k') eqn:E; simpl.
    + rewrite String.eqb_refl. reflexivity.
    + rewrite E. exact IH.
Qed.

Lemma put_key_twice {A} k (x y : A) ps : put_key k y (put_key k x ps) = put_key k y ps.
Proof.
  induction ps as [|[k' z] ps IH]; simpl.
  - rewrite String.eqb_refl. reflexivity.
  - destruct (String.eqb k k') eqn:E; simpl.
    + rewrite String.eqb_refl. reflexivity.
    + rewrite E, IH. reflexivity.
Qed.

Lemma truthy_prim t v : prim_of t = Some v -> Store.truthy v = JS.truthy t.
Proof. destruct t; simpl; intros [= <-]; reflexivity. Qed.

Lemma truthy_cell t : has_cell t = true -> JS.truthy t = true.
Proof. destruct t; try discriminate; reflexivity. Qed.

Ltac prim_case :=
  match goal with
  | Hp : prim_of ?t = Some ?v |- _ =>
      destruct t; try discriminate; simpl in Hp; injection Hp as <-
  end.

Ltac store_lookup :=
  rewrite ?lookup_app_l by (rewrite ?length_insert; lia);
  repeat first
    [ rewrite list_lookup_insert_eq by (rewrite ?length_insert; lia)
    | rewrite list_lookup_insert_ne by lia ];
  try reflexivity; try assumption.

Lemma offset_le k ps : offset k ps <= cells_of ps.
Proof.
  unfold cells_of. induction ps as [|[k0 t0] ps IH]; simpl; [lia|].
  destruct (String.eqb k k0); lia.
Qed.

(** The property named [k] of a value with a cell, undefined when there
    is none: the same on both sides, and a tree in cells of its own. *)
Lemma props_at_child h k ps a b ps' :
  props_at h ps a b ps' ->
  tree_at h (default JUndefined (assoc k ps))
          (a + offset k ps)
          (a + offset k ps + cells (default JUndefined (assoc k ps)))
          (default VUndefined (assoc k ps')) /\
  a + offset k ps + cells (default JUndefined (assoc k ps)) <= b.
Proof.
  intros Hps. pose proof (props_at_assoc h k ps a b ps' Hps) as H.
  destruct (assoc k ps') as [x|].
  - destruct H as (t & -> & Hx & Hb). auto.
  - rewrite H. simpl. pose proof (props_at_cells _ _ _ _ _ Hps).
    pose proof (offset_le k ps). split; [split; [lia | reflexivity] | lia].
Qed.

(** The cells of two properties of different names are apart. *)
Lemma offset_apart k1 k2 ps n :
  k1 <> k2 ->
  ~ (offset k1 ps <= n < offset k1 ps + cells (default JUndefined (assoc k1 ps)) /\
     offset k2 ps <= n < offset k2 ps + cells (default JUndefined (assoc k2 ps))).
Proof.
  intros Hne. revert n. induction ps as [|[k0 t0] ps IH]; intros n; simpl; [lia|].
  destruct (String.eqb k1 k0) eqn:E1, (String.eqb k2 k0) eqn:E2; simpl.
  - apply String.eqb_eq in E1, E2. congruence.
  - lia.
  - lia.
  - specialize (IH (n - cells t0)). lia.
Qed.

Lemma is_array_tree (h h1 : store) t a b x :
  tree_at h t a b x ->
  (forall l', a <= l' < b -> h1 !! l' = h !! l') ->
  Store.is_array x h1 = (Ok (JS.is_array t), h1).
Proof.
  intros Ht Hsame. destruct (has_cell t) eqn:Hc.
  - destruct (tree_at_cell _ _ _ _ _ Hc Ht) as (l & c & -> & -> & Hl & Harr & Hps & _).
    pose proof (props_at_le _ _ _ _ _ Hps) as Hab.
    rewrite Harr. apply st_is_array. rewrite Hsame by lia. exact Hl.
  - destruct (tree_at_no_cell _ _ _ _ _ Hc Ht) as [_ Hp].
    destruct t; try discriminate; simpl in Hp; injection Hp as <-; reflexivity.
Qed.

Lemma truthy_tree h t a b x : tree_at h t a b x -> Store.truthy x = JS.truthy t.
Proof.
  intros Ht. destruct (has_cell t) eqn:Hc.
  - destruct (tree_at_cell _ _ _ _ _ Hc Ht) as (l & c & -> & -> & _).
    rewrite (truthy_cell _ Hc). reflexivity.
  - destruct (tree_at_no_cell _ _ _ _ _ Hc Ht) as [_ Hp]. apply truthy_prim. exact Hp.
Qed.

Lemma st_set_prop_prim t v k x (h : store) :
  has_cell t = false -> prim_of t = Some v ->
  Store.set_prop v k x h = (Throw TypeError, h).
Proof. destruct t; try discriminate; simpl; intros _ [= <-]; reflexivity. Qed.

Lemma set_prop_no_cell t k x : has_cell t = false -> JS.set_prop t k x = Throw TypeError.
Proof. destruct t; try discriminate; reflexivity. Qed.

Lemma fromStorage_rest_refines h t a b v :
  tree_at h t a b v ->
  refines (StoreRest.fromStorage_rest v h) (Rest.fromStorage_rest t).
Proof.
  intros Ht. destruct (has_cell t) eqn:Hc.
  2: { destruct (tree_at_no_cell _ _ _ _ _ Hc Ht) as [_ Hp].
       unfold Rest.fromStorage_rest, StoreRest.fromStorage_rest.
       rewrite (truthy_prim _ _ Hp).
       destruct (JS.truthy t) eqn:Htr; cbn [negb].
       - prim_case; try discriminate; eapply refines_throw; reflexivity.
       - eapply refines_ok; [reflexivity | reflexivity | constructor]. }
  destruct (tree_at_cell _ _ _ _ _ Hc Ht) as (l & c & -> & -> & Hl & Harr & Hps & Hrep).
  pose proof (lookup_lt_Some _ _ _ Hl) as Hlen.
  unfold Rest.fromStorage_rest, StoreRest.fromStorage_rest.
  rewrite (truthy_cell _ Hc). cbn [Store.truthy negb].
  rewrite (get_prop_cell _ _ Hc), bind_lift_ok, (delete_prop_cell _ _ Hc), bind_lift_ok.
  rewrite (st_bind_ok _ _ _ _ _ (st_get_prop l "__ds" h c Hl)).
  rewrite (st_bind_ok _ _ _ _ _ (st_delete_prop l "__ds" h c Hl)).
  set (c1 := with_named c (remove_key "__ds" (named_of c))).
  set (t1 := with_named_in t (remove_key "__ds" (named_in t))).
  assert (Hc1 : has_cell t1 = true) by (unfold t1; rewrite has_cell_with_named; exact Hc).
  assert (Hn1 : named_in t1 = remove_key "__ds" (named_in t))
    by (apply named_in_with_named; exact Hc).
  assert (Hl1 : <[l := c1]> h !! l = Some c1) by store_lookup.
  rewrite (get_prop_cell _ _ Hc1), bind_lift_ok, Hn1.
  rewrite (st_bind_ok _ _ _ _ _ (st_get_prop l "__dsList" _ _ Hl1)).
  unfold c1 at 1. rewrite named_with_named.
  rewrite !(assoc_remove_key_ne "__ds" "__dsList") by discriminate.
  (* the four properties the code reads *)
  destruct (props_at_child h "__ds" _ _ _ _ Hps) as [Hds Hdsb].
  destruct (props_at_child h "__dsList" _ _ _ _ Hps) as [Hli Hlib].
  destruct (props_at_child h "_props" _ _ _ _ Hps) as [Hpr Hprb].
  destruct (props_at_child h "_rels" _ _ _ _ Hps) as [Hre Hreb].
  pose proof (fun n => offset_apart "__ds" "__dsList" (named_in t) n ltac:(discriminate)) as A1.
  pose proof (fun n => offset_apart "__ds" "_props" (named_in t) n ltac:(discriminate)) as A2.
  pose proof (fun n => offset_apart "__ds" "_rels" (named_in t) n ltac:(discriminate)) as A3.
  pose proof (fun n => offset_apart "_props" "_rels" (named_in t) n ltac:(discriminate)) as A4.
  assert (Hn1' : named_of c1 = remove_key "__ds" (named_of c)) by apply named_with_named.
  remember (default VUndefined (assoc "__ds" (named_of c))) as x_ds eqn:Ex_ds.
  remember (default JUndefined (assoc "__ds" (named_in t))) as t_ds eqn:Et_ds.
  remember (default VUndefined (assoc "__dsList" (named_of c))) as x_li eqn:Ex_li.
  remember (default JUndefined (assoc "__dsList" (named_in t))) as t_li eqn:Et_li.
  remember (default VUndefined (assoc "_props" (named_of c))) as x_pr eqn:Ex_pr.
  remember (default JUndefined (assoc "_props" (named_in t))) as t_pr eqn:Et_pr.
  remember (default VUndefined (assoc "_rels" (named_of c))) as x_re eqn:Ex_re.
  remember (default JUndefined (assoc "_rels" (named_in t))) as t_re eqn:Et_re.
  remember (a + elems_cells t) as m eqn:Em.
  rewrite Hn1', (assoc_remove_key_ne "__ds" "__dsList"), <- Ex_li by discriminate.
  set (h1 := <[l := c1]> h) in *.
  assert (Harr_li : Store.is_array x_li h1 = (Ok (JS.is_array t_li), h1)).
  { apply (is_array_tree h h1 _ _ _ _ Hli). intros l' Hl'. unfold h1. store_lookup. }
  rewrite (st_bind_ok _ _ _ _ _ Harr_li).
  assert (Hget_t : forall k, k <> "__ds" ->
            JS.get_prop t1 k = Ok (default JUndefined (assoc k (named_in t)))).
  { intros k Hk. rewrite (get_prop_cell _ _ Hc1), Hn1, assoc_remove_key_ne by congruence.
    reflexivity. }
  assert (Hget : forall (h' : store) k, k <> "__ds" -> h' !! l = Some c1 ->
            Store.get_prop (VRef l) k h'
            = (Ok (default VUndefined (assoc k (named_of c))), h')).
  { intros h' k Hk Hl'. rewrite (st_get_prop _ _ _ _ Hl'), Hn1', assoc_remove_key_ne by congruence.
    reflexivity. }
  destruct (JS.is_array t_li) eqn:Hal.
  - destruct (has_cell t_ds) eqn:Hcd.
    + destruct (tree_at_cell _ _ _ _ _ Hcd Hds)
        as (ld & cd & Hend & -> & Hld & _ & Hpsd & Hrepd).
      pose proof (props_at_le _ _ _ _ _ Hpsd) as Hdle.
      assert (Hld1 : h1 !! ld = Some cd) by (unfold h1; store_lookup).
      rewrite (st_bind_ok _ _ _ _ _ (st_set_prop ld "_d" x_li h1 cd Hld1)).
      rewrite (set_prop_cell _ _ _ Hcd).
      eapply refines_ok; [reflexivity | reflexivity |].
      apply (Hrepd _ (put_key "_d" x_li (named_of cd))).
      * intros l' Hl'. unfold h1. store_lookup.
      * unfold h1. store_lookup.
      * apply related_put_key.
        -- eapply tree_at_rep. apply (tree_at_frame h); [|exact Hli].
           intros l' Hl'. pose proof (A1 (l' - m)). unfold h1. store_lookup.
        -- apply (props_at_related h _ _ _ _ _ Hpsd).
           intros l' Hl'. unfold h1. store_lookup.
    + destruct (tree_at_no_cell _ _ _ _ _ Hcd Hds) as [_ Hp].
      eapply refines_throw.
      * rewrite (set_prop_no_cell _ _ _ Hcd). reflexivity.
      * rewrite (st_bind_throw _ _ _ _ _ (st_set_prop_prim _ _ _ _ _ Hcd Hp)). reflexivity.
  - rewrite (Hget_t "_props") by discriminate. rewrite <- Et_pr, bind_lift_ok.
    rewrite (st_bind_ok _ _ _ _ _ (Hget h1 "_props" ltac:(discriminate) Hl1)), <- Ex_pr.
    destruct (has_cell t_ds) eqn:Hcd.
    2: { destruct (tree_at_no_cell _ _ _ _ _ Hcd Hds) as [_ Hp].
         eapply refines_throw.
         - rewrite (set_prop_no_cell _ _ _ Hcd). reflexivity.
         - rewrite (st_bind_throw _ _ _ _ _ (st_set_prop_prim _ _ _ _ _ Hcd Hp)).
           reflexivity. }
    destruct (tree_at_cell _ _ _ _ _ Hcd Hds)
      as (ld & cd & Hend & -> & Hld & _ & Hpsd & Hrepd).
    pose proof (props_at_le _ _ _ _ _ Hpsd) as Hdle.
    assert (Hld1 : h1 !! ld = Some cd) by (unfold h1; store_lookup).
    rewrite (st_bind_ok _ _ _ _ _ (st_set_prop ld "_d" x_pr h1 cd Hld1)).
    rewrite (set_prop_cell _ _ _ Hcd), bind_lift_ok.
    set (cd' := with_named cd (put_key "_d" x_pr (named_of cd))).
    set (data1 := with_named_in t_ds (put_key "_d" t_pr (named_in t_ds))).
    set (h2 := <[ld := cd']> h1).
    assert (Hcd1 : has_cell data1 = true)
      by (unfold data1; rewrite has_cell_with_named; exact Hcd).
    assert (Hnd1 : named_in data1 = put_key "_d" t_pr (named_in t_ds))
      by (apply named_in_with_named; exact Hcd).
    assert (Hl2 : h2 !! l = Some c1) by (unfold h2, h1; store_lookup).
    assert (Hld2 : h2 !! ld = Some cd') by (unfold h2, h1; store_lookup).
    rewrite (truthy_tree _ _ _ _ _ Hpr).
    destruct (JS.truthy t_pr) eqn:Htp.
    + rewrite (get_prop_cell _ _ Hcd1), Hnd1, assoc_put_key_eq, bind_lift_ok.
      cbn [default from_option id].
      rewrite (Hget_t "_rels") by discriminate. rewrite <- Et_re, bind_lift_ok.
      assert (Hinner : (d <- get_prop (VRef ld) "_d";;
                        rels <- get_prop (VRef l) "_rels";;
                        set_prop d "_rels" rels)%store h2
                       = set_prop x_pr "_rels" x_re h2).
      { rewrite (st_bind_ok _ _ _ _ _ (st_get_prop ld "_d" h2 cd' Hld2)).
        unfold cd'. rewrite named_with_named, assoc_put_key_eq.
        cbn [default from_option id].
        rewrite (st_bind_ok _ _ _ _ _ (Hget h2 "_rels" ltac:(discriminate) Hl2)), <- Ex_re.
        reflexivity. }
      destruct (has_cell t_pr) eqn:Hcp.
      2: { destruct (tree_at_no_cell _ _ _ _ _ Hcp Hpr) as [_ Hp].
           eapply refines_throw.
           - rewrite (set_prop_no_cell _ _ _ Hcp). reflexivity.
           - rewrite (st_bind_throw _ _ _ _ _
                        (eq_trans Hinner (st_set_prop_prim _ _ _ _ _ Hcp Hp))).
             reflexivity. }
      destruct (tree_at_cell _ _ _ _ _ Hcp Hpr)
        as (lp & cp & Hendp & -> & Hlp & _ & Hpsp & Hrepp).
      pose proof (props_at_le _ _ _ _ _ Hpsp) as Hple.
      pose proof (A2 (lp - m)) as Hap.
      assert (Hlp2 : h2 !! lp = Some cp) by (unfold h2, h1; store_lookup).
      rewrite (st_bind_ok _ _ _ _ _
                 (eq_trans Hinner (st_set_prop lp "_rels" x_re h2 cp Hlp2))).
      set (cp' := with_named cp (put_key "_rels" x_re (named_of cp))).
      set (h3 := <[lp := cp']> h2).
      assert (Hl3 : h3 !! l = Some c1) by (unfold h3, h2, h1; store_lookup).
      rewrite (st_bind_ok _ _ _ _ _ (st_delete_prop l "_rels" h3 c1 Hl3)).
      rewrite (set_prop_cell _ _ _ Hcp), bind_lift_ok.
      rewrite (set_prop_cell _ _ _ Hcd1), bind_lift_ok, Hnd1, put_key_twice.
      unfold data1. rewrite with_named_in_twice.
      rewrite (delete_prop_cell _ _ Hc1), bind_lift_ok.
      eapply refines_ok; [reflexivity | reflexivity |].
      apply (Hrepd _ (put_key "_d" (VRef lp) (named_of cd))).
      * intros l' Hl'. unfold h3, h2, h1. store_lookup.
      * unfold h3, h2, h1. store_lookup.
      * apply related_put_key.
        -- apply (Hrepp _ (put_key "_rels" x_re (named_of cp))).
           ++ intros l' Hl'. pose proof (A2 (l' - m)). unfold h3, h2, h1. store_lookup.
           ++ unfold h3, h2, h1. store_lookup.
           ++ apply related_put_key.
              ** eapply tree_at_rep. apply (tree_at_frame h); [|exact Hre].
                 intros l' Hl'. pose proof (A3 (l' - m)). pose proof (A4 (l' - m)).
                 unfold h3, h2, h1. store_lookup.
              ** apply (props_at_related h _ _ _ _ _ Hpsp).
                 intros l' Hl'. pose proof (A2 (l' - m)). unfold h3, h2, h1. store_lookup.
        -- apply (props_at_related h _ _ _ _ _ Hpsd).
           intros l' Hl'. pose proof (A2 (l' - m)). unfold h3, h2, h1. store_lookup.
    + rewrite bind_ret.
      rewrite (delete_prop_cell _ _ Hc1), bind_lift_ok.
      rewrite (st_bind_ok _ _ _ _ _ (eq_refl : Store.ret tt h2 = (Ok tt, h2))).
      rewrite (st_bind_ok _ _ _ _ _ (st_delete_prop l "_rels" h2 c1 Hl2)).
      eapply refines_ok; [reflexivity | reflexivity |].
      apply (Hrepd _ (put_key "_d" x_pr (named_of cd))).
      * intros l' Hl'. unfold h2, h1. store_lookup.
      * unfold h2, h1. store_lookup.
      * apply related_put_key.
        -- eapply tree_at_rep. apply (tree_at_frame h); [|exact Hpr].
           intros l' Hl'. pose proof (A2 (l' - m)). unfold h2, h1. store_lookup.
        -- apply (props_at_related h _ _ _ _ _ Hpsd).
           intros l' Hl'. unfold h2, h1. store_lookup.
Qed.

(** Over a value that is a tree in the store, each transform over the
    store ends as the transform on values does on that tree. *)
Theorem store_refines_values h t a b v :
  tree_at h t a b v ->
  refines (Store.transformValueForStorage v h) (TransformData.transformValueForStorage t) /\
  refines (Store.transformValueFromStorage v h) (TransformData.transformValueFromStorage t).
Proof.
  intros Ht.
  rewrite forStorage_unfold, fromStorage_unfold.
  rewrite store_forStorage_unfold, store_fromStorage_unfold.
  pose proof (json_clone_tree h t a b v Ht) as Hclone.
  destruct (JS.json_clone t) as [t'|e].
  - rewrite !(st_bind_ok _ _ _ _ _ Hclone), !bind_lift_ok.
    pose proof (alloc_tree_at t' h) as Ht'. split.
    + exact (forStorage_rest_refines _ _ _ _ _ Ht').
    + exact (fromStorage_rest_refines _ _ _ _ _ Ht').
  - rewrite !(st_bind_throw _ _ _ _ _ Hclone). split; reflexivity.
Qed.

(** In particular for a tree built in any store by [alloc]. *)
Corollary store_refines_values_built t h :
  refines (Store.transformValueForStorage (fst (alloc t h)) (snd (alloc t h)))
          (TransformData.transformValueForStorage t) /\
  refines (Store.transformValueFromStorage (fst (alloc t h)) (snd (alloc t h)))
          (TransformData.transformValueFromStorage t).
Proof. exact (store_refines_values _ _ _ _ _ (alloc_tree_at t h)). Qed.
End FromStorage.

(* ================================================================== *)
(** * Values whose cells are shared *)
(* ================================================================== *)

Section Held.
Import Store Layout.

Lemma elems_single h es :
  Forall (single h) es ->
  forall vs es', Forall2 (rep h) vs es -> Forall2 (rep h) vs es' -> es = es'.
Proof.
  induction 1 as [|t es Ht _ IH]; intros vs es' H1 H2.
  - inversion H1; subst. inversion H2. reflexivity.
  - inversion H1 as [|x t0 vs0 es0 Hx Hr]; subst.
    inversion H2 as [|x' t' vs' es1 Hx' Hr']; subst.
    f_equal; [exact (Ht _ _ Hx Hx') | exact (IH _ _ Hr Hr')].
Qed.

Lemma props_single h (ps : list (string * jsval)) :
  Forall (fun p => single h (snd p)) ps ->
  forall vs ps', related h vs ps -> related h vs ps' -> ps = ps'.
Proof.
  induction 1 as [|[k t] ps Ht _ IH]; intros vs ps' H1 H2.
  - inversion H1; subst. inversion H2. reflexivity.
  - inversion H1 as [|[k0 x] p0 vs0 ps0 [Hk Hx] Hr]; subst.
    inversion H2 as [|p1 [k' t'] vs' ps1 [Hk' Hx'] Hr']; subst.
    simpl in *. subst. f_equal; [|exact (IH _ _ Hr Hr')].
    f_equal. exact (Ht _ _ Hx Hx').
Qed.

Lemma rep_single h t : single h t.
Proof.
  induction t as [ | | x | n | s | es ps IHes IHps | ps IHps] using jsval_nested_ind;
    intros v t' H1 H2; try (inversion H1; subst; inversion H2; reflexivity).
  - inversion H1 as [ | | | | | l vs qs es0 ps0 Hl Hes Hps | ]; subst.
    inversion H2 as [ | | | | | l' vs' qs' es1 ps1 Hl' Hes' Hps' | l' qs' ps1 Hl' Hps' ]; subst;
      rewrite Hl in Hl'; [|discriminate]. injection Hl' as <- <-.
    f_equal; [exact (elems_single h es IHes _ _ Hes Hes') |
              exact (props_single h ps IHps _ _ Hps Hps')].
  - inversion H1 as [ | | | | | | l qs ps0 Hl Hps ]; subst.
    inversion H2 as [ | | | | | l' vs' qs' es1 ps1 Hl' Hes' Hps' | l' qs' ps1 Hl' Hps' ]; subst;
      rewrite Hl in Hl'; [discriminate|]. injection Hl' as <-.
    f_equal. exact (props_single h ps IHps _ _ Hps Hps').
Qed.

Lemma on_stack_cons l l' stack :
  on_stack l (l' :: stack) = Nat.eqb l l' || on_stack l stack.
Proof. reflexivity. Qed.

(** The objects around a child are those around its parent, and the
    parent. *)
Lemma around_child h stack l t e :
  rep h (VRef l) t -> around h stack t -> height e < height t ->
  around h (l :: stack) e.
Proof.
  intros Ht Hst He l'. rewrite on_stack_cons. intros [Hl | Hl]%orb_prop.
  - apply Nat.eqb_eq in Hl. subst l'. exists t. split; [exact Ht | exact He].
  - destruct (Hst l' Hl) as (t' & Ht' & Hlt). exists t'. split; [exact Ht' | lia].
Qed.

Lemma text_elems_rep h l stack fuel t es :
  Forall (written h) es ->
  rep h (VRef l) t -> around h stack t ->
  (forall e, In e es -> height e < height t) ->
  fold_right Nat.max 0 (map height es) <= fuel ->
  forall vs, Forall2 (rep h) vs es ->
             text_elems (stringify fuel h (l :: stack)) vs = Got (map clone_val es).
Proof.
  intros Hw Ht Hst. induction Hw as [|e es He _ IH]; intros Hlt Hfuel vs Hvs.
  - inversion Hvs. reflexivity.
  - inversion Hvs as [|x e0 vs0 es0 Hx Hr]; subst. simpl in Hfuel. cbn [text_elems].
    rewrite (He x (l :: stack) fuel Hx).
    + rewrite (IH (fun e' H => Hlt e' (or_intror H)) ltac:(lia) _ Hr).
      destruct e; reflexivity.
    + apply (around_child h stack l t e Ht Hst). apply Hlt. left. reflexivity.
    + lia.
Qed.

Lemma text_props_rep h l stack fuel t (ps : list (string * jsval)) :
  Forall (fun p => written h (snd p)) ps ->
  rep h (VRef l) t -> around h stack t ->
  (forall p, In p ps -> height (snd p) < height t) ->
  fold_right Nat.max 0 (map (fun p => height (snd p)) ps) <= fuel ->
  forall vs, related h vs ps ->
             text_props (stringify fuel h (l :: stack)) vs = Got (clone_props ps).
Proof.
  intros Hw Ht Hst. induction Hw as [|[k e] ps He _ IH]; intros Hlt Hfuel vs Hvs.
  - inversion Hvs. reflexivity.
  - inversion Hvs as [|[k' x] p0 vs0 ps0 [Hk Hx] Hr]; subst. simpl in Hk, Hx, He, Hfuel.
    subst k'. cbn [text_props].
    rewrite (He x (l :: stack) fuel Hx).
    + rewrite (IH (fun p H => Hlt p (or_intror H)) ltac:(lia) _ Hr).
      destruct e; reflexivity.
    + apply (around_child h stack l t e Ht Hst).
      exact (Hlt (k, e) (or_introl eq_refl)).
    + lia.
Qed.

Lemma height_elems_lt (es : list jsval) n :
  fold_right Nat.max 0 (map height es) <= n -> forall e, In e es -> height e < S n.
Proof.
  induction es as [|x es IH]; simpl; [intros _ e []|].
  intros H e [-> | Hin]; [lia | apply IH; [lia | exact Hin]].
Qed.

Lemma height_props_lt (ps : list (string * jsval)) n :
  fold_right Nat.max 0 (map (fun p => height (snd p)) ps) <= n ->
  forall p, In p ps -> height (snd p) < S n.
Proof.
  induction ps as [|x ps IH]; simpl; [intros _ p []|].
  intros H p [-> | Hin]; [lia | apply IH; [lia | exact Hin]].
Qed.

(** The serialiser writes the tree a value stands for. *)
Lemma stringify_rep h t : written h t.
Proof.
  induction t as [ | | x | n | s | es ps IHes IHps | ps IHps] using jsval_nested_ind;
    intros v stack fuel Hv Hst Hfuel;
    try (inversion Hv; subst; destruct fuel; [simpl in Hfuel; lia | reflexivity]).
  - pose proof Hv as Hv'.
    inversion Hv as [ | | | | | l vs qs es0 ps0 Hl Hes Hps | ]; subst.
    destruct fuel as [|fuel]; [simpl in Hfuel; lia|]. cbn [stringify].
    destruct (on_stack l stack) eqn:Hon.
    { destruct (Hst l Hon) as (t' & Ht' & Hlt).
      rewrite (rep_single h _ _ _ Hv' Ht') in Hlt. lia. }
    rewrite Hl. cbn [height] in Hfuel.
    rewrite (text_elems_rep h l stack fuel (JArr es ps) es IHes Hv' Hst); [reflexivity | | lia | exact Hes].
    cbn [height]. apply height_elems_lt. lia.
  - pose proof Hv as Hv'.
    inversion Hv as [ | | | | | | l qs ps0 Hl Hps ]; subst.
    destruct fuel as [|fuel]; [simpl in Hfuel; lia|]. cbn [stringify].
    destruct (on_stack l stack) eqn:Hon.
    { destruct (Hst l Hon) as (t' & Ht' & Hlt).
      rewrite (rep_single h _ _ _ Hv' Ht') in Hlt. lia. }
    rewrite Hl. cbn [height] in Hfuel.
    rewrite (text_props_rep h l stack fuel (JObj ps) ps IHps Hv' Hst); [reflexivity | | lia | exact Hps].
    cbn [height]. apply height_props_lt. lia.
Qed.

Lemma text_elems_more (f g : val -> serialised (option jsval)) vs :
  (forall x, f x <> NoFuel -> g x = f x) ->
  text_elems f vs <> NoFuel -> text_elems g vs = text_elems f vs.
Proof.
  intros Hfg. induction vs as [|x vs IH]; [reflexivity|]. cbn [text_elems].
  pose proof (Hfg x) as Hx. destruct (f x) as [ | | t]; [congruence | |].
  - intros _. rewrite Hx by discriminate. reflexivity.
  - rewrite Hx by discriminate.
    destruct (text_elems f vs) as [ | | ts]; [congruence | |];
      intros _; rewrite IH by discriminate; reflexivity.
Qed.

Lemma text_props_more (f g : val -> serialised (option jsval)) ps :
  (forall x, f x <> NoFuel -> g x = f x) ->
  text_props f ps <> NoFuel -> text_props g ps = text_props f ps.
Proof.
  intros Hfg. induction ps as [|[k x] ps IH]; [reflexivity|]. cbn [text_props].
  pose proof (Hfg x) as Hx. destruct (f x) as [ | | t]; [congruence | |].
  - intros _. rewrite Hx by discriminate. reflexivity.
  - rewrite Hx by discriminate.
    destruct (text_props f ps) as [ | | ts]; [congruence | |];
      intros _; rewrite IH by discriminate; reflexivity.
Qed.

(** More fuel does not change what the serialiser has written. *)
Lemma stringify_more h fuel : forall fuel' stack v,
  fuel <= fuel' -> stringify fuel h stack v <> NoFuel ->
  stringify fuel' h stack v = stringify fuel h stack v.
Proof.
  induction fuel as [|fuel IH]; intros fuel' stack v Hle; [simpl; congruence|].
  destruct fuel' as [|fuel']; [lia|].
  destruct v as [ | | b | n | s | l]; try reflexivity. cbn [stringify].
  destruct (on_stack l stack); [reflexivity|].
  destruct (h !! l) as [[ps | es ps]|]; [| |reflexivity].
  - intros H.
    rewrite (text_props_more (stringify fuel h (l :: stack)) (stringify fuel' h (l :: stack)) ps).
    + reflexivity.
    + intros x. apply IH. lia.
    + destruct (text_props (stringify fuel h (l :: stack)) ps); congruence.
  - intros H.
    rewrite (text_elems_more (stringify fuel h (l :: stack)) (stringify fuel' h (l :: stack)) es).
    + reflexivity.
    + intros x. apply IH. lia.
    + destruct (text_elems (stringify fuel h (l :: stack)) es); congruence.
Qed.

(** The copy of a value the store holds is the copy of its tree, built
    in fresh cells. *)
Lemma json_clone_rep h v t :
  rep h v t ->
  Store.json_clone v h =
    match JS.json_clone t with
    | Ok t' => (Ok (fst (alloc t' h)), snd (alloc t' h))
    | Throw e => (Throw e, h)
    end.
Proof.
  intros Ht. unfold Store.json_clone.
  assert (Hs : stringify (S (List.length h)) h [] v = Got (text t)).
  { pose proof (stringify_rep h t v [] (Nat.max (height t) (S (List.length h))) Ht) as Hbig.
    rewrite <- Hbig.
    - symmetry. apply stringify_more; [lia | apply stringify_fuel].
    - intros l Hl. discriminate.
    - lia. }
  rewrite Hs.
  destruct t; cbn [text JS.json_clone]; try reflexivity;
    match goal with |- context [alloc ?t h] => destruct (alloc t h) end; reflexivity.
Qed.

(** Over a value the store holds, whatever its cells share, each
    transform over the store ends as the transform on values does on
    the tree the value stands for. *)
Lemma store_refines_values_held h v t :
  rep h v t ->
  refines (Store.transformValueForStorage v h) (TransformData.transformValueForStorage t) /\
  refines (Store.transformValueFromStorage v h) (TransformData.transformValueFromStorage t).
Proof.
  intros Ht.
  rewrite forStorage_unfold, fromStorage_unfold.
  rewrite store_forStorage_unfold, store_fromStorage_unfold.
  pose proof (json_clone_rep h v t Ht) as Hclone.
  destruct (JS.json_clone t) as [t'|e].
  - rewrite !(st_bind_ok _ _ _ _ _ Hclone), !bind_lift_ok.
    pose proof (alloc_tree_at t' h) as Ht'. split.
    + exact (forStorage_rest_refines _ _ _ _ _ Ht').
    + exact (fromStorage_rest_refines _ _ _ _ _ Ht').
  - rewrite !(st_bind_throw _ _ _ _ _ Hclone). split; reflexivity.
Qed.
End Held.

Section ReadRep.
Import Store Layout.

Lemma mapM_mono {A B} (f g : A -> option B) (l : list A) k :
  (forall x y, x ∈ l -> f x = Some y -> g x = Some y) ->
  mapM f l = Some k -> mapM g l = Some k.
Proof.
  intros H Hf. apply mapM_Some in Hf. apply mapM_Some.
  induction Hf as [|x y l k Hxy _ IH]; constructor.
  - apply H; [left | exact Hxy].
  - apply IH. intros x' y' Hx'. apply H. right. exact Hx'.
Qed.

(** More fuel reads the same tree. *)
Lemma reify_mono (h : store) fuel : forall fuel' v t,
  fuel <= fuel' -> reify fuel h v = Some t -> reify fuel' h v = Some t.
Proof.
  induction fuel as [|fuel IH]; intros fuel' v t Hle; [discriminate|].
  destruct fuel' as [|fuel']; [lia|]. assert (Hle' : fuel <= fuel') by lia.
  destruct v as [ | | | | | l]; try (intros H; exact H).
  assert (Hp : forall (ps : list (string * val)) ps',
             mapM (fun '(k, x) => pair k <$> reify fuel h x) ps = Some ps' ->
             mapM (fun '(k, x) => pair k <$> reify fuel' h x) ps = Some ps').
  { intros ps ps'. apply mapM_mono. intros [k x] y _.
    destruct (reify fuel h x) as [tx|] eqn:Ex; [|discriminate].
    rewrite (IH fuel' x tx Hle' Ex). intros H. exact H. }
  assert (He : forall (es : list val) es',
             mapM (reify fuel h) es = Some es' -> mapM (reify fuel' h) es = Some es').
  { intros es es'. apply mapM_mono. intros x y _. apply IH. exact Hle'. }
  cbn [reify]. destruct (h !! l) as [[ps | es ps]|]; [| |discriminate].
  - destruct (mapM (fun '(k, x) => pair k <$> reify fuel h x) ps) as [ps'|] eqn:E;
      [|discriminate].
    rewrite (Hp _ _ E). intros H. exact H.
  - destruct (mapM (reify fuel h) es) as [es'|] eqn:Ee; [|discriminate].
    rewrite (He _ _ Ee).
    destruct (mapM (fun '(k, x) => pair k <$> reify fuel h x) ps) as [ps'|] eqn:E;
      [|discriminate].
    rewrite (Hp _ _ E). intros H. exact H.
Qed.

Lemma related_reify (h : store) fuel ps' ps :
  Forall2 (fun (p' : string * val) (p : string * jsval) =>
             fst p' = fst p /\ reify fuel h (snd p') = Some (snd p)) ps' ps ->
  mapM (fun '(k, x) => pair k <$> reify fuel h x) ps' = Some ps.
Proof.
  intros H. apply mapM_Some. induction H as [|[k x] [k' t] ps' ps [Hk Hx] _ IH];
    constructor; [|exact IH].
  simpl in *. subst k'. rewrite Hx. reflexivity.
Qed.

Lemma elems_reify h fuel es' es :
  Forall (readable h) es -> Forall2 (rep h) es' es ->
  fold_right Nat.max 0 (map height es) <= fuel ->
  mapM (reify fuel h) es' = Some es.
Proof.
  intros Hr Hes. revert Hr. induction Hes as [|x t es' es Hx _ IH]; intros Hr Hle;
    apply mapM_Some; [constructor|].
  apply Forall_cons in Hr as [Ht Hr]. simpl in Hle. constructor.
  - apply (reify_mono h (height t)); [lia|exact (Ht _ Hx)].
  - apply mapM_Some. apply IH; [exact Hr|lia].
Qed.

Lemma props_reify h fuel ps' (ps : list (string * jsval)) :
  Forall (fun p => readable h (snd p)) ps ->
  Forall2 (fun (p' : string * val) p => fst p' = fst p /\ rep h (snd p') (snd p)) ps' ps ->
  fold_right Nat.max 0 (map (fun p => height (snd p)) ps) <= fuel ->
  mapM (fun '(k, x) => pair k <$> reify fuel h x) ps' = Some ps.
Proof.
  intros Hr Hps Hle. apply related_reify. revert Hr Hle.
  induction Hps as [|[k x] [k' t] ps' ps [Hk Hx] _ IH]; intros Hr Hle; constructor.
  - apply Forall_cons in Hr as [Ht _]. simpl in *. split; [exact Hk|].
    apply (reify_mono h (height t)); [lia|exact (Ht _ Hx)].
  - apply Forall_cons in Hr as [_ Hr]. simpl in Hle. apply IH; [exact Hr|lia].
Qed.

(** A value that stands for a tree reads back as that tree. *)
Lemma rep_reify h t : readable h t.
Proof.
  induction t as [ | | x | n | s | es ps IHes IHps | ps IHps] using jsval_nested_ind;
    intros v Hv; try (inversion Hv; reflexivity).
  - inversion Hv as [ | | | | | l es' ps' es0 ps0 Hl Hes Hps | ]; subst.
    cbn [height reify]. rewrite Hl.
    rewrite (elems_reify h _ es' es IHes Hes (Nat.le_max_l _ _)).
    rewrite (props_reify h _ ps' ps IHps Hps (Nat.le_max_r _ _)). reflexivity.
  - inversion Hv as [ | | | | | | l ps' ps0 Hl Hps]; subst.
    cbn [height reify]. rewrite Hl.
    rewrite (props_reify h _ ps' ps IHps Hps (Nat.le_refl _)). reflexivity.
Qed.

End ReadRep.

Section ModelsAgree.
Import Store Layout.

Lemma refines_reads_as run m : refines run m -> reads_as run m.
Proof.
  unfold refines, reads_as. destruct (JS.outcome m) as [t|e]; [|intros H; exact H].
  intros (res & Hres & Hrep). exists res. split; [exact Hres|].
  exact (rep_reify _ t res Hrep).
Qed.

(** The value at cell 2 of [shared_store] stands for [twice]. *)
Lemma shared_store_holds : rep Examples.shared_store (VRef 2) Examples.twice.
Proof.
  unfold Examples.shared_store, Examples.twice.
  eapply rep_obj; [reflexivity|].
  repeat constructor.
  eapply rep_arr; [reflexivity | | constructor].
  repeat constructor; (eapply rep_obj; [reflexivity | repeat constructor]).
Qed.

(** No [alloc] has built it, as its list holds one object twice. *)
Remark shared_store_is_no_layout a b :
  ~ tree_at Examples.shared_store Examples.twice a b (VRef 2).
Proof.
  unfold Examples.shared_store, Examples.twice. simpl.
  intros (l & ps' & _ & [= <-] & Hl & Hps). injection Hl as <-.
  destruct Hps as (_ & c & _ & _ & c' & Harr & _).
  destruct Harr as (l1 & es' & qs' & m & _ & [= <-] & Hl & Hes & _).
  injection Hl as <- <-.
  destruct Hes as (c1 & Hfirst & c2 & Hsecond & _).
  destruct Hfirst as (l2 & ps2 & -> & [= <-] & _).
  destruct Hsecond as (l3 & ps3 & _ & [= <-] & Hl & Hps).
  injection Hl as <-.
  destruct Hps as (_ & c3 & [<- _] & Hc3). discriminate.
Qed.

(** The two models of the transforms agree on every value a store
    holds, whatever objects its cells share: when the value [v] of the
    store [h] stands for the tree [t], a transform of the store model run
    on [v] gives a result that reads back as the tree the transform of the
    value model returns on [t]; when one throws, the other throws the
    same exception. *)
Theorem store_model_agrees_with_value_model (h : store) (v : val) (t : jsval) :
  rep h v t ->
  reads_as (Store.transformValueForStorage v h)
           (TransformData.transformValueForStorage t) /\
  reads_as (Store.transformValueFromStorage v h)
           (TransformData.transformValueFromStorage t).
Proof.
  intros Ht. destruct (store_refines_values_held h v t Ht) as [Hfor Hfrom].
  split; apply refines_reads_as; assumption.
Qed.

Lemma store_model_agrees_on_shared_object :
  rep Examples.shared_store (VRef 2) Examples.twice /\
  reads_as (Store.transformValueForStorage (VRef 2) Examples.shared_store)
           (TransformData.transformValueForStorage Examples.twice) /\
  reads_as (Store.transformValueFromStorage (VRef 2) Examples.shared_store)
           (TransformData.transformValueFromStorage Examples.twice).
Proof.
  split; [exact shared_store_holds|].
  exact (store_model_agrees_with_value_model _ _ _ shared_store_holds).
Defined.
End ModelsAgree.

(* ================================================================== *)
(** * When the transforms throw, and what they return *)
(* ================================================================== *)

Section Outcomes.
Import TransformData Cases.

Lemma assoc_put_key_ne {A} k k' (x : A) ps :
  k <> k' -> assoc k' (put_key k x ps) = assoc k' ps.
Proof.
  intros Hne. induction ps as [|[k0 y] ps IH]; simpl.
  - destruct (String.eqb_spec k' k); [congruence | reflexivity].
  - destruct (String.eqb_spec k k0) as [->|Hk]; simpl.
    + destruct (String.eqb_spec k' k0); [congruence | reflexivity].
    + destruct (String.eqb k' k0); [reflexivity | exact IH].
Qed.

Lemma clone_val_defined v : clone_val v <> JUndefined.
Proof. destruct v as [ | | b | n | s | es ps | ps]; try discriminate. destruct n; discriminate. Qed.

Lemma json_clone_ok v : v <> JUndefined -> json_clone v = Ok (clone_val v).
Proof. destruct v; [congruence | reflexivity..]. Qed.

Lemma set_prop_object o k x :
  is_object o = true ->
  exists o', set_prop o k x = Ok o' /\ is_object o' = true /\
             own o' k = Some x /\ forall k', k <> k' -> own o' k' = own o k'.
Proof.
  destruct o as [ | | | | | es ps | ps]; try discriminate; intros _.
  - exists (JArr es (put_key k x ps)). repeat split.
    + apply assoc_put_key_eq.
    + intros k' Hne. apply assoc_put_key_ne. exact Hne.
  - exists (JObj (put_key k x ps)). repeat split.
    + apply assoc_put_key_eq.
    + intros k' Hne. apply assoc_put_key_ne. exact Hne.
Qed.

Lemma set_prop_primitive o k x : is_object o = false -> set_prop o k x = Throw TypeError.
Proof. destruct o; try reflexivity; discriminate. Qed.

Lemma set_prop_object_or o k x :
  (exists o', set_prop o k x = Ok o' /\ get_prop o' k = Ok x) \/
  set_prop o k x = Throw TypeError.
Proof.
  destruct o as [ | | | | | es ps | ps]; try (right; reflexivity); left; eexists;
    (split; [reflexivity|]); cbn [get_prop]; rewrite assoc_put_key_eq; reflexivity.
Qed.

(** Splits a statement about a closed outcome into its cases. *)
Ltac by_cases :=
  cbn; repeat split; intros;
  repeat match goal with
         | H : _ /\ _ |- _ => destruct H
         | H : exists _, _ |- _ => destruct H
         | H : _ \/ _ |- _ => destruct H
         | H : Ok _ = Ok _ |- _ => injection H as H; subst
         end;
  cbn in *; try discriminate; try congruence; eauto.

(** The forward transform in closed form. *)
Lemma forStorage_cases v :
  transformValueForStorage v =
    match v with
    | JUndefined => ([], Throw SyntaxError)
    | _ =>
        let c := clone_val v in
        let meta := match c with JObj ps => JObj (remove_key "_d" ps) | _ => c end in
        match payload c with
        | JUndefined | JNull => ([], Throw TypeError)
        | JArr es ps => ([], Ok (JObj [("__dsList", JArr es ps); ("__ds", meta)]))
        | d =>
            let p := match d with JObj ps => JObj (remove_key "_rels" ps) | _ => d end in
            let s := JObj [("_props", p); ("_rels", field d "_rels"); ("__ds", meta)] in
            ([ELog s], Ok s)
        end
    end.
Proof.
  destruct v as [ | | b | n | s | es ps | ps]; try reflexivity;
    [destruct n; reflexivity|].
  unfold transformValueForStorage. rewrite json_clone_ok by discriminate.
  rewrite clone_val_obj. rewrite bind_lift_ok.
  cbn [get_prop payload]. rewrite bind_lift_ok. cbn [delete_prop]. rewrite bind_lift_ok.
  destruct (default JUndefined (assoc "_d" (clone_props ps))) as [ | | b | n | s | es' ps' | ps'];
    reflexivity.
Qed.

(** The forward transform throws a SyntaxError on undefined, a TypeError
    on a value whose JSON form has no payload [_d] or a null one, and
    returns on every other value. *)
Theorem forStorage_throws_iff v :
  (outcome (transformValueForStorage v) = Throw SyntaxError <-> v = JUndefined) /\
  (outcome (transformValueForStorage v) = Throw TypeError <->
   v <> JUndefined /\ nullish (payload (clone_val v)) = true) /\
  ((exists s, outcome (transformValueForStorage v) = Ok s) <->
   nullish (payload (clone_val v)) = false).
Proof.
  rewrite forStorage_cases.
  destruct v as [ | | b | n | s | es ps | ps];
    [by_cases | by_cases | by_cases | destruct n; by_cases | by_cases | by_cases | ].
  cbn [clone_val]. fold (clone_props ps).
  destruct (payload (JObj (clone_props ps))); by_cases.
Qed.

(** Whatever the forward transform returns is an object with the
    properties [__dsList], [__ds] for an array payload and [_props],
    [_rels], [__ds] for any other; it is written to the console in the
    second case only. The payload is not kept in [__ds] and the
    relations are not kept in [_props]. *)
Theorem forStorage_result v s :
  outcome (transformValueForStorage v) = Ok s ->
  exists meta,
    own s "__ds" = Some meta /\ own meta "_d" = None /\
    if is_array (payload (clone_val v))
    then keys (own_props s) = ["__dsList"; "__ds"] /\
         own s "__dsList" = Some (payload (clone_val v)) /\
         trace (transformValueForStorage v) = []
    else keys (own_props s) = ["_props"; "_rels"; "__ds"] /\
         (exists p, own s "_props" = Some p /\ own p "_rels" = None) /\
         own s "_rels" = Some (field (payload (clone_val v)) "_rels") /\
         trace (transformValueForStorage v) = [ELog s].
Proof.
  rewrite forStorage_cases.
  destruct v as [ | | b | n | t | es ps | ps]; try discriminate;
    [destruct n; discriminate|].
  cbn [clone_val]. fold (clone_props ps).
  destruct (payload (JObj (clone_props ps))) as [ | | b | n | t | es' ps' | ps'];
    try discriminate; cbn [outcome trace snd fst]; intros [= <-];
    exists (JObj (remove_key "_d" (clone_props ps)));
    (split; [reflexivity|]);
    (split; [apply assoc_remove_key_eq|]); cbn [is_array];
    repeat split; eauto.
  eexists. split; [reflexivity|]. apply assoc_remove_key_eq.
Qed.

Lemma forStorage_result_john :
  outcome (transformValueForStorage Examples.john) = Ok Examples.john_storage /\
  exists meta,
    own Examples.john_storage "__ds" = Some meta /\ own meta "_d" = None /\
    keys (own_props Examples.john_storage) = ["_props"; "_rels"; "__ds"] /\
    trace (transformValueForStorage Examples.john) = [ELog Examples.john_storage].
Proof.
  split; [reflexivity|].
  destruct (forStorage_result Examples.john Examples.john_storage eq_refl)
    as (meta & Hm & Hd & Hk & _ & _ & Ht).
  exists meta. repeat split; assumption.
Defined.

(** The backward transform in closed form. *)
Lemma fromStorage_cases v :
  transformValueFromStorage v =
    match v with
    | JUndefined => ([], Throw SyntaxError)
    | _ =>
        let c := clone_val v in
        if negb (truthy c) then ([], Ok JUndefined)
        else if is_array (field c "__dsList") then
          lift (set_prop (field c "__ds") "_d" (field c "__dsList"))
        else
          match set_prop (field c "__ds") "_d" (field c "_props") with
          | Throw e => ([], Throw e)
          | Ok data =>
              if truthy (field c "_props") then
                match set_prop (field c "_props") "_rels" (field c "_rels") with
                | Ok d => lift (set_prop data "_d" d)
                | Throw e => ([], Throw e)
                end
              else ([], Ok data)
          end
    end.
Proof.
  destruct v as [ | | b | n | s | es ps | ps]; try reflexivity.
  - destruct b; reflexivity.
  - destruct n as [z| | |neg]; try reflexivity. cbn. destruct (Z.eqb z 0); reflexivity.
  - cbn. destruct (String.eqb s ""); reflexivity.
  - unfold transformValueFromStorage. rewrite json_clone_ok by discriminate.
    rewrite clone_val_obj, bind_lift_ok. set (cps := clone_props ps).
    repeat (cbn [truthy negb get_prop delete_prop]; rewrite bind_lift_ok).
    unfold field, own. cbn [own_props].
    rewrite !(assoc_remove_key_ne "__ds") by discriminate.
    destruct (is_array (default JUndefined (assoc "__dsList" cps))); [reflexivity|].
    destruct (set_prop_object_or (default JUndefined (assoc "__ds" cps)) "_d"
                (default JUndefined (assoc "_props" cps))) as [(data & -> & Hd) | ->];
      [|reflexivity].
    rewrite bind_lift_ok.
    destruct (truthy (default JUndefined (assoc "_props" cps))).
    + rewrite Hd, bind_lift_ok, bind_lift_ok.
      destruct (set_prop (default JUndefined (assoc "_props" cps)) "_rels"
                  (default JUndefined (assoc "_rels" cps))) as [d|e];
        [rewrite bind_lift_ok | rewrite bind_lift_throw; reflexivity].
      destruct (set_prop data "_d" d); reflexivity.
    + rewrite bind_ret, bind_lift_ok. reflexivity.
Qed.

(** The backward transform throws a SyntaxError on undefined and returns
    undefined on a value whose JSON form is falsy. On any other value it
    throws a TypeError when [__ds] is not an object, or when [__dsList]
    is not an array and [_props] is a truthy primitive; and it returns
    an object otherwise. *)
Theorem fromStorage_outcome_iff v :
  let c := clone_val v in
  let fails :=
    negb (is_object (field c "__ds")) ||
    negb (is_array (field c "__dsList")) &&
    truthy (field c "_props") && negb (is_object (field c "_props")) in
  (outcome (transformValueFromStorage v) = Throw SyntaxError <-> v = JUndefined) /\
  (outcome (transformValueFromStorage v) = Ok JUndefined <->
   v <> JUndefined /\ truthy c = false) /\
  (outcome (transformValueFromStorage v) = Throw TypeError <->
   truthy c = true /\ fails = true) /\
  ((exists r, outcome (transformValueFromStorage v) = Ok r /\ is_object r = true) <->
   truthy c = true /\ fails = false).
Proof.
  rewrite fromStorage_cases. cbv zeta.
  destruct v as [ | | b | n | s | es ps | ps]; [by_cases | by_cases | | | | by_cases | ].
  - destruct b; by_cases.
  - destruct n as [z| | |neg]; [|by_cases..].
    cbn [clone_val number_json truthy number_truthy]. destruct (Z.eqb z 0); by_cases.
  - cbn [clone_val truthy]. destruct (String.eqb s ""); by_cases.
  - set (c := clone_val (JObj ps)).
    assert (Hc : truthy c = true) by reflexivity.
    rewrite Hc. cbn [negb].
    destruct (is_array (field c "__dsList")) eqn:Hl; cbn [negb andb].
    + rewrite orb_false_r.
      destruct (is_object (field c "__ds")) eqn:Ho.
      * destruct (set_prop_object _ "_d" (field c "__dsList") Ho) as (o' & -> & Ho' & _).
        cbn [lift outcome snd negb]. repeat split; intros; try discriminate;
          try congruence; try (destruct o'; discriminate); by_cases.
      * rewrite (set_prop_primitive _ _ _ Ho). by_cases.
    + destruct (is_object (field c "__ds")) eqn:Ho; cbn [negb orb].
      * destruct (set_prop_object _ "_d" (field c "_props") Ho) as (data & -> & Hdata & _).
        destruct (truthy (field c "_props")) eqn:Ht; cbn [andb].
        -- destruct (is_object (field c "_props")) eqn:Hp; cbn [negb].
           ++ destruct (set_prop_object _ "_rels" (field c "_rels") Hp) as (d & -> & _).
              destruct (set_prop_object _ "_d" d Hdata) as (r & -> & Hr & _).
              cbn [lift outcome snd]. repeat split; intros; try discriminate;
                try congruence; try (destruct r; discriminate); by_cases.
           ++ rewrite (set_prop_primitive _ _ _ Hp). by_cases.
        -- cbn [outcome snd]. repeat split; intros; try discriminate;
             try congruence; try (destruct data; discriminate); by_cases.
      * rewrite (set_prop_primitive _ _ _ Ho). by_cases.
Qed.

(** What the backward transform returns, when it returns an object: the
    metadata [__ds] of the JSON form, with the payload as its property
    [_d]. The payload is [__dsList] when that is an array; otherwise it
    is [_props], to which [_rels] is added when [_props] is truthy. A
    falsy [_props] is passed on as it is and [_rels] is dropped. Nothing
    is written to the console. *)
Theorem fromStorage_result v r :
  outcome (transformValueFromStorage v) = Ok r ->
  is_object r = true ->
  let c := clone_val v in
  trace (transformValueFromStorage v) = [] /\
  (forall k, k <> "_d" -> own r k = own (field c "__ds") k) /\
  exists d,
    own r "_d" = Some d /\
    if is_array (field c "__dsList") then d = field c "__dsList"
    else if truthy (field c "_props") then
      own d "_rels" = Some (field c "_rels") /\
      forall k, k <> "_rels" -> own d k = own (field c "_props") k
    else d = field c "_props".
Proof.
  intros Hr Hobj. revert Hr. rewrite fromStorage_cases. cbv zeta.
  destruct v as [ | | b | n | s | es ps | ps]; try discriminate.
  - intros [= <-]. discriminate.
  - destruct b; [discriminate|]. intros [= <-]. discriminate.
  - destruct n as [z| | |neg]; try (intros [= <-]; discriminate).
    cbn [clone_val number_json truthy number_truthy]. destruct (Z.eqb z 0); [|discriminate].
    intros [= <-]. discriminate.
  - cbn [clone_val truthy]. destruct (String.eqb s ""); [|discriminate].
    intros [= <-]. discriminate.
  - set (c := clone_val (JObj ps)).
    assert (Hc : truthy c = true) by reflexivity.
    rewrite Hc. cbn [negb].
    destruct (is_array (field c "__dsList")) eqn:Hl.
    + destruct (is_object (field c "__ds")) eqn:Ho;
        [|rewrite (set_prop_primitive _ _ _ Ho); discriminate].
      destruct (set_prop_object _ "_d" (field c "__dsList") Ho) as (o' & -> & _ & Hd & Hk).
      intros [= <-]. split; [reflexivity|]. split.
      * intros k Hne. apply Hk. congruence.
      * exists (field c "__dsList"). split; [exact Hd | reflexivity].
    + destruct (is_object (field c "__ds")) eqn:Ho;
        [|rewrite (set_prop_primitive _ _ _ Ho); discriminate].
      destruct (set_prop_object _ "_d" (field c "_props") Ho)
        as (data & -> & Hdata & Hd & Hk).
      destruct (truthy (field c "_props")) eqn:Ht.
      * destruct (is_object (field c "_props")) eqn:Hp;
          [|rewrite (set_prop_primitive _ _ _ Hp); discriminate].
        destruct (set_prop_object _ "_rels" (field c "_rels") Hp) as (d & -> & _ & Hrels & Hd').
        destruct (set_prop_object _ "_d" d Hdata) as (r' & -> & _ & Hr' & Hk').
        intros [= <-]. split; [reflexivity|]. split.
        -- intros k Hne. rewrite Hk' by congruence. apply Hk. congruence.
        -- exists d. split; [exact Hr'|]. split; [exact Hrels|].
           intros k Hne. apply Hd'. congruence.
      * intros [= <-]. split; [reflexivity|]. split.
        -- intros k Hne. apply Hk. congruence.
        -- exists (field c "_props"). split; [exact Hd | reflexivity].
Qed.

Lemma fromStorage_result_john :
  exists r,
    outcome (transformValueFromStorage Examples.john_storage) = Ok r /\
    is_object r = true /\
    trace (transformValueFromStorage Examples.john_storage) = [] /\
    own r "_v" = own (field Examples.john_storage "__ds") "_v" /\
    exists d, own r "_d" = Some d /\
              own d "_rels" = Some (field Examples.john_storage "_rels").
Proof.
  eexists. split; [reflexivity|]. split; [reflexivity|].
  destruct (fromStorage_result Examples.john_storage _ eq_refl eq_refl)
    as (Ht & Hk & d & Hd & Hr & _).
  split; [exact Ht|]. split; [apply Hk; discriminate|].
  exists d. split; assumption.
Defined.

Lemma clone_props_cons k x r :
  x <> JUndefined -> clone_props ((k, x) :: r) = (k, clone_val x) :: clone_props r.
Proof. destruct x; [congruence | reflexivity..]. Qed.

Lemma clone_props_twice ps :
  Forall (fun p => clone_val (clone_val (snd p)) = clone_val (snd p)) ps ->
  clone_props (clone_props ps) = clone_props ps.
Proof.
  induction 1 as [|[k x] ps Hx _ IH]; [reflexivity|].
  destruct x as [ | | b | n | s | es qs | qs]; [exact IH|..];
    (rewrite clone_props_cons by discriminate);
    (rewrite clone_props_cons by apply clone_val_defined);
    cbn [snd] in Hx; congruence.
Qed.

(** Copying through JSON twice is copying once. *)
Lemma clone_val_twice v : clone_val (clone_val v) = clone_val v.
Proof.
  induction v as [ | | b | n | s | es ps IHes _ | ps IHps] using jsval_nested_ind;
    try reflexivity.
  - destruct n; reflexivity.
  - cbn [clone_val]. f_equal. rewrite map_map. apply map_ext_Forall. exact IHes.
  - rewrite !clone_val_obj. f_equal. apply clone_props_twice. exact IHps.
Qed.

(** The transforms see their argument through its JSON form only: what
    JSON does not carry (a property whose value is undefined, a named
    property of an array) has no part in the result. *)
Theorem transforms_see_json_form v :
  v <> JUndefined ->
  transformValueForStorage (clone_val v) = transformValueForStorage v /\
  transformValueFromStorage (clone_val v) = transformValueFromStorage v.
Proof.
  intros Hv. unfold transformValueForStorage, transformValueFromStorage.
  rewrite (json_clone_ok (clone_val v)) by apply clone_val_defined.
  rewrite clone_val_twice, (json_clone_ok v Hv). split; reflexivity.
Qed.

Lemma transforms_see_json_form_sparse :
  let v := JObj [("_v", JNum 1); ("gone", JUndefined);
                 ("_d", JObj [("name", JStr "x"); ("age", JUndefined)])] in
  clone_val v = Examples.plain /\
  transformValueForStorage Examples.plain = transformValueForStorage v /\
  transformValueFromStorage Examples.plain = transformValueFromStorage v.
Proof.
  split; [reflexivity|].
  exact (transforms_see_json_form
           (JObj [("_v", JNum 1); ("gone", JUndefined);
                  ("_d", JObj [("name", JStr "x"); ("age", JUndefined)])])
           ltac:(discriminate)).
Defined.
End Outcomes.

(* ================================================================== *)
(** * Keys, queries and the three operations *)
(* ================================================================== *)

Section Addresses.
Import Str Enum Connector Keys Cases TransformData.

Lemma append_inv_head (a b c : string) : a ++ b = a ++ c -> b = c.
Proof. induction a as [|x a IH]; simpl; [tauto|]. intros [= H]. exact (IH H). Qed.

Lemma passes_getSegments this key :
  passes this key = true ->
  _getSegments this key =
    Some match split key (_splitChar this) with
         | [s] => [_defaultLabel this ++ ":" ++ toUpperCase s]
         | segs => normalize_from 0 segs
         end.
Proof.
  unfold passes. intros H. apply negb_true_iff, orb_false_iff in H as [H1 H2].
  apply getSegments_valid; assumption.
Qed.

Lemma passes_iff this key :
  passes this key = true <-> _getSegments this key <> None.
Proof.
  split.
  - intros H. rewrite (passes_getSegments _ _ H). discriminate.
  - intros H. unfold passes. destruct (_ || _) eqn:E; [|reflexivity].
    exfalso. apply H. apply getSegments_invalid. exact E.
Qed.

Lemma normalize_variants segs : forall i segs',
  normalize_from i segs = normalize_from i segs' <-> case_variants i segs segs' = true.
Proof.
  induction segs as [|s r IH]; intros i [|s' r']; simpl;
    try (split; [discriminate | discriminate]); [tauto|].
  rewrite andb_true_iff, <- IH. destruct (Nat.odd i).
  - rewrite String.eqb_eq. split; [intros [= -> ->] | intros [-> ->]]; auto.
  - rewrite String.eqb_eq. split; [intros [= -> ->] | intros [-> ->]]; auto.
Qed.

(** Two keys of ASCII text that pass validation are cut into the same
    segments exactly when they are cut into as many elements, equal at
    the odd positions and equal up to the case of the letters a-z at the
    even ones; the three operations do not tell such keys apart. (On
    keys with other letters the program's [toUpperCase] identifies more
    keys than [case_variants] does.) *)
Theorem keys_collide_iff_case_variants this key key' :
  ascii_only key = true ->
  ascii_only key' = true ->
  passes this key = true ->
  passes this key' = true ->
  (_getSegments this key = _getSegments this key' <->
   case_variants 0 (split key (_splitChar this)) (split key' (_splitChar this)) = true) /\
  (_getSegments this key = _getSegments this key' ->
   get this key = get this key' /\
   delete this key = delete this key' /\
   forall value, set this key value = set this key' value).
Proof.
  intros _ _ Hk Hk'. split.
  - rewrite (passes_getSegments _ _ Hk), (passes_getSegments _ _ Hk').
    rewrite <- normalize_variants.
    destruct (split key (_splitChar this)) as [|s [|s2 r]];
      destruct (split key' (_splitChar this)) as [|s' [|s2' r']];
      cbn [normalize_from Nat.odd Nat.even negb];
      try (split; intros [= ?]; congruence); try tauto.
    split; intros [= H]; [apply append_inv_head in H; injection H as H|]; congruence.
  - intros H. pose proof (proj1 (passes_iff _ _) Hk) as Hn.
    unfold get, delete, set. rewrite <- H.
    destruct (_getSegments this key); [|congruence]. repeat split.
Qed.

Lemma keys_collide_users :
  ascii_only "users/a" = true /\
  ascii_only "Users/a" = true /\
  passes Examples.slash "users/a" = true /\
  passes Examples.slash "Users/a" = true /\
  _getSegments Examples.slash "users/a" = _getSegments Examples.slash "Users/a" /\
  get Examples.slash "users/a" = get Examples.slash "Users/a".
Proof.
  split; [reflexivity|]. split; [reflexivity|].
  split; [reflexivity|]. split; [reflexivity|].
  destruct (keys_collide_iff_case_variants Examples.slash "users/a" "Users/a"
              eq_refl eq_refl eq_refl eq_refl)
    as [Hiff Hops].
  pose proof (proj2 Hiff eq_refl) as Hsame.
  split; [exact Hsame|]. exact (proj1 (Hops Hsame)).
Defined.

Lemma own_object v k x : own v k = Some x -> is_object v = true.
Proof. destruct v; try discriminate; reflexivity. Qed.

Lemma object_truthy v : is_object v = true -> truthy v = true /\ nullish v = false.
Proof. destruct v; try discriminate; split; reflexivity. Qed.

Lemma object_get_prop v k : is_object v = true -> get_prop v k = Ok (field v k).
Proof. destruct v; try discriminate; reflexivity. Qed.

Lemma forStorage_object_result v s :
  outcome (transformValueForStorage v) = Ok s -> is_object s = true.
Proof.
  rewrite forStorage_cases.
  destruct v as [ | | b | n | t | es ps | ps]; try discriminate; [destruct n; discriminate|].
  cbv zeta. destruct (payload (clone_val (JObj ps))); try discriminate;
    intros [= <-]; reflexivity.
Qed.

(** [set] on an accepted key, once the transform has returned. *)
Lemma set_accepted this key segments v s :
  _getSegments this key = Some segments ->
  outcome (transformValueForStorage v) = Ok s ->
  exists q,
    query_text SET segments (Some s) = Ok q /\
    set this key v =
      ((trace (transformValueForStorage v)
        ++ [ELog (JStr q); ESession; ERun q (Some s)])%list, Ok tt).
Proof.
  intros Hseg Hs. unfold set. rewrite Hseg, (bind_ok _ _ _ Hs).
  unfold _getQuery. rewrite query_text_spec. eexists. split; reflexivity.
Qed.

(** A key that is not cut (the separator does not occur in it) has no
    id element: the queries of [get] and [delete] look for the id
    "undefined", under the label "{defaultLabel}:{KEY}". *)
Theorem uncut_key_has_id_undefined this key s :
  split key (_splitChar this) = [s] ->
  passes this key = true ->
  let node := "(ds:__DS { _key: 'undefined' })-[ds_r:__ds]->(n:"
              ++ _defaultLabel this ++ ":" ++ toUpperCase s ++ ") " in
  _getSegments this key = Some [_defaultLabel this ++ ":" ++ toUpperCase s] /\
  get this key =
    ([ELog (JStr ("MATCH " ++ node ++ query_read GET)); ESession;
      ERun ("MATCH " ++ node ++ query_read GET) None], Ok tt) /\
  delete this key =
    ([ELog (JStr ("MATCH " ++ node ++ query_read DELETE)); ESession;
      ERun ("MATCH " ++ node ++ query_read DELETE) None], Ok tt).
Proof.
  intros Hs Hp node.
  assert (Hseg : _getSegments this key = Some [_defaultLabel this ++ ":" ++ toUpperCase s]).
  { rewrite (passes_getSegments _ _ Hp), Hs. reflexivity. }
  assert (Hq : forall act,
             query_head act [_defaultLabel this ++ ":" ++ toUpperCase s] ++ query_read act
             = match act with SET => "MERGE" | _ => "MATCH" end ++ " " ++ node ++ query_read act).
  { intros act. unfold query_head, node. cbn [lookup list_lookup interpolate].
    destruct act; rewrite ?append_assoc; reflexivity. }
  split; [exact Hseg|].
  unfold get, delete. rewrite Hseg, !getQuery_spec. cbn [List.length Nat.ltb Nat.leb has_values].
  rewrite !Hq. split; reflexivity.
Qed.

Lemma uncut_key_bla :
  split "bla" (_splitChar Examples.slash) = ["bla"] /\
  passes Examples.slash "bla" = true /\
  _getSegments Examples.slash "bla" = Some ["DS_SCHEMA:BLA"] /\
  exists q, get Examples.slash "bla" = ([ELog (JStr q); ESession; ERun q None], Ok tt) /\
            String.prefix "MATCH (ds:__DS { _key: 'undefined' })-[ds_r:__ds]->(n:DS_SCHEMA:BLA) "
                          q = true.
Proof.
  split; [reflexivity|]. split; [reflexivity|].
  destruct (uncut_key_has_id_undefined Examples.slash "bla" "bla" eq_refl eq_refl)
    as (Hseg & Hget & _).
  split; [exact Hseg|]. eexists. split; [exact Hget | reflexivity].
Defined.

(** [set] with a key of one or two segments, on a value the forward
    transform returns on: after what the transform writes to the
    console, one query is logged and run in one session, with the
    transformed value as its parameters. The query is the MERGE of the
    node, the three SET clauses, and one MERGE clause for each name
    [for .. in] finds in the [_rels] of the transformed value. *)
Theorem set_runs_one_write_query this key segments v s :
  _getSegments this key = Some segments ->
  List.length segments < 3 ->
  outcome (transformValueForStorage v) = Ok s ->
  let q := query_write (for_in_keys (field s "_rels")) (query_head SET segments) in
  set this key v =
    ((trace (transformValueForStorage v)
      ++ [ELog (JStr q); ESession; ERun q (Some s)])%list, Ok tt).
Proof.
  intros Hseg Hlen Hs q.
  destruct (set_accepted this key segments v s Hseg Hs) as (q' & Hq & ->).
  rewrite query_text_spec in Hq.
  destruct (object_truthy s (forStorage_object_result v s Hs)) as [Ht Hn].
  assert (Hl : Nat.ltb (List.length segments) 3 = true) by (apply Nat.ltb_lt; exact Hlen).
  rewrite Hl in Hq. cbn [has_values] in Hq. rewrite Ht in Hq. unfold rel_names in Hq.
  rewrite Ht, (object_get_prop s "_rels" (forStorage_object_result v s Hs)) in Hq.
  injection Hq as <-. reflexivity.
Qed.

Lemma set_runs_one_write_query_john :
  _getSegments Examples.slash "USERS/123" = Some ["USERS"; "123"] /\
  outcome (transformValueForStorage Examples.john) = Ok Examples.john_storage /\
  exists q,
    set Examples.slash "USERS/123" Examples.john
    = ([ELog Examples.john_storage; ELog (JStr q); ESession;
        ERun q (Some Examples.john_storage)], Ok tt) /\
    contains "MERGE (n)-[:friends]->(FRIENDS_m)<-[:__ds]-(FRIENDS_ds)" q = true.
Proof.
  split; [reflexivity|]. split; [reflexivity|].
  eexists. split.
  - exact (set_runs_one_write_query Examples.slash "USERS/123" ["USERS"; "123"]
             Examples.john Examples.john_storage eq_refl ltac:(simpl; lia) eq_refl).
  - vm_compute. reflexivity.
Defined.

(** [set] of a list. For a value whose payload is an array, the query
    that is run takes the properties of the node from the parameter
    [$_props] and the schema from [keys($_rels)], and the parameters
    hold [__dsList] and [__ds] only: neither [_props] nor [_rels]. The
    value is not written to the console. *)
Theorem set_of_a_list this key segments v s :
  _getSegments this key = Some segments ->
  List.length segments < 3 ->
  outcome (transformValueForStorage v) = Ok s ->
  is_array (payload (clone_val v)) = true ->
  let q := query_head SET segments ++ " SET ds += $__ds "
           ++ " SET ds_r.schema = keys($_rels) " ++ " SET n += $_props " in
  set this key v = ([ELog (JStr q); ESession; ERun q (Some s)], Ok tt) /\
  keys (own_props s) = ["__dsList"; "__ds"] /\
  own s "_props" = None /\ own s "_rels" = None.
Proof.
  intros Hseg Hlen Hs Harr q.
  destruct (set_accepted this key segments v s Hseg Hs) as (q' & Hq & ->).
  rewrite query_text_spec in Hq.
  assert (Hl : Nat.ltb (List.length segments) 3 = true) by (apply Nat.ltb_lt; exact Hlen).
  rewrite Hl in Hq.
  assert (Hshape : exists d meta,
             s = JObj [("__dsList", d); ("__ds", meta)] /\
             trace (transformValueForStorage v) = []).
  { revert Hs. rewrite forStorage_cases.
    destruct v as [ | | b | n | t | es ps | ps]; try discriminate;
      [destruct n; discriminate|].
    cbv zeta. destruct (payload (clone_val (JObj ps))); try discriminate.
    intros [= <-]. eexists _, _. split; reflexivity. }
  destruct Hshape as (d & meta & -> & ->).
  assert (Hq' : q' = query_write [] (query_head SET segments))
    by (injection Hq as <-; reflexivity).
  subst q'. split; [|repeat split].
  unfold query_write. cbn [fold_left app]. subst q. rewrite !append_assoc. reflexivity.
Qed.

Lemma set_of_a_list_john :
  _getSegments Examples.slash "USERS/123" = Some ["USERS"; "123"] /\
  is_array (payload (clone_val Examples.john_list)) = true /\
  exists q s,
    set Examples.slash "USERS/123" Examples.john_list
    = ([ELog (JStr q); ESession; ERun q (Some s)], Ok tt) /\
    contains "$_props" q = true /\ own s "_props" = None /\ own s "_rels" = None.
Proof.
  split; [reflexivity|]. split; [reflexivity|].
  destruct (set_of_a_list Examples.slash "USERS/123" ["USERS"; "123"] Examples.john_list
              _ eq_refl ltac:(simpl; lia) eq_refl eq_refl) as (Hset & _ & Hp & Hr).
  eexists _, _. split; [exact Hset|]. split; [vm_compute; reflexivity|].
  split; assumption.
Defined.

Lemma split_from_cons sep s : forall skip cur,
  exists x rest, split_from sep skip cur s = x :: rest.
Proof.
  induction s as [|c s IH]; intros skip cur; cbn [split_from]; [eauto|].
  destruct skip as [|n]; [|apply IH].
  destruct (String.prefix sep (String c s)); [eauto | apply IH].
Qed.

Lemma toUpperCase_empty s : toUpperCase s = "" -> s = "".
Proof. destruct s; [reflexivity | discriminate]. Qed.

Lemma first_is_false_ne s rest x : first_is (s :: rest) x = false -> s <> x.
Proof. cbn [first_is]. intros H ->. rewrite String.eqb_refl in H. discriminate. Qed.

(** A connector that the constructor returned has a default label and a
    separator that are not empty. It refuses the empty key, and the
    segments of a key it accepts are as many as the elements of the key,
    at least one, and begin with a segment that is not empty. *)
Theorem constructed_connector_keys neo4j opts this :
  outcome (Connector neo4j opts) = Ok this ->
  _defaultLabel this <> "" /\
  _splitChar this <> Some "" /\
  _getSegments this "" = None /\
  forall key segments,
    _getSegments this key = Some segments ->
    List.length segments = List.length (split key (_splitChar this)) /\
    exists s rest, segments = s :: rest /\ s <> "".
Proof.
  intros H. apply Connector_inv in H. subst this. cbn [_defaultLabel _splitChar].
  assert (Hl : or_else (defaultLabel opts) id "DS_SCHEMA" <> "").
  { destruct (defaultLabel opts) as [l|]; cbn [or_else]; [|discriminate].
    destruct (String.eqb_spec l ""); [discriminate | assumption]. }
  set (label := or_else (defaultLabel opts) id "DS_SCHEMA") in *.
  assert (Hs : exists sep, sep <> "" /\
                 (or_else (splitChar opts) Some None = Some sep \/
                  (or_else (splitChar opts) Some None = None /\ sep = "null"))).
  { destruct (splitChar opts) as [c|]; cbn [or_else].
    - destruct (String.eqb_spec c "") as [->|Hc].
      + exists "null". split; [discriminate|]. right. split; reflexivity.
      + exists c. split; [assumption|]. left. reflexivity.
    - exists "null". split; [discriminate|]. right. split; reflexivity. }
  destruct Hs as (sep & Hsep & Hopt).
  set (this := {| isReady := false; _defaultLabel := label;
                  _splitChar := or_else (splitChar opts) Some None |}).
  assert (Hsplit : forall key, split key (_splitChar this) = split_from sep 0 "" key).
  { intros key. unfold split. cbn [_splitChar this].
    destruct Hopt as [-> | [-> ->]];
      [destruct (String.eqb_spec sep ""); [contradiction | reflexivity] | reflexivity]. }
  split; [exact Hl|]. split.
  { destruct Hopt as [-> | [-> _]]; [congruence | discriminate]. }
  split.
  { apply getSegments_invalid. rewrite Hsplit. reflexivity. }
  intros key segments Hseg.
  assert (Hp : passes this key = true) by (apply passes_iff; congruence).
  rewrite (passes_getSegments _ _ Hp) in Hseg. injection Hseg as <-.
  unfold passes in Hp. apply negb_true_iff, orb_false_iff in Hp as [He _].
  destruct (split_from_cons sep key 0 "") as (x & rest & Hx).
  rewrite Hsplit in *. rewrite Hx in *. apply first_is_false_ne in He.
  destruct rest as [|y rest].
  - split; [reflexivity|]. eexists _, []. split; [reflexivity|].
    cbn [_defaultLabel this]. destruct label; [contradiction | discriminate].
  - split; [exact (normalize_from_length (x :: y :: rest) 0)|].
    cbn [normalize_from Nat.odd Nat.even negb].
    eexists _, _. split; [reflexivity|]. intros Hu. apply toUpperCase_empty in Hu. contradiction.
Qed.

Lemma constructed_connector_keys_settings :
  outcome (Connector Examples.bolt Examples.settings) = Ok Examples.slash /\
  _getSegments Examples.slash "" = None /\
  _defaultLabel Examples.slash <> "" /\
  _splitChar Examples.slash <> Some "".
Proof.
  split; [reflexivity|].
  destruct (constructed_connector_keys Examples.bolt Examples.settings Examples.slash eq_refl)
    as (Hl & Hs & He & _).
  repeat split; assumption.
Defined.
End Addresses.

(* ================================================================== *)
(** * The operations with their handlers *)
(* ================================================================== *)

Section HandlerSteps.
Import Str Enum Connector Cases TransformData.
Import Handlers.

Lemma hbind_lift_ok {A B} (a : A) (k : A -> H B) : Handlers.bind (Handlers.lift (Ok a)) k = k a.
Proof. unfold Handlers.bind, Handlers.lift. destruct (k a). reflexivity. Qed.

Lemma hbind_lift_throw {A B} (e : exn) (k : A -> H B) :
  Handlers.bind (Handlers.lift (Throw e)) k = ([], Throw e).
Proof. reflexivity. Qed.

Lemma hbind_did {B} (s : step) (k : unit -> H B) :
  Handlers.bind (did s) k = (s :: fst (k tt), snd (k tt)).
Proof. unfold Handlers.bind, did. destruct (k tt). reflexivity. Qed.

Lemma hbind_sync_ok {A B} (m : M A) (a : A) (k : A -> H B) :
  outcome m = Ok a ->
  Handlers.bind (sync m) k = ((map of_event (trace m) ++ fst (k a))%list, snd (k a)).
Proof.
  destruct m as [tr r]. cbn [outcome snd]. intros ->.
  unfold Handlers.bind, sync. cbn [fst snd trace]. destruct (k a). reflexivity.
Qed.

Lemma hbind_sync_throw {A B} (m : M A) (e : exn) (k : A -> H B) :
  outcome m = Throw e ->
  Handlers.bind (sync m) k = (map of_event (trace m), Throw e).
Proof.
  destruct m as [tr r]. cbn [outcome snd]. intros ->. reflexivity.
Qed.


Lemma set_prop_ok_object o k x o' : set_prop o k x = Ok o' -> is_object o' = true.
Proof. destruct o; try discriminate; intros [= <-]; reflexivity. Qed.

(** The backward transform writes nothing to the console. *)
Lemma fromStorage_silent v : trace (transformValueFromStorage v) = [].
Proof.
  rewrite fromStorage_cases. destruct v as [ | | b | n | s | es ps | ps]; try reflexivity.
  - destruct b; reflexivity.
  - destruct n as [z| | |neg]; try reflexivity. cbn. destruct (Z.eqb z 0); reflexivity.
  - cbn. destruct (String.eqb s ""); reflexivity.
  - cbv zeta. set (c := clone_val (JObj ps)).
    destruct (negb (truthy c)); [reflexivity|].
    destruct (is_array (field c "__dsList")); [reflexivity|].
    destruct (set_prop (field c "__ds") "_d" (field c "_props")); [|reflexivity].
    destruct (truthy (field c "_props")); [|reflexivity].
    destruct (set_prop (field c "_props") "_rels" (field c "_rels")); reflexivity.
Qed.

(** It returns undefined or an object that has a payload. *)
Lemma fromStorage_returns v r :
  outcome (transformValueFromStorage v) = Ok r ->
  r = JUndefined \/ (is_object r = true /\ exists d, own r "_d" = Some d).
Proof.
  assert (Hset : forall o x r', set_prop o "_d" x = Ok r' ->
                   is_object r' = true /\ exists d, own r' "_d" = Some d).
  { intros o x r' H. pose proof (set_prop_ok_object _ _ _ _ H) as Ho. split; [exact Ho|].
    destruct o; try discriminate; injection H as <-; exists x; apply assoc_put_key_eq. }
  rewrite fromStorage_cases. destruct v as [ | | b | n | s | es ps | ps]; try discriminate.
  - intros [= <-]. left. reflexivity.
  - destruct b; [discriminate|]. intros [= <-]. left. reflexivity.
  - destruct n as [z| | |neg]; try (intros [= <-]; left; reflexivity).
    cbn [clone_val number_json truthy number_truthy]. destruct (Z.eqb z 0); [|discriminate].
    intros [= <-]. left. reflexivity.
  - cbn [clone_val truthy]. destruct (String.eqb s ""); [|discriminate].
    intros [= <-]. left. reflexivity.
  - cbv zeta. set (c := clone_val (JObj ps)).
    destruct (negb (truthy c)); [intros [= <-]; left; reflexivity|].
    destruct (is_array (field c "__dsList")); [intros H; right; exact (Hset _ _ _ H)|].
    destruct (set_prop (field c "__ds") "_d" (field c "_props")) as [data|e] eqn:Hd;
      [|discriminate].
    destruct (truthy (field c "_props")); [|intros [= <-]; right; exact (Hset _ _ _ Hd)].
    destruct (set_prop (field c "_props") "_rels" (field c "_rels")); [|discriminate].
    intros H. right. exact (Hset _ _ _ H).
Qed.

Lemma own_keys_In k (ks : list string) : In k ks -> is_index k = false -> In k (own_keys ks).
Proof.
  intros Hin Hk. unfold own_keys. apply in_or_app. right.
  apply List.filter_In. split; [exact Hin|]. rewrite Hk. reflexivity.
Qed.

Lemma for_in_keys_own v k d :
  own v k = Some d -> is_index k = false -> In k (for_in_keys v).
Proof.
  intros Ho Hk. assert (Hin : In k (keys (own_props v))).
  { apply assoc_In in Ho. apply (in_map fst) in Ho. exact Ho. }
  destruct v; try discriminate; cbn [for_in_keys own_props] in *.
  - apply in_or_app. right. apply own_keys_In; assumption.
  - apply own_keys_In; assumption.
Qed.

Lemma delete_prop_ok v k v' :
  delete_prop v k = Ok v' ->
  nullish v' = false /\ forall k', k <> k' -> own v' k' = own v k'.
Proof.
  destruct v; try discriminate; intros [= <-]; (split; [reflexivity|]);
    intros k' Hne; try reflexivity; apply assoc_remove_key_ne; exact Hne.
Qed.

Section OnGet.
Variable object_ : jsval -> jsval -> result jsval.

(** The handler of [get] from [console.log] on, for a value that has a
    payload. *)
Lemma on_get_end (v d : jsval) (k : unit -> H unit) :
  nullish v = false -> own v "_d" = Some d ->
  Handlers.bind (Handlers.lift (object_keys v))
    (fun names =>
       Handlers.bind (if Nat.eqb (List.length names) 0
                      then did (Callback [AVal JNull; AVal JNull])
                      else did (Callback [AVal JNull; AVal v])) k)
  = (Callback [AVal JNull; AVal v] :: fst (k tt), snd (k tt)).
Proof.
  intros Hn Hd. assert (Hk : object_keys v = Ok (for_in_keys v))
    by (destruct v; try discriminate; reflexivity).
  rewrite Hk, hbind_lift_ok.
  pose proof (for_in_keys_own v "_d" d Hd eq_refl) as Hin.
  destruct (for_in_keys v) as [|n ns]; [destruct Hin|].
  cbn [List.length Nat.eqb]. apply hbind_did.
Qed.

(** For a record, the handler either throws before it has done
    anything, or logs a value that has a payload and hands it to the
    callback. *)
Lemma on_get_record record rest :
  (exists e, on_get object_ (record :: rest) = ([], Throw e)) \/
  (exists v d,
      on_get object_ (record :: rest)
      = ([Sync (ELog v); Callback [AVal JNull; AVal v]; Close], Ok tt) /\
      own v "_d" = Some d).
Proof.
  unfold on_get.
  repeat match goal with
         | |- context [Handlers.bind (Handlers.lift ?r) _] =>
             destruct r as [?value|?e];
             [rewrite hbind_lift_ok | left; eexists; apply hbind_lift_throw]
         end.
  match goal with
  | |- context [sync (transformValueFromStorage ?x)] =>
      destruct (outcome (transformValueFromStorage x)) as [r|e] eqn:Hr
  end.
  - rewrite (hbind_sync_ok _ _ _ Hr), fromStorage_silent. cbn [map app].
    destruct (delete_prop r "_key") as [v|e] eqn:Hv;
      [rewrite hbind_lift_ok | left; eexists; rewrite hbind_lift_throw; reflexivity].
    destruct (delete_prop_ok _ _ _ Hv) as [Hn Hown].
    destruct (fromStorage_returns _ _ Hr) as [-> | (_ & d & Hd)]; [discriminate Hv|].
    right. exists v, d. split; [|rewrite Hown by discriminate; exact Hd].
    rewrite hbind_did. cbn [fst snd].
    rewrite (on_get_end v d _ Hn); [reflexivity|].
    rewrite Hown by discriminate. exact Hd.
  - left. exists e. rewrite (hbind_sync_throw _ _ _ Hr), fromStorage_silent. reflexivity.
Qed.
End OnGet.

Section Settling.
Variable object_ : jsval -> jsval -> result jsval.
Variable run : engine.
Variable this : connector.

Lemma getQuery_sync act segments values :
  exists q,
    _getQuery act segments values = ([ELog (JStr q)], Ok q) /\
    forall k : string -> H unit,
      Handlers.bind (sync (_getQuery act segments values)) k
      = (Sync (ELog (JStr q)) :: fst (k q), snd (k q)).
Proof.
  rewrite getQuery_spec. cbv zeta. eexists. split; [reflexivity|].
  intros k. unfold Handlers.bind, sync. cbn [fst snd map of_event].
  destruct (k _). reflexivity.
Qed.

(** The steps of an operation begin with those of its synchronous
    part. *)
Lemma handlers_extend_sync key :
  (exists rest, fst (Handlers.get object_ run this key)
                = (map of_event (trace (Connector.get this key)) ++ rest)%list) /\
  (exists rest, fst (Handlers.delete run this key)
                = (map of_event (trace (Connector.delete this key)) ++ rest)%list) /\
  (forall value,
      exists rest, fst (Handlers.set run this key value)
                   = (map of_event (trace (Connector.set this key value)) ++ rest)%list).
Proof.
  unfold Handlers.get, Handlers.delete, Handlers.set, Connector.get, Connector.delete,
    Connector.set.
  destruct (_getSegments this key) as [segments|].
  - repeat split.
    + destruct (getQuery_sync GET segments None) as (q & -> & ->).
      rewrite !hbind_did. cbn [fst snd]. eexists. reflexivity.
    + destruct (getQuery_sync DELETE segments None) as (q & -> & ->).
      rewrite !hbind_did. cbn [fst snd]. eexists. reflexivity.
    + intros value.
      destruct (outcome (transformValueForStorage value)) as [s|e] eqn:Hs.
      * rewrite (hbind_sync_ok _ _ _ Hs), (bind_ok _ _ _ Hs).
        destruct (getQuery_sync SET segments (Some s)) as (q & -> & ->).
        rewrite !hbind_did. cbn [fst snd trace JS.bind]. rewrite map_app.
        eexists. rewrite <- app_assoc. reflexivity.
      * rewrite (hbind_sync_throw _ _ _ Hs). exists [].
        destruct (transformValueForStorage value) as [tr r]. cbn in Hs. subst r.
        cbn. rewrite app_nil_r. reflexivity.
  - repeat split; try intros value; exists []; reflexivity.
Qed.

Ltac run_h :=
  repeat (cbn [get_prop set_prop delete_prop assoc remove_key put_key
               String.eqb Ascii.eqb Bool.eqb default from_option id];
          rewrite hbind_lift_ok).



(** When the engine finds a record, [get] hands the callback either an
    error or a value that has a payload [_d]: the answer (null, null) is
    given only when there is no record. *)
Theorem get_of_a_record key segments q record rest :
  _getSegments this key = Some segments ->
  outcome (_getQuery GET segments None) = Ok q ->
  run q None = Resolved (record :: rest) ->
  exists logs args,
    Handlers.get object_ run this key
    = ((Sync (ELog (JStr q)) :: Sync ESession :: Sync (ERun q None) :: map Sync (map ELog logs))
       ++ [Callback args; Close], Ok tt)%list /\
    ((exists e, args = [AExn e; AVal JNull]) \/
     (exists v d, args = [AVal JNull; AVal v] /\ own v "_d" = Some d /\ logs = [v])).
Proof.
  intros Hseg Hq Hrun. unfold Handlers.get. rewrite Hseg.
  destruct (getQuery_sync GET segments None) as (q' & Hq' & ->).
  rewrite Hq' in Hq. injection Hq as ->.
  rewrite !hbind_did. cbn [fst snd]. rewrite Hrun. cbn [then_catch].
  destruct (on_get_record object_ record rest) as [(e & ->) | (v & d & -> & Hd)].
  - exists [], [AExn e; AVal JNull]. split; [reflexivity|]. left. eauto.
  - exists [v], [AVal JNull; AVal v]. split; [reflexivity|]. right. eauto.
Qed.

(** What [get] makes of a record. Let the engine answer the query of
    [get] with a record shaped as the RETURN clause says, whose parts
    [__ds] and [_props] are JSON objects, and let [_.object] make a JSON
    value [rels] of the two lists of relations. Then the callback
    receives (null, r): [r] has the properties of [__ds] except [_key],
    and its payload [_d] has the properties of [_props] and [rels] as
    [_rels]. *)
Theorem get_assembles_the_record key segments q ds props rel_keys rel_vals rels rest :
  _getSegments this key = Some segments ->
  outcome (_getQuery GET segments None) = Ok q ->
  run q None = Resolved (returned ds props rel_keys rel_vals :: rest) ->
  object_ rel_keys rel_vals = Ok rels ->
  is_json (JObj ds) = true ->
  is_json (JObj props) = true ->
  is_json rels = true ->
  exists r d,
    Handlers.get object_ run this key
    = ([Sync (ELog (JStr q)); Sync ESession; Sync (ERun q None);
        Sync (ELog r); Callback [AVal JNull; AVal r]; Close], Ok tt) /\
    own r "_key" = None /\
    own r "_d" = Some d /\
    (forall k, k <> "_d" -> k <> "_key" -> own r k = assoc k ds) /\
    own d "_rels" = Some rels /\
    (forall k, k <> "_rels" -> own d k = assoc k props).
Proof.
  intros Hseg Hq Hrun Hobj Hds Hprops Hrels.
  set (d := JObj (put_key "_rels" rels props)).
  set (r := JObj (remove_key "_key" (put_key "_d" d ds))).
  assert (Hd : own r "_d" = Some d).
  { unfold r, own. cbn [own_props].
    rewrite assoc_remove_key_ne by discriminate. apply assoc_put_key_eq. }
  exists r, d. split; [|split; [|split; [exact Hd|split; [|split]]]].
  - unfold Handlers.get. rewrite Hseg.
    destruct (getQuery_sync GET segments None) as (q' & Hq' & ->).
    rewrite Hq' in Hq. injection Hq as ->.
    rewrite !hbind_did. cbn [fst snd]. rewrite Hrun. cbn [then_catch].
    unfold on_get, returned. run_h. rewrite Hobj. run_h.
    set (value := JObj [("__ds", JObj ds); ("_props", JObj props); ("_rels", rels)]).
    assert (Hvj : is_json value = true).
    { unfold value. cbn [is_json] in Hds, Hprops.
      cbn [is_json distinct_keys assoc String.eqb Ascii.eqb Bool.eqb forallb snd andb].
      rewrite Hds, Hprops, Hrels. reflexivity. }
    assert (Hfrom : transformValueFromStorage value
                    = ([], Ok (JObj (put_key "_d" d ds)))).
    { rewrite fromStorage_cases. unfold value at 1. cbv zeta.
      rewrite (clone_json value Hvj). unfold value, field, own.
      cbn [own_props assoc String.eqb Ascii.eqb Bool.eqb default from_option id
           truthy negb is_array set_prop put_key JS.lift].
      rewrite put_key_twice. reflexivity. }
    rewrite (hbind_sync_ok _ _ _ (f_equal snd Hfrom)), Hfrom. cbn [trace fst map app].
    cbn [delete_prop]. rewrite hbind_lift_ok. fold r.
    rewrite hbind_did. cbn [fst snd].
    rewrite (on_get_end r d); [reflexivity | reflexivity | exact Hd].
  - unfold r, own. cbn [own_props]. apply assoc_remove_key_eq.
  - intros k Hk Hk'. unfold r, own. cbn [own_props].
    rewrite assoc_remove_key_ne by congruence. apply assoc_put_key_ne. congruence.
  - unfold d, own. cbn [own_props]. apply assoc_put_key_eq.
  - intros k Hk. unfold d, own. cbn [own_props]. apply assoc_put_key_ne. congruence.
Qed.
End Settling.

Lemma get_of_a_record_john :
  _getSegments Examples.slash "USERS/123" = Some ["USERS"; "123"] /\
  exists q logs args,
    Handlers.get pair_up (answering [Examples.john_record]) Examples.slash "USERS/123"
    = ((Sync (ELog (JStr q)) :: Sync ESession :: Sync (ERun q None) :: map Sync (map ELog logs))
       ++ [Callback args; Close], Ok tt)%list /\
    ((exists e, args = [AExn e; AVal JNull]) \/
     (exists v d, args = [AVal JNull; AVal v] /\ own v "_d" = Some d /\ logs = [v])).
Proof.
  split; [reflexivity|]. eexists.
  exact (get_of_a_record pair_up (answering [Examples.john_record]) Examples.slash
           "USERS/123" ["USERS"; "123"] _ _ [] eq_refl eq_refl eq_refl).
Defined.

Lemma get_assembles_the_record_john :
  _getSegments Examples.slash "USERS/123" = Some ["USERS"; "123"] /\
  Examples.john_record
  = returned [("_key", JStr "123"); ("_v", JNum 12)]
             [("firstname", JStr "John"); ("lastname", JStr "Smith")]
             (JArr [JStr "friends"] [])
             (JArr [JObj [("name", JStr "Ann")]] []) /\
  exists q r d,
    Handlers.get pair_up (answering [Examples.john_record]) Examples.slash "USERS/123"
    = ([Sync (ELog (JStr q)); Sync ESession; Sync (ERun q None);
        Sync (ELog r); Callback [AVal JNull; AVal r]; Close], Ok tt) /\
    own r "_key" = None /\
    own r "_d" = Some d /\
    (forall k, k <> "_d" -> k <> "_key"
               -> own r k = assoc k [("_key", JStr "123"); ("_v", JNum 12)]) /\
    own d "_rels" = Some (JObj [("friends", JObj [("name", JStr "Ann")])]) /\
    (forall k, k <> "_rels"
               -> own d k = assoc k [("firstname", JStr "John"); ("lastname", JStr "Smith")]).
Proof.
  split; [reflexivity|]. split; [reflexivity|]. eexists.
  exact (get_assembles_the_record pair_up (answering [Examples.john_record]) Examples.slash
           "USERS/123" ["USERS"; "123"] _ _ _ _ _ _ [] eq_refl eq_refl eq_refl eq_refl
           eq_refl eq_refl eq_refl).
Defined.
End HandlerSteps.

(* ================================================================== *)
(** * The earlier connector *)
(* ================================================================== *)

Section EarlierConnector.
Import Str Enum.
Import Legacy.

(** In the earlier connector a key of exactly three segments cannot be
    used: building the query throws a ReferenceError for the misspelt
    name [segements], whatever the action and the value, so [set], [get]
    and [delete] throw before a session is opened and never call the
    callback. With four or more segments the query is empty. *)
Theorem earlier_three_segments_throw this key segments :
  Legacy._getSegments this key = Some segments ->
  (List.length segments = 3 ->
   (forall act values, Legacy._getQuery this act segments values = NotDefined "segements") /\
   Legacy.get this key = ([], NotDefined "segements") /\
   Legacy.delete this key = ([], NotDefined "segements") /\
   forall values, Legacy.set this key values = ([], NotDefined "segements")) /\
  (3 < List.length segments ->
   (forall act values, Legacy._getQuery this act segments values = Returned "") /\
   Legacy.get this key = ([ESession; ERun "" None], Returned tt) /\
   Legacy.delete this key = ([ESession; ERun "" None], Returned tt) /\
   forall values, Legacy.set this key values = ([ESession; ERun "" values], Returned tt)).
Proof.
  intros Hseg. unfold Legacy.get, Legacy.delete, Legacy.set. rewrite Hseg. split; intros Hlen.
  - assert (Hq : forall act values,
               Legacy._getQuery this act segments values = NotDefined "segements").
    { intros act values. unfold Legacy._getQuery. rewrite Hlen. reflexivity. }
    rewrite !Hq. repeat split; try exact Hq. intros values. rewrite Hq. reflexivity.
  - assert (Hq : forall act values, Legacy._getQuery this act segments values = Returned "").
    { intros act values. unfold Legacy._getQuery.
      destruct (Nat.ltb_spec (List.length segments) 3); [lia|].
      destruct (Nat.eqb_spec (List.length segments) 3); [lia | reflexivity]. }
    rewrite !Hq. repeat split; try exact Hq. intros values. rewrite Hq. reflexivity.
Qed.

Lemma earlier_three_segments_abc :
  Legacy._getSegments Legacy.slash "a/b/c" = Some ["A"; "b"; "C"] /\
  Legacy.get Legacy.slash "a/b/c" = ([], NotDefined "segements") /\
  Legacy.set Legacy.slash "a/b/c" (Some Examples.john) = ([], NotDefined "segements").
Proof.
  split; [reflexivity|].
  destruct (proj1 (earlier_three_segments_throw Legacy.slash "a/b/c" ["A"; "b"; "C"] eq_refl)
              eq_refl) as (_ & Hget & _ & Hset).
  split; [exact Hget | exact (Hset _)].
Defined.

(** The earlier constructor throws an Error, before [neo4j.driver] is
    called, when [connectionString], [user] or [password] is missing
    and when [ds_key] is "id". Otherwise it calls [neo4j.driver]: if
    that call throws, the constructor throws the same exception and
    opens no session; if it returns, the constructor sends the probe
    query and returns a connector that is not ready, whose [_ds_key] is
    neither empty nor "id". *)
Theorem earlier_constructor_checks neo4j opts :
  if Connector.given (connectionString opts) && Connector.given (user opts)
     && Connector.given (password opts)
     && negb (match ds_key opts with Some k => String.eqb k "id" | None => false end)
  then exists url usr pass,
      connectionString opts = Some url /\ user opts = Some usr /\
      password opts = Some pass /\
      match neo4j url usr pass with
      | Some e => Legacy.Connector neo4j opts = ([EDriver url usr pass], Throw e)
      | None =>
          exists this,
            Legacy.Connector neo4j opts
            = ([EDriver url usr pass; ESession; ERun "return 1" None], Ok this) /\
            Connector.isReady (base this) = false /\
            _ds_key this <> "" /\ _ds_key this <> "id"
      end
  else exists msg, Legacy.Connector neo4j opts = ([], Throw (Error msg)).
Proof.
  unfold Legacy.Connector.
  destruct (connectionString opts) as [url|]; cbn [Connector.given andb negb]; [|eauto].
  destruct (String.eqb url ""); cbn [andb negb]; [eauto|].
  destruct (user opts) as [usr|]; cbn [Connector.given andb negb]; [|eauto].
  destruct (String.eqb usr ""); cbn [andb negb]; [eauto|].
  destruct (password opts) as [pass|]; cbn [Connector.given andb negb]; [|eauto].
  destruct (String.eqb pass ""); cbn [andb negb]; [eauto|].
  cbn [_ds_key default from_option id].
  destruct (ds_key opts) as [k|]; cbn [Connector.or_else].
  - destruct (String.eqb_spec k "") as [->|Hk]; cbn [negb].
    + cbn [String.eqb negb]. exists url, usr, pass. repeat split.
      cbv zeta. rewrite bind_emit. destruct (neo4j url usr pass); [reflexivity|].
      rewrite !bind_emit. cbn. eexists. repeat split; discriminate.
    + unfold id. destruct (String.eqb_spec k "id") as [->|Hid]; cbn [negb]; [eauto|].
      exists url, usr, pass. repeat split.
      cbv zeta. rewrite bind_emit. destruct (neo4j url usr pass); [reflexivity|].
      rewrite !bind_emit. cbn. eexists. split; [reflexivity|]. repeat split; assumption.
  - cbn [String.eqb negb]. exists url, usr, pass. repeat split.
    cbv zeta. rewrite bind_emit. destruct (neo4j url usr pass); [reflexivity|].
    rewrite !bind_emit. cbn. eexists. repeat split; discriminate.
Qed.

Lemma each_key_extends this act names : forall q,
  exists rest, each_key this act names q = q ++ rest.
Proof.
  induction names as [|key names IH]; intros q; cbn [each_key].
  - exists "". symmetry. apply append_empty_r.
  - destruct act.
    + destruct (IH ((q ++ link this Connector.SET key) ++ " SET " ++ key ++ "_m = $" ++ key))
        as (rest & ->).
      eexists. rewrite !append_assoc. reflexivity.
    + eexists. rewrite !append_assoc. reflexivity.
    + eexists. rewrite !append_assoc. reflexivity.
Qed.

Lemma each_key_keeps n this act names q :
  contains n q = true -> contains n (each_key this act names q) = true.
Proof.
  intros H. destruct (each_key_extends this act names q) as (rest & ->).
  apply contains_append_l. exact H.
Qed.

Lemma contains_middle (n a b : string) : contains n (a ++ n ++ b) = true.
Proof. apply contains_append_r, contains_here. Qed.

(** Finds a part of a text among the parts it is appended from. *)
Ltac find_part := repeat first [apply contains_here | apply contains_append_r].

Lemma link_contains this act key : contains key (link this act key) = true.
Proof. unfold link. find_part. Qed.

Lemma each_key_names this names : forall q name,
  In name names -> contains name (each_key this Connector.SET names q) = true.
Proof.
  induction names as [|key names IH]; intros q name; [intros []|].
  intros [-> | Hin]; cbn [each_key].
  - apply each_key_keeps. apply contains_append_l, contains_append_r, link_contains.
  - apply IH. exact Hin.
Qed.

(** The same in the earlier connector: the query text depends on the
    value only through the property names [for .. in] finds in it,
    never on a property value; the label, the id, [ds_key] and, for
    [set], every property name of the value are written into the
    text. *)
Theorem earlier_query_text_holds_names this :
  (forall act segments values values',
      for_in_keys (or_default values) = for_in_keys (or_default values') ->
      Legacy._getQuery this act segments values
      = Legacy._getQuery this act segments values') /\
  (forall act label id values,
      exists q,
        Legacy._getQuery this act [label; id] values = Returned q /\
        contains label q = true /\
        contains id q = true /\
        contains (_ds_key this) q = true /\
        (act = Connector.SET ->
         forall name, In name (for_in_keys (or_default values)) -> contains name q = true)).
Proof.
  split.
  - intros act segments values values' H. unfold Legacy._getQuery. rewrite H. reflexivity.
  - intros act label id values. unfold Legacy._getQuery.
    cbn [List.length Nat.ltb Nat.leb lookup list_lookup interpolate].
    eexists. split; [reflexivity|]. repeat split.
    + apply each_key_keeps. find_part.
    + apply each_key_keeps. find_part.
    + apply each_key_keeps. find_part.
    + intros -> name Hin. apply each_key_names. exact Hin.
Qed.

Lemma earlier_query_same_for_john_and_jane :
  for_in_keys (or_default (Some Examples.john_storage))
  = for_in_keys (or_default (Some Examples.jane_storage)) /\
  Legacy._getQuery Legacy.slash Connector.SET ["USERS"; "123"] (Some Examples.john_storage)
  = Legacy._getQuery Legacy.slash Connector.SET ["USERS"; "123"] (Some Examples.jane_storage).
Proof.
  split; [reflexivity|].
  exact (proj1 (earlier_query_text_holds_names Legacy.slash) Connector.SET ["USERS"; "123"]
           (Some Examples.john_storage) (Some Examples.jane_storage) eq_refl).
Defined.
End EarlierConnector.
